(** * DrugActivityPredictor: the model-training pipeline of
    [test-dataset/new-test-data/03-model-training.py]

    The class trains the estimators of a registry on one shared stratified
    split, scores each of them, selects the best by F1, pickles the trained
    estimators and renders a text report.

    The development has two layers.
    - The class itself ([__init__], [train_models], [get_best_model],
      [save_models], [generate_report]) is transcribed from the Python source;
      Python dictionaries are insertion-ordered association lists, exceptions
      are an explicit [result], and [self] is passed as a state.
    - The library calls the class makes (scikit-learn's [train_test_split] and
      metric functions, [os.makedirs], [joblib.dump], Python's [max], [str.upper]
      and [format]) are modelled after the documented behaviour of those
      libraries, [os.makedirs] after its Python 3.11 source and the file system
      after the way Linux resolves path names; estimators and the numpy random
      generator stay abstract behind two interfaces.  Real-valued results are
      exact rationals. *)

From Stdlib Require Import ZArith QArith Qround Qabs String Ascii List Lia Permutation Sorted.
From Stdlib Require Import DecimalString Lqa.
From stdpp Require Import gmap strings list.

Set Warnings "-clear-no-such-hyp".

Local Open Scope string_scope.
Local Open Scope list_scope.

(** ** Python values *)

(** A raised exception: its class name and message. *)
Inductive exn : Type := PyExn (cls : string) (msg : string).

Definition exn_class (e : exn) : string := match e with PyExn c _ => c end.

Definition ValueError (msg : string) : exn := PyExn "ValueError" msg.
Definition KeyError (key : string) : exn := PyExn "KeyError" key.
Definition FileExistsError (path : string) : exn := PyExn "FileExistsError" path.
Definition FileNotFoundError (path : string) : exn := PyExn "FileNotFoundError" path.
Definition NotADirectoryError (path : string) : exn := PyExn "NotADirectoryError" path.
Definition IsADirectoryError (path : string) : exn := PyExn "IsADirectoryError" path.
Definition OSError (msg : string) : exn := PyExn "OSError" msg.
Definition RecursionError : exn :=
  PyExn "RecursionError" "maximum recursion depth exceeded".

(** [except OSError] catches the class and its subclasses. *)
Definition is_OSError (e : exn) : bool :=
  existsb (String.eqb (exn_class e))
          ["OSError"; "FileNotFoundError"; "FileExistsError";
           "NotADirectoryError"; "IsADirectoryError"].

(** The outcome of a call that may raise. *)
Inductive result (A : Type) : Type :=
| Ok (a : A)
| Raise (e : exn).
Arguments Ok {A} a.
Arguments Raise {A} e.

Definition bind {A B : Type} (r : result A) (k : A -> result B) : result B :=
  match r with
  | Ok a => k a
  | Raise e => Raise e
  end.

Notation "'try!' x ':=' r 'in' k" := (bind r (fun x => k))
  (at level 10, x pattern, r at level 100, k at level 200).

(** A Python float as the pipeline sees it: a finite number, kept exact, or
    the not-a-number value that numpy produces for an empty mean. *)
Inductive pyfloat : Type :=
| NaN
| Fin (q : Q).

(** *** Dictionaries

    A [dict] keeps its keys in insertion order; assigning to a key that is
    present replaces the value where it is, assigning to a new key appends. *)
Definition dict (V : Type) : Type := list (string * V).

Definition keys {V : Type} (d : dict V) : list string := fst <$> d.

Fixpoint dict_get {V : Type} (k : string) (d : dict V) : option V :=
  match d with
  | [] => None
  | (k', v) :: r => if String.eqb k' k then Some v else dict_get k r
  end.

Fixpoint dict_set {V : Type} (k : string) (v : V) (d : dict V) : dict V :=
  match d with
  | [] => [(k, v)]
  | (k', v') :: r =>
      if String.eqb k' k then (k', v) :: r else (k', v') :: dict_set k v r
  end.

(** *** Built-in [max(iterable, key=...)]

    The first item is the initial best; a later item replaces it only when its
    key is strictly greater, so among equal keys the earliest item is kept.
    An empty iterable raises [ValueError]. *)
Fixpoint max_from {A : Type} (key : A -> Q) (best : A) (rest : list A) : A :=
  match rest with
  | [] => best
  | x :: r =>
      if Qlt_le_dec (key best) (key x) then max_from key x r
      else max_from key best r
  end.

Definition py_max {A : Type} (key : A -> Q) (l : list A) : result A :=
  match l with
  | [] => Raise (ValueError "max() arg is an empty sequence")
  | x :: r => Ok (max_from key x r)
  end.

(** ** Datasets *)

(** A feature matrix is a list of rows; labels are integer-coded classes. *)
Definition features : Type := list (list Q).
Definition labels : Type := list Z.

(** ** The library interfaces *)

(** What the pipeline needs from scikit-learn estimators.  [fit] mutates the
    estimator and may raise: it yields the estimator as the call leaves it and
    the exception, if any.  [cross_val_score] fits clones and leaves the
    estimator alone.  [pickle] is the byte content [joblib.dump] writes. *)
Class Estimator : Type := {
  model : Type;
  fit : model -> features -> labels -> model * option exn;
  predict : model -> features -> result labels;
  cross_val_score : model -> features -> labels -> nat -> result (list pyfloat);
  ndarray_std : list pyfloat -> pyfloat;
  pickle : model -> string;
  RandomForestClassifier : forall (n_estimators : nat) (random_state : Z), model;
  SVC : forall (kernel : string) (random_state : Z), model;
  MLPClassifier : forall (hidden_layer_sizes : list nat) (random_state : Z), model;
  GradientBoostingClassifier : forall (random_state : Z), model
}.

(** numpy's [RandomState]: seeding, [permutation] of an array and [choice]
    without replacement.  Each draw returns the advanced generator. *)
Class RandomState : Type := {
  rng : Type;
  seed_rng : Z -> rng;
  rng_permutation : rng -> list nat -> rng * list nat;
  rng_choice : rng -> list nat -> nat -> rng * list nat
}.

(** The documented contract of the two draws. *)
Class RandomStateLaws (R : RandomState) : Prop := {
  rng_permutation_perm :
    forall g l, Permutation l (snd (rng_permutation g l));
  rng_choice_spec :
    forall g l k, NoDup l -> k <= length l ->
      length (snd (rng_choice g l k)) = k /\
      NoDup (snd (rng_choice g l k)) /\
      (forall i, i ∈ snd (rng_choice g l k) -> i ∈ l)
}.

(** ** scikit-learn: [train_test_split] with [stratify] *)

Definition sum_nat (l : list nat) : nat := fold_right Nat.add 0 l.

(** [np.unique]: the distinct values in increasing order. *)
Fixpoint insert_unique (c : Z) (l : list Z) : list Z :=
  match l with
  | [] => [c]
  | d :: r =>
      if (c <? d)%Z then c :: l
      else if (c =? d)%Z then l
      else d :: insert_unique c r
  end.

Definition np_unique (y : list Z) : list Z := fold_right insert_unique [] y.

Definition unique_nat (l : list nat) : list nat :=
  map Z.to_nat (np_unique (map Z.of_nat l)).

(** Number of samples of class [c], and their positions in increasing order
    (what the stable [argsort] followed by [np.split] yields per class). *)
Definition class_count (c : Z) (y : labels) : nat :=
  length (List.filter (fun l => (l =? c)%Z) y).

Fixpoint positions_from (i : nat) (c : Z) (y : labels) : list nat :=
  match y with
  | [] => []
  | l :: r =>
      if (l =? c)%Z then i :: positions_from (S i) c r
      else positions_from (S i) c r
  end.

Definition class_indices (c : Z) (y : labels) : list nat := positions_from 0 c y.

(** [np.where(remainder == value)] *)
Fixpoint where_from (i : nat) (v : nat) (l : list nat) : list nat :=
  match l with
  | [] => []
  | x :: r =>
      if Nat.eqb x v then i :: where_from (S i) v r else where_from (S i) v r
  end.

Definition np_where (v : nat) (l : list nat) : list nat := where_from 0 v l.

(** [floored[inds] += 1]: every selected position grows by one, once. *)
Fixpoint increment_from (i : nat) (inds : list nat) (l : list nat) : list nat :=
  match l with
  | [] => []
  | x :: r =>
      (if existsb (Nat.eqb i) inds then S x else x) :: increment_from (S i) inds r
  end.

Definition increment_at (inds : list nat) (l : list nat) : list nat :=
  increment_from 0 inds l.

(** [np.min] of a one-dimensional array; an empty array raises. *)
Definition np_min (l : list nat) : result nat :=
  match l with
  | [] => Raise (ValueError "zero-size array to reduction operation minimum")
  | x :: r => Ok (fold_left Nat.min r x)
  end.

(** [_safe_indexing(a, idx)]: the rows of [a] at the positions [idx]. *)
Definition safe_indexing {A : Type} (d : A) (a : list A) (idx : list nat) : list A :=
  map (fun i => nth i a d) idx.

(** [a.take(perm, mode="clip")] *)
Definition take_clip (a : list nat) (perm : list nat) : list nat :=
  map (fun j => nth (Nat.min j (length a - 1)) a 0) perm.

(** The four arrays [train_test_split] returns. *)
Record split : Type := mk_split {
  X_train : features;
  X_test : features;
  y_train : labels;
  y_test : labels
}.

Section StratifiedSplit.
Context {R : RandomState}.

(** [check_random_state]: an integer seeds a fresh generator; [None] is the
    process-wide numpy generator. *)
Definition check_random_state (random_state : option Z) (global : rng) : rng :=
  match random_state with
  | Some s => seed_rng s
  | None => global
  end.

(** The loop of [_approximate_mode] over the distinct remainders, largest
    first: the classes holding that remainder get one more draw each, chosen
    at random among them when fewer draws are left than classes. *)
Fixpoint add_by_remainder (g : rng) (values : list nat) (remainder : list nat)
         (floored : list nat) (need_to_add : nat) : rng * list nat :=
  match values with
  | [] => (g, floored)
  | value :: vs =>
      let inds := np_where value remainder in
      let add_now := Nat.min (length inds) need_to_add in
      let '(g', chosen) := rng_choice g inds add_now in
      let floored' := increment_at chosen floored in
      let need' := need_to_add - add_now in
      if Nat.eqb need' 0 then (g', floored')
      else add_by_remainder g' vs remainder floored' need'
  end.

(** [_approximate_mode(class_counts, n_draws, rng)].  The library computes
    [class_counts / class_counts.sum() * n_draws] in floating point; here the
    quotient is exact: its floor is the integer quotient and its fractional
    part is represented by the numerator over the common denominator
    [class_counts.sum()]. *)
Definition approximate_mode (g : rng) (class_counts : list nat) (n_draws : nat)
  : rng * list nat :=
  let total := sum_nat class_counts in
  let floored := map (fun c => c * n_draws / total) class_counts in
  let need_to_add := n_draws - sum_nat floored in
  if Nat.ltb 0 need_to_add then
    let remainder := map (fun c => (c * n_draws) mod total) class_counts in
    let values := rev (unique_nat remainder) in
    add_by_remainder g values remainder floored need_to_add
  else (g, floored).

(** The per-class loop of [StratifiedShuffleSplit._iter_indices]. *)
Fixpoint draw_classes (g : rng) (y : labels) (cls : list (Z * (nat * nat)))
         (train test : list nat) : rng * (list nat * list nat) :=
  match cls with
  | [] => (g, (train, test))
  | (c, (n, t)) :: r =>
      let '(g', permutation) := rng_permutation g (seq 0 (class_count c y)) in
      let perm_indices := take_clip (class_indices c y) permutation in
      draw_classes g' y r
        (train ++ firstn n perm_indices)
        (test ++ firstn t (skipn n perm_indices))
  end.

(** [StratifiedShuffleSplit(test_size=n_test, train_size=n_train).split]:
    the index arrays of the first (and only) split. *)
Definition stratified_shuffle_split (g : rng) (y : labels) (n_train n_test : nat)
  : result (rng * (list nat * list nat)) :=
  let classes := np_unique y in
  let n_classes := length classes in
  let class_counts := map (fun c => class_count c y) classes in
  try! least := np_min class_counts in
  if Nat.ltb least 2 then
    Raise (ValueError "The least populated class in y has only 1 member, which is too few.")
  else if Nat.ltb n_train n_classes then
    Raise (ValueError "The train_size should be greater or equal to the number of classes")
  else if Nat.ltb n_test n_classes then
    Raise (ValueError "The test_size should be greater or equal to the number of classes")
  else
    let '(g1, n_i) := approximate_mode g class_counts n_train in
    let class_counts_remaining := map (fun p => fst p - snd p) (combine class_counts n_i) in
    let '(g2, t_i) := approximate_mode g1 class_counts_remaining n_test in
    let '(g3, (train, test)) :=
      draw_classes g2 y (combine classes (combine n_i t_i)) [] [] in
    let '(g4, train') := rng_permutation g3 train in
    let '(g5, test') := rng_permutation g4 test in
    Ok (g5, (train', test')).

(** [_validate_shuffle_split] for a float [test_size] and no [train_size]. *)
Definition validate_shuffle_split (n_samples : nat) (test_size : Q)
  : result (nat * nat) :=
  if Qle_bool test_size 0 || Qle_bool 1 test_size then
    Raise (ValueError "test_size should be a float in the (0, 1) range")
  else
    let n_test := Z.to_nat (Qceiling (test_size * inject_Z (Z.of_nat n_samples))) in
    let n_train := n_samples - n_test in
    if Nat.eqb n_train 0 then
      Raise (ValueError "the resulting train set will be empty")
    else Ok (n_train, n_test).

(** [train_test_split(X, y, test_size=..., random_state=..., stratify=y)].
    The first component is the process-wide generator after the call: it
    moves only when no seed is given. *)
Definition train_test_split (global : rng) (X : features) (y : labels)
           (test_size : Q) (random_state : option Z) : rng * result split :=
  if negb (Nat.eqb (length X) (length y)) then
    (global, Raise (ValueError "Found input variables with inconsistent numbers of samples"))
  else
    match validate_shuffle_split (length X) test_size with
    | Raise e => (global, Raise e)
    | Ok (n_train, n_test) =>
        match stratified_shuffle_split (check_random_state random_state global)
                                       y n_train n_test with
        | Raise e => (global, Raise e)
        | Ok (g', (train, test)) =>
            (match random_state with Some _ => global | None => g' end,
             Ok {| X_train := safe_indexing [] X train;
                   X_test := safe_indexing [] X test;
                   y_train := safe_indexing 0%Z y train;
                   y_test := safe_indexing 0%Z y test |})
        end
    end.
End StratifiedSplit.

(** ** scikit-learn: the classification metrics

    The library computes these numbers in double precision.  Here each is the
    exact rational that the double approximates; what is stated of them
    further down is what rounding to the nearest double keeps: that a score
    lies between 0 and 1, and that it is exactly 0 or exactly 1. *)

(** A quotient of two counts, with the library's [zero_division] convention:
    an undefined quotient counts as 0. *)
Definition ratio (a b : nat) : Q :=
  if Nat.eqb b 0 then 0%Q else (Z.of_nat a # Pos.of_nat b)%Q.

Definition sum_Q (l : list Q) : Q := fold_right Qplus 0%Q l.

Definition matches (y_true y_pred : labels) : nat :=
  length (List.filter (fun p => (fst p =? snd p)%Z) (combine y_true y_pred)).

(** The validation every metric starts with: the two sequences have the same
    length and hold at least one sample. *)
Definition check_targets (y_true y_pred : labels) : result unit :=
  if negb (Nat.eqb (length y_true) (length y_pred)) then
    Raise (ValueError "Found input variables with inconsistent numbers of samples")
  else if Nat.eqb (length y_true) 0 then
    Raise (ValueError "Found empty input array while a minimum of 1 sample is required")
  else Ok tt.

(** [accuracy_score]: the fraction of positions where the prediction is the
    true label. *)
Definition accuracy_score (y_true y_pred : labels) : result pyfloat :=
  try! _ := check_targets y_true y_pred in
  Ok (Fin (ratio (matches y_true y_pred) (length y_true))).

(** Per-class counts: true positives, predicted members, true members. *)
Definition tp_sum (c : Z) (y_true y_pred : labels) : nat :=
  length (List.filter (fun p => (fst p =? c)%Z && (snd p =? c)%Z) (combine y_true y_pred)).

Definition pred_sum (c : Z) (y_pred : labels) : nat := class_count c y_pred.
Definition true_sum (c : Z) (y_true : labels) : nat := class_count c y_true.

Definition class_precision (y_true y_pred : labels) (c : Z) : Q :=
  ratio (tp_sum c y_true y_pred) (pred_sum c y_pred).

Definition class_recall (y_true y_pred : labels) (c : Z) : Q :=
  ratio (tp_sum c y_true y_pred) (true_sum c y_true).

Definition class_f1 (y_true y_pred : labels) (c : Z) : Q :=
  ratio (2 * tp_sum c y_true y_pred) (true_sum c y_true + pred_sum c y_pred).

(** [average='weighted']: the per-class scores averaged with the class
    supports (the true counts) as weights; no support at all gives 0. *)
Definition weighted_average (support : list nat) (score : list Q) : Q :=
  if Nat.eqb (sum_nat support) 0 then 0%Q
  else (sum_Q (map (fun p => inject_Z (Z.of_nat (fst p)) * snd p) (combine support score))
        / inject_Z (Z.of_nat (sum_nat support)))%Q.

Definition weighted_score (per_class : labels -> labels -> Z -> Q)
           (y_true y_pred : labels) : result Q :=
  try! _ := check_targets y_true y_pred in
  let present_labels := np_unique (y_true ++ y_pred) in
  Ok (weighted_average (map (fun c => true_sum c y_true) present_labels)
                       (map (per_class y_true y_pred) present_labels)).

Definition precision_score_weighted : labels -> labels -> result Q :=
  weighted_score class_precision.
Definition recall_score_weighted : labels -> labels -> result Q :=
  weighted_score class_recall.
Definition f1_score_weighted : labels -> labels -> result Q :=
  weighted_score class_f1.

(** [ndarray.mean()] of the cross-validation scores. *)
Fixpoint finite_values (l : list pyfloat) : option (list Q) :=
  match l with
  | [] => Some []
  | NaN :: _ => None
  | Fin q :: r => option_map (cons q) (finite_values r)
  end.

Definition ndarray_mean (l : list pyfloat) : pyfloat :=
  match finite_values l with
  | None => NaN
  | Some [] => NaN
  | Some qs => Fin (sum_Q qs / inject_Z (Z.of_nat (length qs)))
  end.

(** ** Python text *)

(** [str.upper] on the ASCII range, where model identifiers live. *)
Definition ascii_upper (c : ascii) : ascii :=
  let n := nat_of_ascii c in
  if Nat.leb 97 n && Nat.leb n 122 then ascii_of_nat (n - 32) else c.

Fixpoint upper (s : string) : string :=
  match s with
  | EmptyString => EmptyString
  | String c r => String (ascii_upper c) (upper r)
  end.

(** ["sep".join(lines)] *)
Fixpoint join (sep : string) (lines : list string) : string :=
  match lines with
  | [] => ""
  | [l] => l
  | l :: r => l ++ sep ++ join sep r
  end.

(** [s * n] *)
Fixpoint repeat_string (s : string) (n : nat) : string :=
  match n with
  | 0 => ""
  | S k => s ++ repeat_string s k
  end.

(** Rounding to the nearest integer, ties to even, as [format] rounds. *)
Definition round_half_even (x : Q) : Z :=
  let fl := Qfloor x in
  let d := (x - inject_Z fl)%Q in
  match (d ?= 1 # 2)%Q with
  | Lt => fl
  | Gt => (fl + 1)%Z
  | Eq => if Z.even fl then fl else (fl + 1)%Z
  end.

Definition digit (n : Z) : ascii := ascii_of_nat (48 + Z.to_nat n).

Definition decimal (n : Z) : string :=
  DecimalString.NilZero.string_of_uint (N.to_uint (Z.to_N n)).

(** [f"{x:.3f}"]: sign, integer part, a point and exactly three decimals, the
    exact value being rounded to the nearest thousandth. *)
Definition format_3f (x : pyfloat) : string :=
  match x with
  | NaN => "nan"
  | Fin q =>
      let thousandths := round_half_even (Qabs q * 1000) in
      (if Qlt_le_dec q 0 then "-" else "")
      ++ decimal (thousandths / 1000) ++ "."
      ++ String (digit (thousandths / 100 mod 10))
           (String (digit (thousandths / 10 mod 10))
              (String (digit (thousandths mod 10)) ""))
  end.

(** ** The file system under [save_models]

    Directories and regular files as Linux resolves path names to them, and
    on top of that Python 3.11's [os.makedirs] and the [open(filename, 'wb')]
    of [joblib.dump].  A path name is a string of bytes.  The model has no
    symbolic links, and every directory and file in it may be searched and
    written by the process: permissions, quotas and a full disk are outside
    it. *)

Inductive node : Type :=
| Dir
| File (content : string).

(** What exists, by its location: the list of names that leads to it from the
    root directory.  The root itself always exists.  [cwd] is the location of
    the working directory, where relative path names start. *)
Record filesystem : Type := mk_fs {
  cwd : list string;
  tree : gmap (list string) node
}.

Definition node_at (fs : filesystem) (loc : list string) : option node :=
  match loc with
  | [] => Some Dir
  | _ => tree fs !! loc
  end.

(** *** Path names *)

(** The longest name of a directory entry and the longest path name, in
    bytes (the latter counts the terminating byte). *)
Definition NAME_MAX : nat := 255.
Definition PATH_MAX : nat := 4096.

Definition is_slash (c : ascii) : bool := Ascii.eqb c "/".

(** [path.split('/')] *)
Fixpoint pieces (path : string) : list string :=
  match path with
  | EmptyString => [""]
  | String c rest =>
      if is_slash c then "" :: pieces rest
      else match pieces rest with
           | p :: ps => String c p :: ps
           | [] => [String c ""]
           end
  end.

(** The names a path consists of: repeated and trailing slashes count for
    nothing. *)
Definition names (path : string) : list string :=
  List.filter (fun n => negb (String.eqb n "")) (pieces path).

Definition absolute (path : string) : bool :=
  match path with
  | String c _ => is_slash c
  | EmptyString => false
  end.

Fixpoint trailing_slash (path : string) : bool :=
  match path with
  | EmptyString => false
  | String c EmptyString => is_slash c
  | String _ rest => trailing_slash rest
  end.

Fixpoint has_nul (path : string) : bool :=
  match path with
  | EmptyString => false
  | String c rest => Ascii.eqb c Ascii.zero || has_nul rest
  end.

(** What every call that takes a path name refuses before looking at the
    disk. *)
Definition check_path (path : string) : result unit :=
  if has_nul path then Raise (ValueError "embedded null byte")
  else if String.eqb path "" then Raise (FileNotFoundError path)
  else if Nat.leb PATH_MAX (String.length path) then Raise (OSError "File name too long")
  else Ok tt.

(** Walking down (and, with [..], up) from the directory at [loc], every name
    on the way being a directory. *)
Fixpoint walk (fs : filesystem) (path : string) (loc : list string)
         (ns : list string) : result (list string) :=
  match ns with
  | [] => Ok loc
  | name :: rest =>
      if Nat.ltb NAME_MAX (String.length name) then Raise (OSError "File name too long")
      else if String.eqb name "." then walk fs path loc rest
      else if String.eqb name ".." then walk fs path (List.removelast loc) rest
      else match node_at fs (loc ++ [name]) with
           | Some Dir => walk fs path (loc ++ [name]) rest
           | Some (File _) => Raise (NotADirectoryError path)
           | None => Raise (FileNotFoundError path)
           end
  end.

(** What a path name leads to: a directory reached by walking (the root, or a
    path ending in [.] or [..]), or the entry under its last name in the
    directory the names before it lead to; that entry may be missing.
    [opening] is set when the path is opened for writing, which refuses a
    trailing slash outright. *)
Inductive target : Type :=
| Reached (loc : list string)
| Entry (loc : list string).

Definition namei (fs : filesystem) (path : string) (opening : bool) : result target :=
  try! _ := check_path path in
  let start := if absolute path then [] else cwd fs in
  match names path with
  | [] => Ok (Reached start)
  | ns =>
      try! loc := walk fs path start (List.removelast ns) in
      let final := List.last ns "" in
      if opening && trailing_slash path then Raise (IsADirectoryError path)
      else if Nat.ltb NAME_MAX (String.length final) then
        Raise (OSError "File name too long")
      else if String.eqb final "." then Ok (Reached loc)
      else if String.eqb final ".." then Ok (Reached (List.removelast loc))
      else Ok (Entry (loc ++ [final]))
  end.

(** [os.stat(path)] *)
Definition stat (fs : filesystem) (path : string) : result node :=
  try! t := namei fs path false in
  match t with
  | Reached _ => Ok Dir
  | Entry loc =>
      match node_at fs loc with
      | None => Raise (FileNotFoundError path)
      | Some Dir => Ok Dir
      | Some (File content) =>
          if trailing_slash path then Raise (NotADirectoryError path)
          else Ok (File content)
      end
  end.

(** [os.path.exists], [os.path.isdir], and what reading the file gives. *)
Definition path_exists (fs : filesystem) (path : string) : bool :=
  match stat fs path with
  | Ok _ => true
  | Raise _ => false
  end.

Definition isdir (fs : filesystem) (path : string) : bool :=
  match stat fs path with
  | Ok Dir => true
  | _ => false
  end.

Definition read_file (fs : filesystem) (path : string) : option string :=
  match stat fs path with
  | Ok (File content) => Some content
  | _ => None
  end.

(** [os.mkdir(path)] *)
Definition mkdir (fs : filesystem) (path : string) : result filesystem :=
  try! t := namei fs path false in
  match t with
  | Reached _ => Raise (FileExistsError path)
  | Entry loc =>
      match node_at fs loc with
      | Some _ => Raise (FileExistsError path)
      | None => Ok {| cwd := cwd fs; tree := <[ loc := Dir ]> (tree fs) |}
      end
  end.

(** [open(path, 'wb')], the content written and the file closed: the file is
    created, or its content replaced. *)
Definition open_wb (fs : filesystem) (path : string) (content : string)
  : result filesystem :=
  try! t := namei fs path true in
  match t with
  | Reached _ => Raise (IsADirectoryError path)
  | Entry loc =>
      match node_at fs loc with
      | Some Dir => Raise (IsADirectoryError path)
      | _ => Ok {| cwd := cwd fs; tree := <[ loc := File content ]> (tree fs) |}
      end
  end.

(** *** [os.makedirs] *)

(** [(p[:i], p[i:])] for [i = p.rfind('/') + 1] *)
Fixpoint rsplit (p : string) : string * string :=
  match p with
  | EmptyString => ("", "")
  | String c rest =>
      let '(head, tail) := rsplit rest in
      if String.eqb head "" then
        if is_slash c then (String c "", tail) else ("", String c tail)
      else (String c head, tail)
  end.

(** [s.rstrip('/')] *)
Fixpoint rstrip_slash (s : string) : string :=
  match s with
  | EmptyString => ""
  | String c rest =>
      match rstrip_slash rest with
      | EmptyString => if is_slash c then "" else String c ""
      | stripped => String c stripped
      end
  end.

(** [posixpath.split(p)]: the head loses its trailing slashes unless it
    consists of slashes only. *)
Definition posixpath_split (p : string) : string * string :=
  let '(head, tail) := rsplit p in
  (if negb (String.eqb head "") && negb (String.eqb (rstrip_slash head) "")
   then rstrip_slash head else head,
   tail).

(** The first lines of [makedirs]: the path is split, and split again if it
    ended in a slash. *)
Definition leaf_split (name : string) : string * string :=
  let '(head, tail) := posixpath_split name in
  if String.eqb tail "" then posixpath_split head else (head, tail).

(** The [mkdir] at the end of [makedirs]: an [OSError] is let go when
    [exist_ok] is set and the path is a directory. *)
Definition mkdir_or_accept (fs : filesystem) (name : string) (exist_ok : bool)
  : filesystem * result unit :=
  match mkdir fs name with
  | Ok fs' => (fs', Ok tt)
  | Raise e =>
      if is_OSError e && exist_ok && isdir fs name then (fs, Ok tt)
      else (fs, Raise e)
  end.

(** [os.makedirs(name, exist_ok=...)].  The function calls itself on the head
    of the path while that does not exist; [room] is how many nested calls
    the interpreter's recursion limit still allows.  What a failing call has
    created stays on the disk. *)
Fixpoint makedirs (room : nat) (fs : filesystem) (name : string) (exist_ok : bool)
  : filesystem * result unit :=
  match room with
  | 0 => (fs, Raise RecursionError)
  | S room =>
      let '(head, tail) := leaf_split name in
      if negb (String.eqb head "") && negb (String.eqb tail "")
         && negb (path_exists fs head)
      then
        let '(fs1, made) := makedirs room fs head exist_ok in
        match made with
        | Raise e =>
            if String.eqb (exn_class e) "FileExistsError" then
              if String.eqb tail "." then (fs1, Ok tt)
              else mkdir_or_accept fs1 name exist_ok
            else (fs1, Raise e)
        | Ok _ =>
            if String.eqb tail "." then (fs1, Ok tt)
            else mkdir_or_accept fs1 name exist_ok
        end
      else mkdir_or_accept fs name exist_ok
  end.

(** ** The class [DrugActivityPredictor] *)

(** The value of [self.model_scores[name]]. *)
Record scores : Type := mk_scores {
  accuracy : pyfloat;
  precision : Q;
  recall : Q;
  f1 : Q;
  cv_mean : pyfloat;
  cv_std : pyfloat
}.

Section Predictor.
Context {E : Estimator} {R : RandomState}.

(** Estimator objects are shared, mutable Python objects: the dictionaries
    hold references, and [heap] gives the current state of each object. *)
Definition ref : Type := nat.

Record predictor : Type := mk_predictor {
  heap : ref -> model;
  models : dict ref;
  trained_models : dict ref;
  model_scores : dict scores
}.

Definition set_heap (p : predictor) (r : ref) (m : model) : predictor :=
  {| heap := fun r' => if Nat.eqb r' r then m else heap p r';
     models := models p;
     trained_models := trained_models p;
     model_scores := model_scores p |}.

Definition store_results (p : predictor) (name : string) (r : ref) (s : scores)
  : predictor :=
  {| heap := heap p;
     models := models p;
     trained_models := dict_set name r (trained_models p);
     model_scores := dict_set name s (model_scores p) |}.

(** A predictor over any registry, nothing trained yet. *)
Definition new_predictor (h : ref -> model) (registry : dict ref) : predictor :=
  {| heap := h; models := registry; trained_models := []; model_scores := [] |}.

Definition __init__ : predictor :=
  new_predictor
    (fun r => match r with
              | 0 => RandomForestClassifier 100 42
              | 1 => SVC "rbf" 42
              | 2 => MLPClassifier [100; 50] 42
              | _ => GradientBoostingClassifier 42
              end)
    [("random_forest", 0); ("svm", 1); ("neural_network", 2);
     ("gradient_boosting", 3)].

(** *** [train_models]

    One turn of the loop over [self.models.items()].  The estimator is
    mutated by [fit] whatever happens next; the two result dictionaries are
    written only at the end of the turn, one right after the other. *)
Definition train_one (sp : split) (p : predictor) (name : string) (r : ref)
  : predictor * result unit :=
  let '(m, raised) := fit (heap p r) (X_train sp) (y_train sp) in
  let p := set_heap p r m in
  match raised with
  | Some e => (p, Raise e)
  | None =>
      let outcome :=
        try! y_pred := predict m (X_test sp) in
        try! accuracy := accuracy_score (y_test sp) y_pred in
        try! precision := precision_score_weighted (y_test sp) y_pred in
        try! recall := recall_score_weighted (y_test sp) y_pred in
        try! f1 := f1_score_weighted (y_test sp) y_pred in
        try! cv_scores := cross_val_score m (X_train sp) (y_train sp) 5 in
        Ok {| accuracy := accuracy;
              precision := precision;
              recall := recall;
              f1 := f1;
              cv_mean := ndarray_mean cv_scores;
              cv_std := ndarray_std cv_scores |} in
      match outcome with
      | Raise e => (p, Raise e)
      | Ok s => (store_results p name r s, Ok tt)
      end
  end.

(** The [for] loop: an exception leaves the loop at once. *)
Fixpoint train_loop (sp : split) (items : dict ref) (p : predictor)
  : predictor * result unit :=
  match items with
  | [] => (p, Ok tt)
  | (name, r) :: rest =>
      match train_one sp p name r with
      | (p', Ok _) => train_loop sp rest p'
      | (p', Raise e) => (p', Raise e)
      end
  end.

(** [train_models(self, X, y)], run with the process-wide numpy generator
    [global]. *)
Definition train_models (global : rng) (p : predictor) (X : features) (y : labels)
  : rng * (predictor * result unit) :=
  match train_test_split global X y (1 # 5) (Some 42%Z) with
  | (global', Raise e) => (global', (p, Raise e))
  | (global', Ok sp) => (global', train_loop sp (models p) p)
  end.

(** *** [get_best_model]

    The key of [max] reads [self.model_scores[x]['f1']] for [x] among the
    keys of that same dictionary, so the lookup is always answered. *)
Definition f1_of (p : predictor) (x : string) : Q :=
  match dict_get x (model_scores p) with
  | Some s => f1 s
  | None => 0
  end.

Definition get_best_model (p : predictor) : result (string * ref) :=
  try! best_model_name := py_max (f1_of p) (keys (model_scores p)) in
  match dict_get best_model_name (trained_models p) with
  | Some r => Ok (best_model_name, r)
  | None => Raise (KeyError best_model_name)
  end.

(** *** [save_models] *)

Definition artifact_path (output_dir name : string) : string :=
  output_dir +:+ "/" +:+ name +:+ "_model.pkl".

(** [joblib.dump(model, filename)]: the file is opened for writing and the
    pickle of the estimator written to it. *)
Definition joblib_dump (fs : filesystem) (m : model) (filename : string)
  : result filesystem :=
  open_wb fs filename (pickle m).

(** The [for] loop of [save_models]; what was written before an exception
    stays. *)
Fixpoint save_loop (h : ref -> model) (output_dir : string) (items : dict ref)
         (fs : filesystem) : filesystem * result unit :=
  match items with
  | [] => (fs, Ok tt)
  | (name, r) :: rest =>
      match joblib_dump fs (h r) (artifact_path output_dir name) with
      | Ok fs' => save_loop h output_dir rest fs'
      | Raise e => (fs, Raise e)
      end
  end.

(** [save_models(self, output_dir)], with [room] nested calls left to
    [os.makedirs]. *)
Definition save_models (room : nat) (fs : filesystem) (p : predictor)
           (output_dir : string) : filesystem * result unit :=
  match makedirs room fs output_dir true with
  | (fs', Raise e) => (fs', Raise e)
  | (fs', Ok _) => save_loop (heap p) output_dir (trained_models p) fs'
  end.

(** *** [generate_report] *)

Definition report_block (item : string * scores) : list string :=
  let '(name, s) := item in
  [ String "010" (upper name) +:+ ":";
    "  Accuracy:  " +:+ format_3f (accuracy s);
    "  Precision: " +:+ format_3f (Fin (precision s));
    "  Recall:    " +:+ format_3f (Fin (recall s));
    "  F1 Score:  " +:+ format_3f (Fin (f1 s));
    "  CV Score:  " +:+ format_3f (cv_mean s) +:+ " ± " +:+ format_3f (cv_std s) ].

Definition report_lines (p : predictor) : list string :=
  ["Model Performance Report"; repeat_string "=" 50]
  ++ concat (map report_block (model_scores p)).

Definition generate_report (p : predictor) : string :=
  join (String "010" "") (report_lines p).
End Predictor.

(** ** Concrete instances, for running the model *)

(** A generator that never shuffles: the identity permutation and the first
    [k] candidates. *)
Definition fixed_rng : RandomState :=
  {| rng := unit;
     seed_rng := fun _ => tt;
     rng_permutation := fun g l => (g, l);
     rng_choice := fun g l k => (g, firstn k l) |}.

(** Two kinds of estimator: one that always answers the same label once
    fitted, one whose [fit] raises. *)
Inductive toy_model : Type :=
| Constant (answer : Z) (fitted : bool)
| Broken.

Definition toy_fit (m : toy_model) (X : features) (y : labels)
  : toy_model * option exn :=
  match m with
  | Constant a _ => (Constant a true, None)
  | Broken => (Broken, Some (ValueError "malformed hyperparameter"))
  end.

Definition toy_predict (m : toy_model) (X : features) : result labels :=
  match m with
  | Constant a true => Ok (map (fun _ => a) X)
  | _ => Raise (PyExn "NotFittedError" "This estimator is not fitted yet")
  end.

Definition toy_pickle (m : toy_model) : string :=
  match m with
  | Constant a true => "fitted:" +:+ decimal a
  | Constant a false => "fresh:" +:+ decimal a
  | Broken => "broken"
  end.

Definition toy_estimator : Estimator :=
  {| model := toy_model;
     fit := toy_fit;
     predict := toy_predict;
     cross_val_score := fun _ _ _ cv => Ok (repeat (Fin (1 # 2)) cv);
     ndarray_std := fun _ => Fin 0;
     pickle := toy_pickle;
     RandomForestClassifier := fun _ _ => Constant 0 false;
     SVC := fun _ _ => Constant 1 false;
     MLPClassifier := fun _ _ => Constant 1 false;
     GradientBoostingClassifier := fun _ => Constant 0 false |}.

(** Ten samples, six of class 0 and four of class 1. *)
Definition ten_labels : labels := [0; 0; 0; 1; 1; 0; 1; 0; 1; 0]%Z.
Definition ten_rows : features := map (fun l => [inject_Z l]) ten_labels.

(** ** Programs over a predictor *)

(** What surrounds the object: numpy's process-wide generator, the disk, and
    how many nested calls the interpreter's recursion limit leaves to
    [os.makedirs] (about [sys.getrecursionlimit()], 1000 unless changed, less
    the depth of the caller). *)
Record world {R : RandomState} : Type := mk_world {
  np_random : rng;
  disk : filesystem;
  recursion_room : nat
}.

(** A call of one of the four methods.  Only [train_models] assigns to
    attributes of [self]; [save_models] writes to the disk; the two others
    only compute their result. *)
Inductive call : Type :=
| TrainModels (X : features) (y : labels)
| GetBestModel
| SaveModels (output_dir : string)
| GenerateReport.

Section Programs.
Context {E : Estimator} {R : RandomState}.

Definition step (c : call) (wp : world * predictor) : world * predictor :=
  let '(w, p) := wp in
  match c with
  | TrainModels X y =>
      let '(g, (p', _)) := train_models (np_random w) p X y in
      ({| np_random := g; disk := disk w; recursion_room := recursion_room w |}, p')
  | GetBestModel => let _ := get_best_model p in (w, p)
  | SaveModels output_dir =>
      let '(fs, _) := save_models (recursion_room w) (disk w) p output_dir in
      ({| np_random := np_random w; disk := fs; recursion_room := recursion_room w |}, p)
  | GenerateReport => let _ := generate_report p in (w, p)
  end.

(** A sequence of calls, each one started whether or not the previous one
    raised (the caller may catch the exception and go on). *)
Definition run (calls : list call) (wp : world * predictor) : world * predictor :=
  fold_left (fun acc c => step c acc) calls wp.
End Programs.

(** Three registered toy estimators; the fit of the second one raises. *)
Definition toy_heap (r : ref) : toy_model :=
  match r with
  | 0 => Constant 0 false
  | 1 => Broken
  | _ => Constant 1 false
  end.

Definition toy_registry : dict ref := [("first", 0); ("faulty", 1); ("last", 2)].

Definition toy_predictor : @predictor toy_estimator :=
  @new_predictor toy_estimator toy_heap toy_registry.

(** The split of the ten samples under [fixed_rng]. *)
Definition ten_split : split :=
  {| X_train := [[0]; [0]; [0]; [0]; [0]; [1]; [1]; [1]]%Q;
     X_test := [[0]; [1]]%Q;
     y_train := [0; 0; 0; 0; 0; 1; 1; 1]%Z;
     y_test := [0; 1]%Z |}.

Definition toy_world : @world fixed_rng :=
  @mk_world fixed_rng tt {| cwd := ["home"; "lab"]; tree := {[ ["home"] := Dir; ["home"; "lab"] := Dir ]} |} 1000.

(** The toy predictor of [__init__] after one training run, and the same
    predictor after its second estimator was refitted to another answer. *)
Definition trained_toy : @predictor toy_estimator :=
  snd (@run toy_estimator fixed_rng [TrainModels ten_rows ten_labels]
         (toy_world, @__init__ toy_estimator)).

Definition retrained_toy : @predictor toy_estimator :=
  @set_heap toy_estimator trained_toy 1 (Constant 7 true).

Definition empty_disk : filesystem := {| cwd := []; tree := ∅ |}.

(** Registries whose identifiers are no plain file names: one with a slash,
    and two that differ as strings but lead to the same file. *)
Definition nested_name : @predictor toy_estimator :=
  snd (@run toy_estimator fixed_rng [TrainModels ten_rows ten_labels]
         (toy_world, @new_predictor toy_estimator toy_heap [("x/y", 0)])).

Definition aliased_names : @predictor toy_estimator :=
  snd (@run toy_estimator fixed_rng [TrainModels ten_rows ten_labels]
         (toy_world, @new_predictor toy_estimator toy_heap [("a", 0); ("./a", 2)])).

(** A disk on which ["models"] is a regular file. *)
Definition blocked_disk : filesystem :=
  {| cwd := []; tree := {[ ["models"] := File "not a directory" ]} |}.

(** A predictor with the single registry entry ["svm"], trained once. *)
Definition svm_only : @predictor toy_estimator :=
  snd (@run toy_estimator fixed_rng [TrainModels ten_rows ten_labels]
         (toy_world, @new_predictor toy_estimator toy_heap [("svm", 0)])).

(** A generator whose draws depend on its state: the state counts the draws
    made so far and rotates the candidates by that count. *)
Definition counter_rng : RandomState :=
  {| rng := nat;
     seed_rng := fun s => Z.to_nat s;
     rng_permutation := fun g l => (S g, rotate g l);
     rng_choice := fun g l k => (S g, take k (rotate g l)) |}.

(** Four samples in which class 1 has a single member, and four samples with
    two members in each of two classes. *)
Definition lonely_labels : labels := [0; 0; 0; 1]%Z.
Definition lonely_rows : features := map (fun l => [inject_Z l]) lonely_labels.
Definition two_by_two_labels : labels := [0; 0; 1; 1]%Z.
Definition two_by_two_rows : features := map (fun l => [inject_Z l]) two_by_two_labels.

(** ** The script's [main] *)

(** The two numpy draws [main] makes from the process-wide generator:
    [np.random.randn(rows, columns)] and [np.random.randint(low, high, size)]. *)
Class DataGenerator (R : RandomState) : Type := {
  randn : rng -> nat -> nat -> rng * features;
  randint : rng -> Z -> Z -> nat -> rng * labels
}.

Section Main.
Context {E : Estimator} {R : RandomState} {D : DataGenerator R}.

(** The synthetic dataset of [main]: the process-wide generator is reseeded
    with 42, then asked for 1000 rows of 7 features and 1000 labels in
    [{0, 1}]. *)
Definition main_data : rng * (features * labels) :=
  let g0 := seed_rng 42 in
  let '(g1, X) := randn g0 1000 7 in
  let '(g2, y) := randint g1 0 2 1000 in
  (g2, (X, y)).

(** [main()]: build the predictor, train, select, save under ["models"], print
    the report and return the predictor.  An exception leaves [main] at the
    call that raised it.  The result is the world afterwards, what was
    printed, and the returned predictor or the exception.  (Log lines are not
    part of the model.) *)
Definition main (w : world) : world * list string * result predictor :=
  let '(g, (X, y)) := main_data in
  let predictor := __init__ in
  match train_models g predictor X y with
  | (g', (predictor, Raise e)) =>
      ({| np_random := g'; disk := disk w; recursion_room := recursion_room w |},
       [], Raise e)
  | (g', (predictor, Ok _)) =>
      match get_best_model predictor with
      | Raise e =>
          ({| np_random := g'; disk := disk w; recursion_room := recursion_room w |},
           [], Raise e)
      | Ok (best_name, best_model) =>
          match save_models (recursion_room w) (disk w) predictor "models" with
          | (fs, Raise e) =>
              ({| np_random := g'; disk := fs; recursion_room := recursion_room w |},
               [], Raise e)
          | (fs, Ok _) =>
              ({| np_random := g'; disk := fs; recursion_room := recursion_room w |},
               [generate_report predictor], Ok predictor)
          end
      end
  end.
End Main.

(** A data source for running [main]: row [i] holds [i] in every column and
    the labels cycle through the range. *)
Definition cycling_data : DataGenerator fixed_rng :=
  {| randn := fun g rows columns =>
       (g, map (fun i => repeat (inject_Z (Z.of_nat i)) columns) (seq 0 rows));
     randint := fun g low high size =>
       (g, map (fun i => (low + Z.of_nat i mod (high - low))%Z) (seq 0 size)) |}.

(** ** The class [MolecularDataProcessor] (02-data-preprocessing.py) *)

(** What the class uses of RDKit: parsing a SMILES string, which answers
    [None] for a string that is no molecule, and seven descriptors of a parsed
    molecule, three of them real-valued and four of them counts. *)
Class RDKit : Type := {
  mol : Type;
  MolFromSmiles : string -> option mol;
  MolWt : mol -> Q;
  MolLogP : mol -> Q;
  NumHDonors : mol -> Z;
  NumHAcceptors : mol -> Z;
  TPSA : mol -> Q;
  NumRotatableBonds : mol -> Z;
  NumAromaticRings : mol -> Z
}.

(** [enumerate(l)] *)
Definition enumerate {A : Type} (l : list A) : list (nat * A) :=
  combine (seq 0 (length l)) l.

Section Processor.
Context {K : RDKit}.

Definition descriptor_names : list string :=
  ["MolWt"; "LogP"; "NumHDonors"; "NumHAcceptors";
   "TPSA"; "NumRotatableBonds"; "NumAromaticRings"].

(** [validate_smiles(self, smiles_list)]: the two result lists grow together,
    by one entry for each string that parses. *)
Definition validate_smiles (smiles_list : list string) : list string * list nat :=
  fold_left
    (fun acc item =>
       let '(valid_smiles, valid_indices) := acc in
       let '(i, smiles) := item in
       match MolFromSmiles smiles with
       | Some _ => (valid_smiles ++ [smiles], valid_indices ++ [i])
       | None => (valid_smiles, valid_indices)
       end)
    (enumerate smiles_list) ([], []).

(** [calculate_descriptors(self, smiles_list)]: one row of seven numbers for
    each string that parses (the counts become floats in the array); a string
    that does not parse is skipped without a row. *)
Definition calculate_descriptors (smiles_list : list string) : list (list Q) :=
  fold_left
    (fun descriptors smiles =>
       match MolFromSmiles smiles with
       | Some mol =>
           descriptors
           ++ [[MolWt mol; MolLogP mol; inject_Z (NumHDonors mol);
                inject_Z (NumHAcceptors mol); TPSA mol;
                inject_Z (NumRotatableBonds mol);
                inject_Z (NumAromaticRings mol)]]
       | None => descriptors
       end)
    smiles_list [].

(** [Chem.MolFromSmiles(smiles) is not None] *)
Definition parses (smiles : string) : bool :=
  match MolFromSmiles smiles with
  | Some _ => true
  | None => false
  end.
End Processor.

(** ** Predicates used in the statements *)

(** The share of class [c] in [part] is the share it has in [whole], up to
    one sample of [part]:
    |count(part)/|part| - count(whole)/|whole|| <= 1/|part|,
    written without division. *)
Definition within_one_sample (part whole : labels) (c : Z) : Prop :=
  class_count c part * length whole
  <= class_count c whole * length part + length whole
  /\ class_count c whole * length part
     <= class_count c part * length whole + length whole.

(** Text of a report, block by block: the header, then for each report a
    block that opens with an empty line and the upper-cased identifier. *)
Definition newline : string := String "010" "".

Definition flatten (l : list string) : string := fold_right String.append "" l.

Definition report_header : string :=
  "Model Performance Report" +:+ newline +:+ repeat_string "=" 50.

Definition block_text (item : string * scores) : string :=
  newline +:+ newline +:+ upper (fst item) +:+ ":" +:+ newline
  +:+ "  Accuracy:  " +:+ format_3f (accuracy (snd item)) +:+ newline
  +:+ "  Precision: " +:+ format_3f (Fin (precision (snd item))) +:+ newline
  +:+ "  Recall:    " +:+ format_3f (Fin (recall (snd item))) +:+ newline
  +:+ "  F1 Score:  " +:+ format_3f (Fin (f1 (snd item))) +:+ newline
  +:+ "  CV Score:  " +:+ format_3f (cv_mean (snd item)) +:+ " ± "
  +:+ format_3f (cv_std (snd item)).

(** [needle in hay] *)
Definition contains (needle hay : string) : bool :=
  match String.index 0 needle hay with
  | Some _ => true
  | None => false
  end.

Definition is_digit (c : ascii) : Prop :=
  48 <= nat_of_ascii c <= 57.

(** The recorded models are the first [k] entries of the registry, for some
    [k]: same identifiers, same estimator objects, same order. *)
Definition registry_prefix {E : Estimator} (p : predictor) : Prop :=
  exists k, trained_models p = take k (models p)
            /\ keys (model_scores p) = take k (keys (models p)).

(** A recorded report is in range when its accuracy is a number of [0,1], not
    the not-a-number value, and its precision, recall and F1 lie in [0,1]. *)
Definition report_in_range (s : scores) : Prop :=
  exists a, accuracy s = Fin a
            /\ (0 <= a /\ a <= 1)%Q
            /\ (0 <= precision s /\ precision s <= 1)%Q
            /\ (0 <= recall s /\ recall s <= 1)%Q
            /\ (0 <= f1 s /\ f1 s <= 1)%Q.

(** The text of a number of [0,1] with three decimals: ["1.000"], or ["0."]
    and three digits. *)
Definition unit_interval_text (s : string) : Prop :=
  s = "1.000"
  \/ exists d1 d2 d3,
       (0 <= d1 < 10)%Z /\ (0 <= d2 < 10)%Z /\ (0 <= d3 < 10)%Z
       /\ s = String "0" (String "." (String (digit d1) (String (digit d2)
                (String (digit d3) "")))).

(** Shapes of path names and relations between two states of the disk. *)

(** A string without a slash: one name, or none. *)
Fixpoint slash_free (s : string) : bool :=
  match s with
  | EmptyString => true
  | String c rest => negb (is_slash c) && slash_free rest
  end.

Fixpoint all_slash (s : string) : bool :=
  match s with
  | EmptyString => true
  | String c rest => is_slash c && all_slash rest
  end.

(** [fs'] has every directory of [fs], and the same working directory. *)
Definition dirs_kept (fs fs' : filesystem) : Prop :=
  cwd fs' = cwd fs
  /\ forall loc, node_at fs loc = Some Dir -> node_at fs' loc = Some Dir.

(** [fs'] is [fs] with some directories added and nothing else changed. *)
Definition grown (fs fs' : filesystem) : Prop :=
  cwd fs' = cwd fs
  /\ forall loc, tree fs' !! loc = tree fs !! loc
                 \/ (tree fs !! loc = None /\ tree fs' !! loc = Some Dir).

(** The directory a path leads to, every name of it taken as a directory. *)
Definition leads_to (fs : filesystem) (path : string) (d : list string) : Prop :=
  walk fs path (if absolute path then [] else cwd fs) (names path) = Ok d.

(** The file name of an artifact, and its location in the directory at [d]. *)
Definition artifact_file (name : string) : string := name +:+ "_model.pkl".

Definition artifact_loc (d : list string) (name : string) : list string :=
  d ++ [artifact_file name].

(** ** Part II: properties *)

(** *** Dictionaries *)

Section DictFacts.
Context {V : Type}.
Implicit Types (d : dict V) (k : string) (v : V).

Lemma elem_of_keys k v d : (k, v) ∈ d -> k ∈ keys d.
Proof. intros H. apply (list_elem_of_fmap_2 fst) in H. exact H. Qed.

Lemma keys_lookup k v d j : d !! j = Some (k, v) -> keys d !! j = Some k.
Proof. intros H. apply list_lookup_fmap_Some. now exists (k, v). Qed.

Lemma keys_dict_set_in k v d :
  k ∈ keys d -> keys (dict_set k v d) = keys d.
Proof.
  induction d as [|[k' v'] d IH]; simpl.
  - intros H. inversion H.
  - intros Hin. destruct (String.eqb_spec k' k) as [->|Hne]; simpl; [reflexivity|].
    f_equal. apply IH. apply elem_of_cons in Hin as [Heq|Hin]; congruence.
Qed.

Lemma dict_set_fresh k v d :
  k ∉ keys d -> dict_set k v d = d ++ [(k, v)].
Proof.
  induction d as [|[k' v'] d IH]; simpl; [reflexivity|].
  intros Hnin. apply not_elem_of_cons in Hnin as [Hne Hnin].
  destruct (String.eqb_spec k' k) as [->|_]; [congruence|].
  f_equal. now apply IH.
Qed.

Lemma dict_set_same k v d :
  NoDup (keys d) -> (k, v) ∈ d -> dict_set k v d = d.
Proof.
  induction d as [|[k' v'] d IH]; simpl.
  - intros _ H. inversion H.
  - intros Hnd Hin. apply NoDup_cons in Hnd as [Hnin Hnd].
    apply elem_of_cons in Hin as [Heq|Hin].
    + injection Heq as <- <-. now rewrite String.eqb_refl.
    + destruct (String.eqb_spec k' k) as [->|Hne].
      * exfalso. apply Hnin. eapply elem_of_keys, Hin.
      * f_equal. now apply IH.
Qed.

Lemma dict_get_in k v d :
  NoDup (keys d) -> (k, v) ∈ d -> dict_get k d = Some v.
Proof.
  induction d as [|[k' v'] d IH]; simpl.
  - intros _ H. inversion H.
  - intros Hnd Hin. apply NoDup_cons in Hnd as [Hnin Hnd].
    apply elem_of_cons in Hin as [Heq|Hin].
    + injection Heq as <- <-. now rewrite String.eqb_refl.
    + destruct (String.eqb_spec k' k) as [->|Hne].
      * exfalso. apply Hnin. eapply elem_of_keys, Hin.
      * now apply IH.
Qed.
End DictFacts.

Lemma keys_dict_set_congr {V W : Type} (k : string) (v : V) (w : W)
      (d1 : dict V) (d2 : dict W) :
  keys d1 = keys d2 -> keys (dict_set k v d1) = keys (dict_set k w d2).
Proof.
  revert d2. induction d1 as [|[k1 v1] d1 IH]; intros [|[k2 v2] d2]; simpl;
    try discriminate; [reflexivity|].
  intros Heq. injection Heq as -> Heq.
  destruct (String.eqb k2 k); simpl; f_equal; [assumption|now apply IH].
Qed.

(** *** The training loop *)

Section TrainingFacts.
Context {E : Estimator} {R : RandomState}.
Implicit Types (p : predictor) (sp : split).

(** One turn either records the model in both dictionaries or raises and
    records nothing; the estimator object is mutated either way. *)
Lemma train_one_cases sp p name r :
  (exists m s, train_one sp p name r = (store_results (set_heap p r m) name r s, Ok tt))
  \/ (exists m e, train_one sp p name r = (set_heap p r m, Raise e)).
Proof.
  unfold train_one. destruct (fit _ _ _) as [m [e|]].
  - right. now exists m, e.
  - match goal with |- context [match ?o with Ok _ => _ | Raise _ => _ end] =>
      destruct o as [s|e] end.
    + left. now exists m, s.
    + right. now exists m, e.
Qed.

Lemma train_one_fit_raises sp p name r m e :
  fit (heap p r) (X_train sp) (y_train sp) = (m, Some e) ->
  train_one sp p name r = (set_heap p r m, Raise e).
Proof. intros H. unfold train_one. now rewrite H. Qed.

Lemma train_loop_app sp items1 items2 p :
  train_loop sp (items1 ++ items2) p =
  match train_loop sp items1 p with
  | (p', Ok _) => train_loop sp items2 p'
  | (p', Raise e) => (p', Raise e)
  end.
Proof.
  revert p. induction items1 as [|[name r] items1 IH]; intros p; simpl; [reflexivity|].
  destruct (train_one sp p name r) as [p' [[]|e]]; [apply IH|reflexivity].
Qed.

Lemma train_loop_models sp items p : models (fst (train_loop sp items p)) = models p.
Proof.
  revert p. induction items as [|[name r] items IH]; intros p; simpl; [reflexivity|].
  destruct (train_one_cases sp p name r) as [(m & s & ->)|(m & e & ->)]; simpl.
  - now rewrite IH.
  - reflexivity.
Qed.

(** The two result dictionaries keep the same keys in the same order. *)
Lemma train_loop_same_keys sp items p :
  keys (trained_models p) = keys (model_scores p) ->
  keys (trained_models (fst (train_loop sp items p)))
  = keys (model_scores (fst (train_loop sp items p))).
Proof.
  revert p. induction items as [|[name r] items IH]; intros p Hp; simpl; [assumption|].
  destruct (train_one_cases sp p name r) as [(m & s & ->)|(m & e & ->)]; simpl.
  - apply IH. simpl. now apply keys_dict_set_congr.
  - assumption.
Qed.

Lemma train_models_same_keys g p X y :
  keys (trained_models p) = keys (model_scores p) ->
  keys (trained_models (fst (snd (train_models g p X y))))
  = keys (model_scores (fst (snd (train_models g p X y)))).
Proof.
  intros Hp. unfold train_models.
  destruct (train_test_split g X y (1 # 5) (Some 42%Z)) as [g' [sp|e]]; simpl.
  - now apply train_loop_same_keys.
  - assumption.
Qed.

Lemma step_same_keys c (w : world) p :
  keys (trained_models p) = keys (model_scores p) ->
  keys (trained_models (snd (step c (w, p)))) = keys (model_scores (snd (step c (w, p)))).
Proof.
  intros Hp. destruct c as [X y| |out|]; simpl; try assumption.
  - pose proof (train_models_same_keys (np_random w) p X y Hp) as H.
    destruct (train_models (np_random w) p X y) as [g [p' res]]. exact H.
  - destruct (save_models (recursion_room w) (disk w) p out). exact Hp.
Qed.

Lemma run_cons c calls (wp : world * predictor) :
  run (c :: calls) wp = run calls (step c wp).
Proof. reflexivity. Qed.

Lemma run_same_keys calls (w : world) p :
  keys (trained_models p) = keys (model_scores p) ->
  keys (trained_models (snd (run calls (w, p)))) = keys (model_scores (snd (run calls (w, p)))).
Proof.
  revert w p. induction calls as [|c calls IH]; intros w p Hp; [assumption|].
  rewrite run_cons.
  pose proof (step_same_keys c w p Hp) as H.
  destruct (step c (w, p)) as [w' p']. apply IH. exact H.
Qed.
End TrainingFacts.

(** *** Registry order *)

Section RegistryOrder.
Context {E : Estimator} {R : RandomState}.
Implicit Types (p : predictor) (sp : split).

Lemma keys_app {V : Type} (d1 d2 : dict V) : keys (d1 ++ d2) = keys d1 ++ keys d2.
Proof. unfold keys. apply fmap_app. Qed.

Lemma NoDup_keys_take_app {V : Type} (done rest : dict V) j :
  NoDup (keys (done ++ rest)) -> NoDup (keys (done ++ take j rest)).
Proof.
  intros Hnd. rewrite <- take_app_add. unfold keys. rewrite fmap_take.
  eapply sublist_NoDup; [exact Hnd|apply sublist_take].
Qed.

(** Recording the next registry entry keeps the recorded models a prefix of
    the registry: an entry already there is replaced by itself, a new one is
    appended right after the entries that precede it in the registry. *)
Lemma dict_set_next_entry {V : Type} (done rest : dict V) name v j :
  NoDup (keys (done ++ (name, v) :: rest)) ->
  dict_set name v (done ++ take j ((name, v) :: rest))
  = (done ++ [(name, v)]) ++ take (pred j) rest.
Proof.
  intros Hnd. destruct j as [|j]; simpl.
  - rewrite !app_nil_r. apply dict_set_fresh.
    rewrite keys_app in Hnd. apply NoDup_app in Hnd as (_ & Hdisj & _).
    intros Hin. apply (Hdisj name Hin). simpl. left.
  - rewrite <- app_assoc. simpl. apply dict_set_same.
    + apply (NoDup_keys_take_app done ((name, v) :: rest) (S j) Hnd).
    + apply elem_of_app. right. left.
Qed.

Lemma train_loop_prefix sp rest : forall done p j,
  NoDup (keys (done ++ rest)) ->
  models p = done ++ rest ->
  trained_models p = done ++ take j rest ->
  keys (model_scores p) = keys (done ++ take j rest) ->
  registry_prefix (fst (train_loop sp rest p)).
Proof.
  induction rest as [|[name r] rest IH]; intros done p j Hnd Hm Ht Hs.
  - simpl. exists (length done). rewrite Hm, Ht, Hs, take_nil, !app_nil_r.
    unfold keys. rewrite <- fmap_take, take_ge by lia. auto.
  - simpl. destruct (train_one_cases sp p name r) as [(m & s & ->)|(m & e & ->)].
    + apply (IH (done ++ [(name, r)]) _ (pred j)).
      * now rewrite <- app_assoc.
      * simpl. now rewrite <- app_assoc.
      * simpl. rewrite Ht. now apply dict_set_next_entry.
      * simpl. rewrite <- (dict_set_next_entry done rest name r j Hnd), <- Ht.
        apply keys_dict_set_congr. now rewrite Hs, Ht.
    + simpl. exists (length done + j). simpl. rewrite Hm, Ht, Hs.
      unfold keys. rewrite <- fmap_take, take_app_add. auto.
Qed.

Lemma train_models_prefix g p X y :
  NoDup (keys (models p)) -> registry_prefix p ->
  registry_prefix (fst (snd (train_models g p X y))).
Proof.
  intros Hnd [k [Ht Hs]]. unfold train_models.
  destruct (train_test_split g X y (1 # 5) (Some 42%Z)) as [g' [sp|e]]; simpl.
  - apply (train_loop_prefix sp (models p) [] p k); simpl; auto.
    rewrite Hs. unfold keys. now rewrite fmap_take.
  - now exists k.
Qed.

Lemma train_models_models g p X y : models (fst (snd (train_models g p X y))) = models p.
Proof.
  unfold train_models.
  destruct (train_test_split g X y (1 # 5) (Some 42%Z)) as [g' [sp|e]]; simpl;
    [apply train_loop_models|reflexivity].
Qed.

Lemma step_models c (w : world) p : models (snd (step c (w, p))) = models p.
Proof.
  destruct c as [X y| |out|]; simpl; try reflexivity.
  - pose proof (train_models_models (np_random w) p X y) as H.
    destruct (train_models (np_random w) p X y) as [g [p' res]]. exact H.
  - now destruct (save_models (recursion_room w) (disk w) p out).
Qed.

Lemma step_prefix c (w : world) p :
  NoDup (keys (models p)) -> registry_prefix p -> registry_prefix (snd (step c (w, p))).
Proof.
  intros Hnd Hp. destruct c as [X y| |out|]; simpl; try assumption.
  - pose proof (train_models_prefix (np_random w) p X y Hnd Hp) as H.
    destruct (train_models (np_random w) p X y) as [g [p' res]]. exact H.
  - now destruct (save_models (recursion_room w) (disk w) p out).
Qed.

Lemma run_prefix calls (w : world) p :
  NoDup (keys (models p)) -> registry_prefix p ->
  models (snd (run calls (w, p))) = models p /\ registry_prefix (snd (run calls (w, p))).
Proof.
  revert w p. induction calls as [|c calls IH]; intros w p Hnd Hp; [auto|].
  rewrite run_cons.
  pose proof (step_prefix c w p Hnd Hp) as H. pose proof (step_models c w p) as Hm.
  destruct (step c (w, p)) as [w' p']. simpl in H, Hm.
  destruct (IH w' p') as [IH1 IH2]; [now rewrite Hm|assumption|].
  split; [now rewrite IH1|assumption].
Qed.
End RegistryOrder.

(** *** [max] and [get_best_model] *)

Lemma max_from_spec {A : Type} (key : A -> Q) (rest : list A) : forall best,
  exists i,
    (best :: rest) !! i = Some (max_from key best rest)
    /\ (forall j y, (best :: rest) !! j = Some y ->
          (key y <= key (max_from key best rest))%Q)
    /\ (forall j y, (best :: rest) !! j = Some y -> j < i ->
          (key y < key (max_from key best rest))%Q).
Proof.
  induction rest as [|x rest IH]; intros best.
  - exists 0. simpl. split; [reflexivity|]. split.
    + intros [|j] y Hy; simpl in Hy; [injection Hy as <-; apply Qle_refl|discriminate].
    + intros j y _ Hj. lia.
  - simpl. destruct (Qlt_le_dec (key best) (key x)) as [Hlt|Hle].
    + destruct (IH x) as (i & Hi & Hmax & Hfirst).
      exists (S i). split; [exact Hi|]. split.
      * intros [|j] y Hy; simpl in Hy.
        -- injection Hy as <-. apply Qlt_le_weak.
           eapply Qlt_le_trans; [exact Hlt|]. apply (Hmax 0 x). reflexivity.
        -- apply (Hmax j y Hy).
      * intros [|j] y Hy Hj; simpl in Hy.
        -- injection Hy as <-.
           eapply Qlt_le_trans; [exact Hlt|]. apply (Hmax 0 x). reflexivity.
        -- apply (Hfirst j y Hy). lia.
    + destruct (IH best) as (i & Hi & Hmax & Hfirst).
      assert (Hx : (key x <= key (max_from key best rest))%Q).
      { eapply Qle_trans; [exact Hle|]. apply (Hmax 0 best). reflexivity. }
      destruct i as [|i].
      * exists 0. split; [exact Hi|]. split.
        -- intros [|[|j]] y Hy; simpl in Hy.
           ++ injection Hy as <-. apply (Hmax 0 best). reflexivity.
           ++ injection Hy as <-. exact Hx.
           ++ apply (Hmax (S j) y). exact Hy.
        -- intros j y _ Hj. lia.
      * exists (S (S i)). split; [exact Hi|]. split.
        -- intros [|[|j]] y Hy; simpl in Hy.
           ++ injection Hy as <-. apply (Hmax 0 best). reflexivity.
           ++ injection Hy as <-. exact Hx.
           ++ apply (Hmax (S j) y). exact Hy.
        -- intros [|[|j]] y Hy Hj; simpl in Hy.
           ++ injection Hy as <-. apply (Hfirst 0 best); [reflexivity|lia].
           ++ injection Hy as <-. eapply Qle_lt_trans; [exact Hle|].
              apply (Hfirst 0 best); [reflexivity|lia].
           ++ apply (Hfirst (S j) y); [exact Hy|lia].
Qed.

Section Selection.
Context {E : Estimator} {R : RandomState}.
Implicit Types (p : predictor).

Lemma f1_of_report p j name s :
  NoDup (keys (model_scores p)) ->
  model_scores p !! j = Some (name, s) -> f1_of p name = f1 s.
Proof.
  intros Hnd Hj. unfold f1_of.
  rewrite (dict_get_in name s _ Hnd); [reflexivity|].
  apply list_elem_of_lookup. now exists j.
Qed.

(** Selection on a predictor whose reports follow the registry. *)
Lemma get_best_model_prefix p :
  NoDup (keys (models p)) -> registry_prefix p -> model_scores p <> [] ->
  exists i best r s_best,
    get_best_model p = Ok (best, r)
    /\ models p !! i = Some (best, r)
    /\ model_scores p !! i = Some (best, s_best)
    /\ forall j name s, model_scores p !! j = Some (name, s) ->
         (f1 s <= f1 s_best)%Q /\ (j < i -> (f1 s < f1 s_best)%Q).
Proof.
  intros Hnd (k & Ht & Hs) Hne.
  assert (Hnds : NoDup (keys (model_scores p))).
  { rewrite Hs. eapply sublist_NoDup; [exact Hnd|apply sublist_take]. }
  assert (Hndt : NoDup (keys (trained_models p))).
  { rewrite Ht. unfold keys. rewrite fmap_take.
    eapply sublist_NoDup; [exact Hnd|apply sublist_take]. }
  assert (Hms : exists n0 s0 ms, model_scores p = (n0, s0) :: ms).
  { destruct (model_scores p) as [|[n0 s0] ms]; [congruence|]. now exists n0, s0, ms. }
  destruct Hms as (n0 & s0 & ms & Hms).
  destruct (max_from_spec (f1_of p) (keys ms) n0) as (i & Hi & Hmax & Hfirst).
  set (best := max_from (f1_of p) n0 (keys ms)) in *.
  change (n0 :: keys ms) with (keys ((n0, s0) :: ms)) in Hi, Hmax, Hfirst.
  rewrite <- Hms in Hi, Hmax, Hfirst.
  unfold get_best_model.
  replace (py_max (f1_of p) (keys (model_scores p))) with (Ok best)
    by (rewrite Hms; reflexivity).
  simpl bind.
  assert (Hbest : exists s_best, model_scores p !! i = Some (best, s_best)).
  { apply list_lookup_fmap_Some in Hi as ([b s] & Hb & Hl).
    simpl in Hb. subst b. now exists s. }
  destruct Hbest as [s_best Hsb].
  assert (Hreg : exists r, models p !! i = Some (best, r)).
  { rewrite Hs in Hi. apply lookup_take_Some in Hi as [Hi Hik].
    apply list_lookup_fmap_Some in Hi as ([b r] & Hb & Hl).
    simpl in Hb. subst b. now exists r. }
  destruct Hreg as [r Hr].
  assert (Hik : i < k).
  { rewrite Hs in Hi. now apply lookup_take_Some in Hi as [_ Hik]. }
  rewrite (dict_get_in best r _ Hndt).
  2:{ rewrite Ht. apply elem_of_take. now exists i. }
  exists i, best, r, s_best. split; [reflexivity|]. split; [assumption|].
  split; [assumption|]. intros j name s H. split.
  - rewrite <- (f1_of_report p j name s Hnds H), <- (f1_of_report p i best s_best Hnds Hsb).
    apply (Hmax j). eapply keys_lookup, H.
  - intros Hj.
    rewrite <- (f1_of_report p j name s Hnds H), <- (f1_of_report p i best s_best Hnds Hsb).
    apply (Hfirst j); [|exact Hj]. eapply keys_lookup, H.
Qed.
End Selection.

(** *** Claims about orchestration and selection *)

(** C1 (as the code has it).  [train_models] has no handler around [fit]: when
    the fit of a registry entry raises, the exception leaves [train_models]
    unchanged.  The entries before it in the registry keep what was recorded
    for them; the failing entry and the entries after it get no entry in
    [trained_models] or [model_scores], and the later ones are never fitted. *)
Theorem fit_failure_leaves_train_models {E : Estimator} {R : RandomState}
        (g g' : rng) (p p1 : predictor) (X : features) (y : labels) (sp : split)
        (before after : dict ref) (name : string) (r : ref) (m : model) (e : exn) :
  train_test_split g X y (1 # 5) (Some 42%Z) = (g', Ok sp) ->
  models p = before ++ (name, r) :: after ->
  train_loop sp before p = (p1, Ok tt) ->
  fit (heap p1 r) (X_train sp) (y_train sp) = (m, Some e) ->
  train_models g p X y = (g', (set_heap p1 r m, Raise e))
  /\ trained_models (set_heap p1 r m) = trained_models p1
  /\ model_scores (set_heap p1 r m) = model_scores p1.
Proof.
  intros Hsplit Hreg Hbefore Hfit. split; [|split; reflexivity].
  unfold train_models. rewrite Hsplit, Hreg, train_loop_app, Hbefore. simpl.
  now rewrite (train_one_fit_raises sp p1 name r m e Hfit).
Qed.

Lemma fit_failure_leaves_train_models_witness :
  let out := @train_models toy_estimator fixed_rng tt toy_predictor ten_rows ten_labels in
  snd (snd out) = Raise (ValueError "malformed hyperparameter")
  /\ keys (model_scores (fst (snd out))) = ["first"].
Proof.
  pose proof (@fit_failure_leaves_train_models toy_estimator fixed_rng tt tt
    toy_predictor
    (fst (@train_loop toy_estimator ten_split [("first", 0)] toy_predictor))
    ten_rows ten_labels ten_split
    [("first", 0)] [("last", 2)] "faulty" 1 Broken
    (ValueError "malformed hyperparameter")
    eq_refl eq_refl eq_refl eq_refl) as [H _].
  cbv zeta. rewrite H. split; reflexivity.
Defined.

(** C1, refuted as stated: with the second entry's fit raising, the call
    itself raises; no report with a failed status is recorded for that entry,
    and the remaining entry ["last"] is not trained and gets no report. *)
Lemma fit_failure_is_not_isolated :
  let out := @train_models toy_estimator fixed_rng tt toy_predictor ten_rows ten_labels in
  snd (snd out) = Raise (ValueError "malformed hyperparameter")
  /\ dict_get "faulty" (model_scores (fst (snd out))) = None
  /\ dict_get "last" (model_scores (fst (snd out))) = None
  /\ dict_get "last" (trained_models (fst (snd out))) = None.
Proof. vm_compute. repeat split. Qed.

(** C2.  On a predictor obtained from any registry (a dictionary, so with
    distinct identifiers) by any sequence of method calls and holding at least
    one report, [get_best_model] returns the identifier whose report has the
    greatest F1 together with its estimator; every report of an identifier
    registered earlier has a strictly smaller F1, so among equal maxima the
    first registered one is returned.  No report of the code is ever marked
    failed, so every report takes part. *)
Theorem get_best_model_first_maximum {E : Estimator} {R : RandomState}
        (h : ref -> model) (registry : dict ref) (calls : list call) (w : world) :
  NoDup (keys registry) ->
  model_scores (snd (run calls (w, new_predictor h registry))) <> [] ->
  exists i best r s_best,
    get_best_model (snd (run calls (w, new_predictor h registry))) = Ok (best, r)
    /\ registry !! i = Some (best, r)
    /\ model_scores (snd (run calls (w, new_predictor h registry))) !! i
       = Some (best, s_best)
    /\ forall j name s,
         model_scores (snd (run calls (w, new_predictor h registry))) !! j
         = Some (name, s) ->
         (f1 s <= f1 s_best)%Q /\ (j < i -> (f1 s < f1 s_best)%Q).
Proof.
  intros Hnd Hne.
  destruct (run_prefix calls w (new_predictor h registry)) as [Hm Hp].
  - exact Hnd.
  - exists 0. simpl. split; reflexivity.
  - simpl in Hm.
    destruct (get_best_model_prefix _ ltac:(rewrite Hm; exact Hnd) Hp Hne)
      as (i & best & r & s_best & H1 & H2 & H3 & H4).
    rewrite Hm in H2. now exists i, best, r, s_best.
Qed.

Lemma get_best_model_first_maximum_witness :
  exists i r,
    @get_best_model toy_estimator
      (snd (@run toy_estimator fixed_rng [TrainModels ten_rows ten_labels]
              (toy_world, @__init__ toy_estimator)))
    = Ok ("random_forest", r)
    /\ @models toy_estimator (@__init__ toy_estimator) !! i = Some ("random_forest", r).
Proof.
  destruct (@get_best_model_first_maximum toy_estimator fixed_rng
              (@heap toy_estimator (@__init__ toy_estimator))
              (@models toy_estimator (@__init__ toy_estimator))
              [TrainModels ten_rows ten_labels] toy_world)
    as (i & best & r & s_best & Hbest & Hreg & _).
  - apply (bool_decide_unpack _). vm_compute. exact I.
  - vm_compute. discriminate.
  - exists i, r. split; [|revert Hreg]; revert Hbest; vm_compute;
      intros Hbest; injection Hbest as <- <-; auto.
Defined.

(** C3 (as the code has it).  The code records no failed reports, so the only
    collection in which every report is failed is the empty one, the state
    [train_models] leaves when the very first fit raises.  There
    [get_best_model] raises the [ValueError] of [max] on an empty sequence and
    returns nothing. *)
Theorem get_best_model_without_reports {E : Estimator} (p : predictor) :
  model_scores p = [] ->
  get_best_model p = Raise (ValueError "max() arg is an empty sequence").
Proof. intros H. unfold get_best_model. now rewrite H. Qed.

Lemma get_best_model_without_reports_witness :
  @get_best_model toy_estimator (@__init__ toy_estimator)
  = Raise (ValueError "max() arg is an empty sequence").
Proof. apply get_best_model_without_reports. reflexivity. Defined.

(** C3, refuted as stated: when every registry entry fails to fit, the
    exception that [get_best_model] raises afterwards is not a
    [NoViableModelError]. *)
Lemma all_fits_fail_then_ValueError :
  let p := @new_predictor toy_estimator (fun _ => Broken) [("a", 0); ("b", 1)] in
  let p' := fst (snd (@train_models toy_estimator fixed_rng tt p ten_rows ten_labels)) in
  model_scores p' = []
  /\ exists e, get_best_model p' = Raise e /\ exn_class e <> "NoViableModelError".
Proof.
  vm_compute. split; [reflexivity|].
  eexists. split; [reflexivity|]. discriminate.
Qed.

(** *** The report *)

Lemma string_app_assoc (s1 s2 s3 : string) : (s1 +:+ s2) +:+ s3 = s1 +:+ s2 +:+ s3.
Proof.
  induction s1 as [|a s1 IH]; [reflexivity|].
  change (String a ((s1 +:+ s2) +:+ s3) = String a (s1 +:+ s2 +:+ s3)).
  now rewrite IH.
Qed.

Lemma string_app_nil_r (s : string) : s +:+ "" = s.
Proof.
  induction s as [|a s IH]; [reflexivity|].
  change (String a (s +:+ "") = String a s). now rewrite IH.
Qed.

Lemma flatten_app (l1 l2 : list string) : flatten (l1 ++ l2) = flatten l1 +:+ flatten l2.
Proof.
  induction l1 as [|x l1 IH]; [reflexivity|].
  change (x +:+ flatten (l1 ++ l2) = (x +:+ flatten l1) +:+ flatten l2).
  now rewrite IH, string_app_assoc.
Qed.

(** Joining lines puts the separator in front of every line but the first. *)
Lemma join_cons sep (l : list string) : forall x,
  join sep (x :: l) = x +:+ flatten (map (String.append sep) l).
Proof.
  induction l as [|y l IH]; intros x.
  - simpl. now rewrite string_app_nil_r.
  - change (join sep (x :: y :: l)) with (x +:+ sep +:+ join sep (y :: l)).
    rewrite IH.
    change (flatten (map (String.append sep) (y :: l)))
      with ((sep +:+ y) +:+ flatten (map (String.append sep) l)).
    now rewrite string_app_assoc.
Qed.

Lemma flatten_blocks {E : Estimator} (ms : dict scores) :
  flatten (map (String.append newline) (concat (map report_block ms)))
  = flatten (map block_text ms).
Proof.
  induction ms as [|[name s] ms IH]; [reflexivity|].
  cbn [map concat]. rewrite map_app, flatten_app, IH.
  change (flatten (map block_text ((name, s) :: ms)))
    with (block_text (name, s) +:+ flatten (map block_text ms)).
  f_equal.
  unfold block_text, report_block, newline. cbn [fst snd map fold_right flatten].
  rewrite string_app_nil_r, !string_app_assoc. reflexivity.
Qed.

(** Rounding to thousandths is off by at most half a thousandth. *)
Lemma round_half_even_error (x : Q) :
  (Qabs (inject_Z (round_half_even x) - x) <= 1 # 2)%Q.
Proof.
  unfold round_half_even.
  pose proof (Qfloor_le x) as Hlo. pose proof (Qlt_floor x) as Hhi.
  rewrite inject_Z_plus in Hhi. change (inject_Z 1) with 1%Q in Hhi.
  apply Qabs_Qle_condition.
  destruct (x - inject_Z (Qfloor x) ?= 1 # 2)%Q eqn:Hc.
  - apply Qeq_alt in Hc.
    destruct (Z.even (Qfloor x)); rewrite ?inject_Z_plus;
      change (inject_Z 1) with 1%Q; split; lra.
  - apply Qlt_alt in Hc. split; lra.
  - apply Qgt_alt in Hc. rewrite inject_Z_plus. change (inject_Z 1) with 1%Q.
    split; lra.
Qed.

Lemma round_half_even_nonneg (x : Q) : (0 <= x)%Q -> (0 <= round_half_even x)%Z.
Proof.
  intros Hx. unfold round_half_even.
  assert (Hfl : (0 <= Qfloor x)%Z).
  { rewrite <- (Qfloor_Z 0). now apply Qfloor_resp_le. }
  destruct (x - inject_Z (Qfloor x) ?= 1 # 2)%Q; [destruct (Z.even _)|..]; lia.
Qed.

Lemma digit_is_digit (n : Z) : (0 <= n < 10)%Z -> is_digit (digit n).
Proof.
  intros Hn. unfold is_digit, digit.
  rewrite nat_ascii_embedding by lia. lia.
Qed.

(** C9 (as the code has it).  The report is a two-line header followed by
    exactly one block per report, in the order of [model_scores] (registry
    order).  A block is an empty line, the identifier in upper case with a
    colon, then accuracy, precision, recall and F1 and the cross-validation
    mean ± standard deviation, every number with exactly three decimals,
    rounded to the nearest thousandth.  Reports carry no status and no failure
    reason, and none is printed. *)
Theorem generate_report_blocks {E : Estimator} (p : predictor) :
  generate_report p = report_header +:+ flatten (map block_text (model_scores p))
  /\ (forall item, length (report_block item) = 6)
  /\ format_3f NaN = "nan"
  /\ (forall q, exists t,
        (0 <= t)%Z
        /\ (Qabs (inject_Z t - Qabs q * 1000) <= 1 # 2)%Q
        /\ format_3f (Fin q)
           = (if Qlt_le_dec q 0 then "-" else "")
             +:+ decimal (t / 1000) +:+ "."
             +:+ String (digit (t / 100 mod 10))
                   (String (digit (t / 10 mod 10)) (String (digit (t mod 10)) ""))
        /\ is_digit (digit (t / 100 mod 10))
        /\ is_digit (digit (t / 10 mod 10))
        /\ is_digit (digit (t mod 10))).
Proof.
  split; [|split; [|split]].
  - unfold generate_report, report_lines.
    change (["Model Performance Report"; repeat_string "=" 50]
            ++ concat (map report_block (model_scores p)))
      with ("Model Performance Report"
            :: (repeat_string "=" 50 :: concat (map report_block (model_scores p)))).
    rewrite join_cons.
    change (String "010" "") with newline.
    change (map (String.append newline)
              (repeat_string "=" 50 :: concat (map report_block (model_scores p))))
      with ((newline +:+ repeat_string "=" 50)
            :: map (String.append newline) (concat (map report_block (model_scores p)))).
    change (flatten ((newline +:+ repeat_string "=" 50)
              :: map (String.append newline) (concat (map report_block (model_scores p)))))
      with ((newline +:+ repeat_string "=" 50)
            +:+ flatten (map (String.append newline)
                           (concat (map report_block (model_scores p))))).
    rewrite flatten_blocks. unfold report_header.
    now rewrite !string_app_assoc.
  - intros [name s]. reflexivity.
  - reflexivity.
  - intros q. exists (round_half_even (Qabs q * 1000)).
    assert (Hpos : (0 <= round_half_even (Qabs q * 1000))%Z).
    { apply round_half_even_nonneg. apply Qmult_le_0_compat; [apply Qabs_nonneg|].
      discriminate. }
    split; [exact Hpos|]. split; [apply round_half_even_error|].
    split; [reflexivity|].
    repeat split; apply digit_is_digit; apply Z.mod_pos_bound; lia.
Qed.

(** C9, refuted as stated: the block of the report registered as ["svm"] shows
    neither a status nor the identifier as registered; the text reads as
    follows. *)
Lemma report_has_no_status_and_upper_cases :
  generate_report svm_only
  = "Model Performance Report
==================================================

SVM:
  Accuracy:  0.500
  Precision: 0.250
  Recall:    0.500
  F1 Score:  0.333
  CV Score:  0.500 ± 0.000"
  /\ contains "svm" (generate_report svm_only) = false
  /\ contains "status" (generate_report svm_only) = false
  /\ contains "failed" (generate_report svm_only) = false.
Proof. vm_compute. repeat split. Qed.

(** *** The split: classes and validation *)

Lemma elem_of_insert_unique (c x : Z) (l : list Z) :
  x ∈ insert_unique c l <-> x = c \/ x ∈ l.
Proof.
  induction l as [|d l IH]; simpl.
  - rewrite list_elem_of_singleton. split; [auto|]. intros [H|H]; [auto|inversion H].
  - destruct (Z.ltb_spec c d).
    + rewrite elem_of_cons. tauto.
    + destruct (Z.eqb_spec c d) as [->|Hne].
      * rewrite elem_of_cons. tauto.
      * rewrite !elem_of_cons, IH. tauto.
Qed.

Lemma elem_of_np_unique (x : Z) (y : list Z) : x ∈ np_unique y <-> x ∈ y.
Proof.
  induction y as [|c y IH]; simpl; [reflexivity|].
  rewrite elem_of_insert_unique, IH, elem_of_cons. tauto.
Qed.

Lemma fold_left_min_le (r : list nat) : forall x,
  fold_left Nat.min r x <= x /\ (forall z, z ∈ r -> fold_left Nat.min r x <= z).
Proof.
  induction r as [|a r IH]; intros x; simpl.
  - split; [lia|]. intros z Hz. inversion Hz.
  - destruct (IH (Nat.min x a)) as [H1 H2]. split; [lia|].
    intros z Hz. apply elem_of_cons in Hz as [->|Hz]; [lia|auto].
Qed.

Lemma np_min_le (l : list nat) (least z : nat) :
  np_min l = Ok least -> z ∈ l -> least <= z.
Proof.
  destruct l as [|x r]; simpl; [discriminate|]. intros [= <-] Hz.
  destruct (fold_left_min_le r x) as [H1 H2].
  apply elem_of_cons in Hz as [->|Hz]; auto.
Qed.

Lemma Qceiling_pos (x : Q) : (0 < x)%Q -> (0 < Qceiling x)%Z.
Proof.
  intros Hx. pose proof (Qle_ceiling x) as H.
  assert (H0 : (0 < inject_Z (Qceiling x))%Q) by lra.
  rewrite Zlt_Qlt. exact H0.
Qed.

Section SplitFacts.
Context {R : RandomState}.

(** Every way [train_test_split] fails is a [ValueError], and the process-wide
    generator is returned untouched. *)
Lemma stratified_shuffle_split_raises g y n_train n_test e :
  stratified_shuffle_split g y n_train n_test = Raise e ->
  e = ValueError (match e with PyExn _ msg => msg end).
Proof.
  unfold stratified_shuffle_split.
  destruct (np_min _) as [least|e0] eqn:Hmin; simpl.
  - destruct (Nat.ltb least 2); [now intros [= <-]|].
    destruct (Nat.ltb n_train _); [now intros [= <-]|].
    destruct (Nat.ltb n_test _); [now intros [= <-]|].
    destruct (approximate_mode g _ n_train) as [g1 n_i].
    destruct (approximate_mode g1 _ n_test) as [g2 t_i].
    destruct (draw_classes _ _ _ _ _) as [g3 [train test]].
    destruct (rng_permutation g3 train) as [g4 train'].
    destruct (rng_permutation g4 test) as [g5 test']. discriminate.
  - intros [= <-]. destruct (map _ _); simpl in Hmin; [|discriminate].
    now injection Hmin as <-.
Qed.

Lemma stratified_shuffle_split_small_class g y n_train n_test c :
  c ∈ y -> class_count c y < 2 ->
  exists msg, stratified_shuffle_split g y n_train n_test = Raise (ValueError msg).
Proof.
  intros Hc Hcount. unfold stratified_shuffle_split.
  destruct (np_min _) as [least|e0] eqn:Hmin; simpl.
  - assert (Hle : least <= class_count c y).
    { apply (np_min_le _ _ _ Hmin). apply list_elem_of_In, in_map_iff.
      exists c. split; [reflexivity|]. apply list_elem_of_In. now apply elem_of_np_unique. }
    destruct (Nat.ltb_spec least 2); [|lia]. eauto.
  - destruct (map _ _); simpl in Hmin; [|discriminate].
    injection Hmin as <-. eauto.
Qed.

Lemma train_test_split_raises global X y test_size random_state g e :
  train_test_split global X y test_size random_state = (g, Raise e) ->
  g = global /\ exists msg, e = ValueError msg.
Proof.
  unfold train_test_split. destruct (negb _); [intros [= <- <-]; eauto|].
  unfold validate_shuffle_split. destruct (_ || _); [intros [= <- <-]; eauto|].
  destruct (Nat.eqb _ 0); [intros [= <- <-]; eauto|].
  destruct (stratified_shuffle_split _ _ _ _) as [[g' [train test]]|e0] eqn:Hs.
  - destruct random_state; discriminate.
  - intros [= <- <-]. split; [reflexivity|].
    apply stratified_shuffle_split_raises in Hs. eauto.
Qed.

Lemma train_test_split_insufficient global X y test_size random_state :
  (exists c, c ∈ y /\ class_count c y < 2)
  \/ Z.to_nat (Qceiling (test_size * inject_Z (Z.of_nat (length X)))) = 0
  \/ length X - Z.to_nat (Qceiling (test_size * inject_Z (Z.of_nat (length X)))) = 0 ->
  exists msg,
    train_test_split global X y test_size random_state = (global, Raise (ValueError msg)).
Proof.
  intros Hbad. unfold train_test_split. destruct (negb _); [eauto|].
  unfold validate_shuffle_split.
  destruct (Qle_bool test_size 0) eqn:Hlo; [simpl; eauto|].
  destruct (Qle_bool 1 test_size) eqn:Hhi; [simpl; eauto|]. simpl.
  set (n_test := Z.to_nat (Qceiling (test_size * inject_Z (Z.of_nat (length X))))) in *.
  destruct (Nat.eqb_spec (length X - n_test) 0) as [Hz|Hnz]; [eauto|].
  destruct Hbad as [(c & Hc & Hcount)|[Htest|Htrain]]; [| |contradiction].
  - destruct (stratified_shuffle_split_small_class
                (check_random_state random_state global) y
                (length X - n_test) n_test c Hc Hcount) as [msg ->]. eauto.
  - exfalso. assert (Hpos : (0 < test_size)%Q).
    { apply Qnot_le_lt. intros Hle. apply Qle_bool_iff in Hle. congruence. }
    assert (Hn : 0 < length X) by lia.
    assert (Hx : (0 < test_size * inject_Z (Z.of_nat (length X)))%Q).
    { apply Qmult_lt_0_compat; [exact Hpos|].
      change 0%Q with (inject_Z 0). rewrite <- Zlt_Qlt. lia. }
    apply Qceiling_pos in Hx. unfold n_test in Htest. lia.
Qed.
End SplitFacts.

(** Without a seed the split does follow the process-wide generator. *)
Example unseeded_split_depends_on_global_state :
  snd (@train_test_split counter_rng 0 ten_rows ten_labels (1 # 5) None)
  <> snd (@train_test_split counter_rng 1 ten_rows ten_labels (1 # 5) None).
Proof. vm_compute. discriminate. Qed.

(** C5.  The split is a function of its arguments alone: with a seed given,
    whatever state the process-wide numpy generator is in, the same dataset,
    test fraction and seed give the same outcome (the same four arrays, or the
    same exception), and the process-wide generator is left as it was.  So is
    the whole of [train_models], which passes the seed 42. *)
Theorem train_test_split_deterministic {E : Estimator} {R : RandomState}
        (g1 g2 : rng) (X : features) (y : labels) (test_size : Q) (seed : Z)
        (p : predictor) :
  snd (train_test_split g1 X y test_size (Some seed))
  = snd (train_test_split g2 X y test_size (Some seed))
  /\ fst (train_test_split g1 X y test_size (Some seed)) = g1
  /\ snd (train_models g1 p X y) = snd (train_models g2 p X y)
  /\ fst (train_models g1 p X y) = g1.
Proof.
  assert (Hsplit : forall g ts s,
            train_test_split g X y ts (Some s)
            = (g, snd (train_test_split (seed_rng s) X y ts (Some s)))).
  { intros g ts s. unfold train_test_split. destruct (negb _); [reflexivity|].
    destruct (validate_shuffle_split _ _) as [[n_train n_test]|e]; [|reflexivity].
    simpl check_random_state.
    destruct (stratified_shuffle_split _ _ _ _) as [[g' [train test]]|e]; reflexivity. }
  split; [|split; [|split]].
  - now rewrite (Hsplit g1), (Hsplit g2).
  - now rewrite (Hsplit g1).
  - unfold train_models. rewrite (Hsplit g1), (Hsplit g2).
    now destruct (snd (train_test_split (seed_rng 42%Z) X y (1 # 5) (Some 42%Z))).
  - unfold train_models. rewrite (Hsplit g1).
    now destruct (snd (train_test_split (seed_rng 42%Z) X y (1 # 5) (Some 42%Z))).
Qed.

(** C6 (as the code has it).  When some class of the dataset has fewer than
    two members, or the test fraction leaves the train or the test subset
    empty, [train_test_split] raises scikit-learn's [ValueError]; the code
    defines no error of its own, so [train_models] lets this [ValueError]
    through before any model is trained and leaves the predictor as it was. *)
Theorem split_of_insufficient_data_raises_ValueError {E : Estimator} {R : RandomState}
        (g : rng) (p : predictor) (X : features) (y : labels)
        (test_size : Q) (random_state : option Z) :
  (exists c, c ∈ y /\ class_count c y < 2)
  \/ Z.to_nat (Qceiling (test_size * inject_Z (Z.of_nat (length X)))) = 0
  \/ length X - Z.to_nat (Qceiling (test_size * inject_Z (Z.of_nat (length X)))) = 0 ->
  (exists msg,
     train_test_split g X y test_size random_state = (g, Raise (ValueError msg)))
  /\ (test_size = 1 # 5 ->
      exists msg, train_models g p X y = (g, (p, Raise (ValueError msg)))).
Proof.
  intros Hbad. split.
  - now apply train_test_split_insufficient.
  - intros ->. unfold train_models.
    destruct (train_test_split_insufficient g X y (1 # 5) (Some 42%Z) Hbad) as [msg ->].
    eauto.
Qed.

Lemma split_of_insufficient_data_raises_ValueError_witness :
  exists msg,
    @train_models toy_estimator fixed_rng tt toy_predictor lonely_rows lonely_labels
    = (tt, (toy_predictor, Raise (ValueError msg))).
Proof.
  refine (proj2 (@split_of_insufficient_data_raises_ValueError toy_estimator fixed_rng
                   tt toy_predictor lonely_rows lonely_labels (1 # 5) None _) eq_refl).
  left. exists 1%Z. split; [|vm_compute; lia].
  apply (bool_decide_unpack _). vm_compute. exact I.
Defined.

(** C6, refuted as stated: on a dataset with a class of exactly one member the
    exception that comes out of [train_models] is a [ValueError], not an
    [InsufficientDataError]. *)
Lemma lonely_class_raises_ValueError :
  exists e,
    snd (snd (@train_models toy_estimator fixed_rng tt toy_predictor
                lonely_rows lonely_labels)) = Raise e
    /\ exn_class e = "ValueError"
    /\ exn_class e <> "InsufficientDataError".
Proof. vm_compute. eexists. split; [reflexivity|]. split; [reflexivity|discriminate]. Qed.

(** *** The metrics *)

Lemma Zpos_of_nat (b : nat) : b <> 0 -> Zpos (Pos.of_nat b) = Z.of_nat b.
Proof.
  intros Hb. rewrite <- positive_nat_Z, Nat2Pos.id by exact Hb. reflexivity.
Qed.

Lemma ratio_bounds (a b : nat) : a <= b -> (0 <= ratio a b /\ ratio a b <= 1)%Q.
Proof.
  intros Hab. unfold ratio. destruct (Nat.eqb_spec b 0) as [->|Hb].
  - split; discriminate.
  - unfold Qle. simpl. rewrite Zpos_of_nat by exact Hb. lia.
Qed.

Lemma ratio_one (a b : nat) : b <> 0 -> (ratio a b == 1)%Q <-> a = b.
Proof.
  intros Hb. unfold ratio. destruct (Nat.eqb_spec b 0) as [->|_]; [contradiction|].
  unfold Qeq. simpl. rewrite Zpos_of_nat by exact Hb. lia.
Qed.

Lemma sum_Q_weighted_bounds (support : list nat) : forall score : list Q,
  Forall (fun s => 0 <= s /\ s <= 1)%Q score ->
  (0 <= sum_Q (map (fun p => inject_Z (Z.of_nat (fst p)) * snd p) (combine support score))
   /\ sum_Q (map (fun p => inject_Z (Z.of_nat (fst p)) * snd p) (combine support score))
      <= inject_Z (Z.of_nat (sum_nat support)))%Q.
Proof.
  induction support as [|w support IH]; intros score Hs; simpl.
  - split; [apply Qle_refl|discriminate].
  - destruct score as [|s score]; simpl.
    + split; [apply Qle_refl|].
      change 0%Q with (inject_Z 0). rewrite <- Zle_Qle. lia.
    + apply Forall_cons in Hs as [[Hs0 Hs1] Hs].
      destruct (IH score Hs) as [IH0 IH1].
      assert (Hw : (0 <= inject_Z (Z.of_nat w))%Q).
      { change 0%Q with (inject_Z 0). rewrite <- Zle_Qle. lia. }
      assert (Hws0 : (0 <= inject_Z (Z.of_nat w) * s)%Q)
        by now apply Qmult_le_0_compat.
      assert (Hws1 : (inject_Z (Z.of_nat w) * s <= inject_Z (Z.of_nat w))%Q).
      { rewrite <- (Qmult_1_r (inject_Z (Z.of_nat w))) at 2.
        rewrite (Qmult_comm _ s), (Qmult_comm _ 1).
        now apply Qmult_le_compat_r. }
      rewrite Nat2Z.inj_add, inject_Z_plus.
      revert IH0 IH1 Hws0 Hws1.
      generalize (inject_Z (Z.of_nat w) * s)%Q.
      generalize (inject_Z (Z.of_nat w)) (inject_Z (Z.of_nat (sum_nat support)))
                 (sum_Q (map (fun p => inject_Z (Z.of_nat (fst p)) * snd p)
                             (combine support score)))%Q.
      intros b c d a. split; lra.
Qed.

Lemma weighted_average_bounds (support : list nat) (score : list Q) :
  Forall (fun s => 0 <= s /\ s <= 1)%Q score ->
  (0 <= weighted_average support score /\ weighted_average support score <= 1)%Q.
Proof.
  intros Hs. unfold weighted_average.
  destruct (Nat.eqb_spec (sum_nat support) 0) as [Hz|Hnz].
  - split; discriminate.
  - destruct (sum_Q_weighted_bounds support score Hs) as [H0 H1].
    assert (Hpos : (0 < inject_Z (Z.of_nat (sum_nat support)))%Q).
    { change 0%Q with (inject_Z 0). rewrite <- Zlt_Qlt. lia. }
    split.
    + apply Qle_shift_div_l; [exact Hpos|]. lra.
    + apply Qle_shift_div_r; [exact Hpos|]. lra.
Qed.

(** The counts behind the per-class scores. *)
Lemma tp_sum_le_pred_sum (c : Z) : forall y_true y_pred : labels,
  tp_sum c y_true y_pred <= pred_sum c y_pred.
Proof.
  unfold tp_sum, pred_sum, class_count.
  induction y_true as [|t y_true IH]; intros [|q y_pred]; simpl; try lia.
  specialize (IH y_pred).
  destruct (t =? c)%Z, (q =? c)%Z; simpl; lia.
Qed.

Lemma tp_sum_le_true_sum (c : Z) : forall y_true y_pred : labels,
  tp_sum c y_true y_pred <= true_sum c y_true.
Proof.
  unfold tp_sum, true_sum, class_count.
  induction y_true as [|t y_true IH]; intros [|q y_pred]; simpl; try lia.
  specialize (IH y_pred).
  destruct (t =? c)%Z, (q =? c)%Z; simpl; lia.
Qed.

Lemma matches_le (y_true : labels) : forall y_pred, matches y_true y_pred <= length y_true.
Proof.
  unfold matches. induction y_true as [|t y_true IH]; intros [|q y_pred]; simpl; try lia.
  specialize (IH y_pred). destruct (t =? q)%Z; simpl; lia.
Qed.

Lemma matches_all (y_true : labels) : forall y_pred,
  length y_true = length y_pred ->
  matches y_true y_pred = length y_true <-> y_pred = y_true.
Proof.
  unfold matches. induction y_true as [|t y_true IH]; intros [|q y_pred] Hlen;
    simpl in *; try discriminate; [tauto|].
  injection Hlen as Hlen. specialize (IH y_pred Hlen).
  pose proof (matches_le y_true y_pred) as Hle. unfold matches in Hle.
  destruct (Z.eqb_spec t q) as [->|Hne]; simpl.
  - split.
    + intros H. f_equal. apply IH. lia.
    + intros [= H]. f_equal. now apply IH.
  - split; [lia|]. intros [= H _]. congruence.
Qed.

Lemma check_targets_ok (y_true y_pred : labels) :
  y_true <> [] -> length y_true = length y_pred ->
  check_targets y_true y_pred = Ok tt.
Proof.
  intros Hne Hlen. unfold check_targets. rewrite <- Hlen, Nat.eqb_refl. simpl.
  destruct (Nat.eqb_spec (length y_true) 0) as [Hz|]; [|reflexivity].
  destruct y_true; [congruence|discriminate].
Qed.

Lemma check_targets_inv (y_true y_pred : labels) :
  check_targets y_true y_pred = Ok tt ->
  y_true <> [] /\ length y_true = length y_pred.
Proof.
  unfold check_targets.
  destruct (Nat.eqb_spec (length y_true) (length y_pred)) as [Hlen|]; [|discriminate].
  simpl. destruct (Nat.eqb_spec (length y_true) 0) as [|Hn]; [discriminate|].
  intros _. split; [|exact Hlen]. intros ->. now apply Hn.
Qed.

Lemma weighted_score_bounds per_class (y_true y_pred : labels) :
  (forall c, 0 <= per_class y_true y_pred c /\ per_class y_true y_pred c <= 1)%Q ->
  y_true <> [] ->
  length y_true = length y_pred ->
  exists v, weighted_score per_class y_true y_pred = Ok v /\ (0 <= v /\ v <= 1)%Q.
Proof.
  intros Hclass Hne Hlen. unfold weighted_score.
  rewrite (check_targets_ok _ _ Hne Hlen). simpl. eexists. split; [reflexivity|].
  apply weighted_average_bounds. apply Forall_forall. intros s Hs.
  apply list_elem_of_In, in_map_iff in Hs as (c & <- & _). apply Hclass.
Qed.

Lemma accuracy_score_value (y_true y_pred : labels) :
  y_true <> [] -> length y_true = length y_pred ->
  accuracy_score y_true y_pred
  = Ok (Fin (ratio (matches y_true y_pred) (length y_true))).
Proof.
  intros Hne Hlen. unfold accuracy_score. now rewrite (check_targets_ok _ _ Hne Hlen).
Qed.

(** The four metrics of a non-empty test set and as many predictions. *)
Lemma metrics_bounded (y_true y_pred : labels) :
  y_true <> [] ->
  length y_true = length y_pred ->
  exists a p r f,
    accuracy_score y_true y_pred = Ok (Fin a)
    /\ precision_score_weighted y_true y_pred = Ok p
    /\ recall_score_weighted y_true y_pred = Ok r
    /\ f1_score_weighted y_true y_pred = Ok f
    /\ (0 <= a /\ a <= 1)%Q /\ (0 <= p /\ p <= 1)%Q
    /\ (0 <= r /\ r <= 1)%Q /\ (0 <= f /\ f <= 1)%Q
    /\ ((a == 1)%Q <-> y_pred = y_true).
Proof.
  intros Hne Hlen.
  assert (Hn : length y_true <> 0) by (destruct y_true; [congruence|discriminate]).
  destruct (weighted_score_bounds class_precision y_true y_pred) as (p & Hp & Hpb);
    [|exact Hne|exact Hlen|].
  { intros c. apply ratio_bounds, tp_sum_le_pred_sum. }
  destruct (weighted_score_bounds class_recall y_true y_pred) as (r & Hr & Hrb);
    [|exact Hne|exact Hlen|].
  { intros c. apply ratio_bounds, tp_sum_le_true_sum. }
  destruct (weighted_score_bounds class_f1 y_true y_pred) as (f & Hf & Hfb);
    [|exact Hne|exact Hlen|].
  { intros c. apply ratio_bounds.
    pose proof (tp_sum_le_pred_sum c y_true y_pred).
    pose proof (tp_sum_le_true_sum c y_true y_pred). lia. }
  exists (ratio (matches y_true y_pred) (length y_true)), p, r, f.
  split; [now apply accuracy_score_value|].
  repeat (split; [assumption|]).
  split; [apply ratio_bounds, matches_le|]. split; [exact Hpb|].
  split; [exact Hrb|]. split; [exact Hfb|].
  rewrite (ratio_one _ _ Hn). now apply matches_all.
Qed.

(** *** The stratified split, class by class *)


(** *** Counting by value *)

Lemma sum_nat_app (l1 l2 : list nat) : sum_nat (l1 ++ l2) = sum_nat l1 + sum_nat l2.
Proof. induction l1 as [|x l1 IH]; simpl; [reflexivity|]. rewrite IH. lia. Qed.

Lemma sum_nat_map_add {A : Type} (f g : A -> nat) (l : list A) :
  sum_nat (map (fun v => f v + g v) l) = sum_nat (map f l) + sum_nat (map g l).
Proof. induction l as [|x l IH]; simpl; [reflexivity|]. rewrite IH. lia. Qed.

Lemma sum_nat_map_ext {A : Type} (f g : A -> nat) (l : list A) :
  (forall x, f x = g x) -> sum_nat (map f l) = sum_nat (map g l).
Proof. intros H. induction l as [|x l IH]; simpl; [reflexivity|]. now rewrite H, IH. Qed.

Lemma sum_nat_map_zero {A : Type} (l : list A) : sum_nat (map (fun _ => 0) l) = 0.
Proof. induction l; simpl; auto. Qed.

(** Among distinct values exactly one equals a given member. *)
Lemma sum_indicator {A : Type} (eqb : A -> A -> bool) (x : A) (vals : list A) :
  (forall a b, eqb a b = true <-> a = b) ->
  NoDup vals -> x ∈ vals ->
  sum_nat (map (fun v => if eqb x v then 1 else 0) vals) = 1.
Proof.
  intros Heqb Hnd Hin.
  assert (Hzero : forall l, x ∉ l ->
            sum_nat (map (fun v => if eqb x v then 1 else 0) l) = 0).
  { induction l as [|v l IH]; simpl; [reflexivity|]. intros Hnin.
    apply not_elem_of_cons in Hnin as [Hne Hnin]. rewrite (IH Hnin).
    destruct (eqb x v) eqn:He; [|reflexivity]. apply Heqb in He. contradiction. }
  induction vals as [|v vals IH]; [inversion Hin|]. simpl.
  apply NoDup_cons in Hnd as [Hfresh Hnd].
  destruct (eqb x v) eqn:He.
  - apply Heqb in He. subst v. now rewrite Hzero.
  - apply elem_of_cons in Hin as [->|Hin].
    + assert (eqb v v = true) by now apply Heqb. congruence.
    + now rewrite IH.
Qed.

Lemma class_count_cons (c l : Z) (y : labels) :
  class_count c (l :: y) = (if (l =? c)%Z then 1 else 0) + class_count c y.
Proof. unfold class_count. simpl. now destruct (l =? c)%Z. Qed.

(** The class counts add up to the number of samples. *)
Lemma sum_class_counts (vals : list Z) (y : labels) :
  NoDup vals -> (forall x, x ∈ y -> x ∈ vals) ->
  sum_nat (map (fun c => class_count c y) vals) = length y.
Proof.
  intros Hnd. induction y as [|l y IH]; intros Hcover.
  - simpl. apply sum_nat_map_zero.
  - rewrite (sum_nat_map_ext _ _ _ (fun c => class_count_cons c l y)).
    rewrite sum_nat_map_add, IH.
    + rewrite (sum_indicator Z.eqb l vals); [reflexivity|apply Z.eqb_eq|exact Hnd|].
      apply Hcover. left.
    + intros x Hx. apply Hcover. now right.
Qed.

Lemma length_where_from (v : nat) (l : list nat) : forall a b,
  length (where_from a v l) = length (where_from b v l).
Proof.
  induction l as [|x l IH]; intros a b; simpl; [reflexivity|].
  destruct (Nat.eqb x v); simpl; [f_equal|]; apply IH.
Qed.

Lemma sum_where_counts (vals rem : list nat) :
  NoDup vals -> (forall x, x ∈ rem -> x ∈ vals) ->
  sum_nat (map (fun v => length (np_where v rem)) vals) = length rem.
Proof.
  intros Hnd. unfold np_where. induction rem as [|x rem IH]; intros Hcover.
  - simpl. apply sum_nat_map_zero.
  - rewrite (sum_nat_map_ext _
               (fun v => (if Nat.eqb x v then 1 else 0) + length (where_from 0 v rem))).
    + rewrite sum_nat_map_add, IH.
      * rewrite (sum_indicator Nat.eqb x vals); [reflexivity|apply Nat.eqb_eq|exact Hnd|].
        apply Hcover. left.
      * intros z Hz. apply Hcover. now right.
    + intros v. simpl. destruct (Nat.eqb x v); simpl;
        now rewrite (length_where_from v rem 1 0).
Qed.

(** *** Distinct values *)

Lemma insert_unique_sorted (c : Z) (l : list Z) :
  StronglySorted Z.lt l -> StronglySorted Z.lt (insert_unique c l).
Proof.
  induction l as [|d l IH]; simpl; intros Hs.
  - repeat constructor.
  - apply StronglySorted_inv in Hs as [Hs Hd].
    destruct (Z.ltb_spec c d).
    + constructor; [now constructor|]. constructor; [assumption|].
      eapply Forall_impl; [exact Hd|]. simpl. intros. lia.
    + destruct (Z.eqb_spec c d); [now constructor|].
      constructor; [now apply IH|].
      apply Forall_forall. intros x Hx.
      apply elem_of_insert_unique in Hx as [->|Hx]; [lia|].
      rewrite Forall_forall in Hd. now apply Hd.
Qed.

Lemma np_unique_sorted (y : list Z) : StronglySorted Z.lt (np_unique y).
Proof. induction y; simpl; [constructor|now apply insert_unique_sorted]. Qed.

Lemma NoDup_np_unique (y : list Z) : NoDup (np_unique y).
Proof.
  pose proof (np_unique_sorted y) as Hs. induction Hs as [|x l Hs IH Hx].
  - constructor.
  - constructor; [|assumption]. intros Hin.
    rewrite Forall_forall in Hx. specialize (Hx x Hin). lia.
Qed.

Lemma elem_of_unique_nat (v : nat) (l : list nat) : v ∈ unique_nat l <-> v ∈ l.
Proof.
  unfold unique_nat. split.
  - intros H. apply list_elem_of_In, in_map_iff in H as (z & <- & Hz).
    apply list_elem_of_In, elem_of_np_unique, list_elem_of_In, in_map_iff in Hz
      as (n & <- & Hn).
    rewrite Nat2Z.id. now apply list_elem_of_In.
  - intros H. apply list_elem_of_In, in_map_iff. exists (Z.of_nat v).
    split; [apply Nat2Z.id|]. apply list_elem_of_In, elem_of_np_unique.
    apply list_elem_of_In, in_map. now apply list_elem_of_In.
Qed.

Lemma NoDup_unique_nat (l : list nat) : NoDup (unique_nat l).
Proof.
  unfold unique_nat. apply (NoDup_fmap_2_strong Z.to_nat); [|apply NoDup_np_unique].
  intros a b Ha Hb Hab.
  apply elem_of_np_unique, list_elem_of_In, in_map_iff in Ha as (n & <- & _).
  apply elem_of_np_unique, list_elem_of_In, in_map_iff in Hb as (m & <- & _).
  rewrite !Nat2Z.id in Hab. now subst.
Qed.


(** *** Incrementing selected positions *)

Lemma existsb_eqb_elem_of (j : nat) (inds : list nat) :
  existsb (Nat.eqb j) inds = true <-> j ∈ inds.
Proof.
  rewrite existsb_exists. split.
  - intros (x & Hx & He). apply Nat.eqb_eq in He. subst. now apply list_elem_of_In.
  - intros H. exists j. split; [now apply list_elem_of_In|apply Nat.eqb_refl].
Qed.

Lemma length_increment_from (inds l : list nat) : forall i,
  length (increment_from i inds l) = length l.
Proof. induction l as [|x l IH]; intros i; simpl; [reflexivity|]. now rewrite IH. Qed.

Lemma lookup_increment_from (inds l : list nat) : forall i j,
  increment_from i inds l !! j
  = (fun x => if existsb (Nat.eqb (i + j)) inds then S x else x) <$> l !! j.
Proof.
  induction l as [|x l IH]; intros i j; simpl; [reflexivity|].
  destruct j as [|j]; simpl.
  - now rewrite Nat.add_0_r.
  - rewrite IH. now replace (S i + j) with (i + S j) by lia.
Qed.

Lemma sum_increment_from (inds l : list nat) : forall i,
  sum_nat (increment_from i inds l)
  = sum_nat l + length (List.filter (fun j => existsb (Nat.eqb j) inds) (seq i (length l))).
Proof.
  induction l as [|x l IH]; intros i; simpl; [reflexivity|].
  rewrite IH. destruct (existsb (Nat.eqb i) inds); simpl; lia.
Qed.

Lemma count_selected (inds : list nat) (a n : nat) :
  NoDup inds -> (forall x, x ∈ inds -> a <= x < a + n) ->
  length (List.filter (fun j => existsb (Nat.eqb j) inds) (seq a n)) = length inds.
Proof.
  intros Hnd Hrange. apply Permutation_length, NoDup_Permutation.
  - apply NoDup_ListNoDup, List.NoDup_filter, NoDup_ListNoDup, NoDup_seq.
  - exact Hnd.
  - intros x. rewrite list_elem_of_In, filter_In, existsb_eqb_elem_of, in_seq. split.
    + tauto.
    + intros Hx. split; [|exact Hx]. apply Hrange in Hx. lia.
Qed.

Lemma sum_increment_at (inds l : list nat) :
  NoDup inds -> (forall x, x ∈ inds -> x < length l) ->
  sum_nat (increment_at inds l) = sum_nat l + length inds.
Proof.
  intros Hnd Hrange. unfold increment_at.
  rewrite sum_increment_from, count_selected; [reflexivity|exact Hnd|].
  intros x Hx. apply Hrange in Hx. lia.
Qed.

(** *** Positions of a value *)

Lemma elem_of_where_from (v : nat) (l : list nat) : forall a i,
  i ∈ where_from a v l <-> a <= i /\ l !! (i - a) = Some v.
Proof.
  induction l as [|x l IH]; intros a i; simpl.
  - split; [intros H; inversion H|]. intros [_ H]. discriminate.
  - assert (Hcase : i = a \/ a < i \/ i < a) by lia.
    destruct (Nat.eqb_spec x v) as [->|Hne].
    + rewrite elem_of_cons, IH. destruct Hcase as [->|[Hlt|Hlt]].
      * rewrite Nat.sub_diag. simpl. split; [auto|]. intros _. now left.
      * replace (i - a) with (S (i - S a)) by lia. simpl. split.
        -- intros [->|[_ H]]; [lia|]. split; [lia|exact H].
        -- intros [_ H]. right. split; [lia|exact H].
      * split; [intros [->|[H _]]; lia|intros [H _]; lia].
    + rewrite IH. destruct Hcase as [->|[Hlt|Hlt]].
      * rewrite Nat.sub_diag. simpl. split; [intros [H _]; lia|].
        intros [_ [= H]]. congruence.
      * replace (i - a) with (S (i - S a)) by lia. simpl. split.
        -- intros [_ H]. split; [lia|exact H].
        -- intros [_ H]. split; [lia|exact H].
      * split; [intros [H _]; lia|intros [H _]; lia].
Qed.

Lemma NoDup_where_from (v : nat) (l : list nat) : forall a, NoDup (where_from a v l).
Proof.
  induction l as [|x l IH]; intros a; simpl; [constructor|].
  destruct (Nat.eqb x v); [|apply IH].
  constructor; [|apply IH]. rewrite elem_of_where_from. lia.
Qed.

Lemma elem_of_np_where (v i : nat) (l : list nat) : i ∈ np_where v l <-> l !! i = Some v.
Proof.
  unfold np_where. rewrite elem_of_where_from, Nat.sub_0_r. split; [tauto|].
  intros H. split; [lia|exact H].
Qed.


Lemma NoDup_rev_unique_nat (l : list nat) : NoDup (rev (unique_nat l)).
Proof. apply NoDup_ListNoDup, List.NoDup_rev, NoDup_ListNoDup, NoDup_unique_nat. Qed.

Lemma elem_of_rev_unique_nat (v : nat) (l : list nat) : v ∈ rev (unique_nat l) <-> v ∈ l.
Proof. now rewrite list_elem_of_In, <- in_rev, <- list_elem_of_In, elem_of_unique_nat. Qed.

Section ApproximateMode.
Context {R : RandomState} {L : RandomStateLaws R}.

(** The loop of [_approximate_mode] hands out exactly the draws that are
    left, one at most per class, as long as no more draws are left than
    there are classes still to visit. *)
Lemma add_by_remainder_spec (remainder base : list nat) :
  forall values g floored need,
    length floored = length remainder ->
    NoDup values ->
    need <= sum_nat (map (fun v => length (np_where v remainder)) values) ->
    (forall i f, floored !! i = Some f ->
       exists f0, base !! i = Some f0
                  /\ (f = f0 \/ (f = S f0 /\ forall v, remainder !! i = Some v -> v ∉ values))) ->
    length (snd (add_by_remainder g values remainder floored need)) = length remainder
    /\ sum_nat (snd (add_by_remainder g values remainder floored need))
       = sum_nat floored + need
    /\ (forall i f, snd (add_by_remainder g values remainder floored need) !! i = Some f ->
          exists f0, base !! i = Some f0 /\ (f = f0 \/ f = S f0)).
Proof.
  induction values as [|value vs IH]; intros g floored need Hlen Hnd Hcap Hinv.
  - simpl in *. split; [exact Hlen|]. split; [lia|].
    intros i f Hf. destruct (Hinv i f Hf) as (f0 & Hb & [->|[-> _]]); eauto.
  - simpl in Hcap. apply NoDup_cons in Hnd as [Hfresh Hnd]. simpl.
    set (inds := np_where value remainder) in *.
    set (add_now := Nat.min (length inds) need).
    pose proof (rng_choice_spec g inds add_now (NoDup_where_from value remainder 0)
                  ltac:(unfold add_now; lia)) as (Hclen & Hcnd & Hcsub).
    destruct (rng_choice g inds add_now) as [g' chosen]. simpl in Hclen, Hcnd, Hcsub.
    assert (Hrange : forall x, x ∈ chosen -> x < length floored).
    { intros x Hx. apply Hcsub, elem_of_np_where, lookup_lt_Some in Hx. lia. }
    assert (Hsum : sum_nat (increment_at chosen floored) = sum_nat floored + add_now).
    { rewrite sum_increment_at by assumption. now rewrite Hclen. }
    assert (Hlen' : length (increment_at chosen floored) = length remainder).
    { unfold increment_at. now rewrite length_increment_from. }
    assert (Hinv' : forall i f, increment_at chosen floored !! i = Some f ->
              exists f0, base !! i = Some f0
                /\ (f = f0 \/ (f = S f0 /\ forall v, remainder !! i = Some v -> v ∉ vs))).
    { intros i f Hf. unfold increment_at in Hf. rewrite lookup_increment_from in Hf.
      simpl in Hf. destruct (floored !! i) as [f1|] eqn:Hf1; [|discriminate].
      simpl in Hf. injection Hf as <-.
      destruct (Hinv i f1 Hf1) as (f0 & Hb & Hcase). exists f0. split; [exact Hb|].
      destruct (existsb (Nat.eqb i) chosen) eqn:Hsel.
      - apply existsb_eqb_elem_of, Hcsub, elem_of_np_where in Hsel.
        destruct Hcase as [->|[_ Hout]].
        + right. split; [reflexivity|]. intros v Hv. rewrite Hsel in Hv.
          injection Hv as <-. exact Hfresh.
        + exfalso. apply (Hout value Hsel). left.
      - destruct Hcase as [->|[-> Hout]]; [now left|]. right. split; [reflexivity|].
        intros v Hv Hin. apply (Hout v Hv). now right. }
    destruct (Nat.eqb_spec (need - add_now) 0) as [Hz|Hnz]; simpl.
    + split; [exact Hlen'|]. split; [unfold add_now in *; lia|].
      intros i f Hf. destruct (Hinv' i f Hf) as (f0 & Hb & [->|[-> _]]); eauto.
    + destruct (IH g' (increment_at chosen floored) (need - add_now) Hlen' Hnd)
        as (H1 & H2 & H3).
      * unfold add_now in *. lia.
      * exact Hinv'.
      * split; [exact H1|]. split; [|exact H3].
        rewrite H2, Hsum. unfold add_now. lia.
Qed.

Lemma sum_div_mod (counts : list nat) (d total : nat) :
  total <> 0 ->
  sum_nat (map (fun c => c * d) counts)
  = total * sum_nat (map (fun c => c * d / total) counts)
    + sum_nat (map (fun c => (c * d) mod total) counts).
Proof.
  intros Ht. induction counts as [|c counts IH]; simpl; [lia|].
  rewrite IH. pose proof (Nat.div_mod (c * d) total Ht). lia.
Qed.

Lemma sum_nat_map_mul (counts : list nat) (d : nat) :
  sum_nat (map (fun c => c * d) counts) = sum_nat counts * d.
Proof. induction counts as [|c counts IH]; simpl; [reflexivity|]. rewrite IH. lia. Qed.

Lemma sum_mod_bound (counts : list nat) (d total : nat) :
  total <> 0 ->
  sum_nat (map (fun c => (c * d) mod total) counts) <= length counts * (total - 1).
Proof.
  intros Ht. induction counts as [|c counts IH]; simpl; [lia|].
  pose proof (Nat.mod_upper_bound (c * d) total Ht). lia.
Qed.

(** [_approximate_mode] returns, per class, the exact share rounded down or
    up, and the shares add up to the number of draws. *)
Lemma approximate_mode_spec (g : rng) (class_counts : list nat) (n_draws : nat) :
  sum_nat class_counts <> 0 ->
  length (snd (approximate_mode g class_counts n_draws)) = length class_counts
  /\ sum_nat (snd (approximate_mode g class_counts n_draws)) = n_draws
  /\ (forall i c, class_counts !! i = Some c ->
        snd (approximate_mode g class_counts n_draws) !! i
        = Some (c * n_draws / sum_nat class_counts)
        \/ snd (approximate_mode g class_counts n_draws) !! i
           = Some (S (c * n_draws / sum_nat class_counts))).
Proof.
  intros Ht. unfold approximate_mode.
  set (total := sum_nat class_counts) in *.
  set (floored := map (fun c => c * n_draws / total) class_counts).
  set (remainder := map (fun c => (c * n_draws) mod total) class_counts).
  pose proof (sum_div_mod class_counts n_draws total Ht) as Hdm.
  rewrite sum_nat_map_mul in Hdm. fold total floored remainder in Hdm.
  pose proof (sum_mod_bound class_counts n_draws total Ht) as Hmb.
  fold remainder in Hmb.
  assert (Hfl : sum_nat floored <= n_draws) by nia.
  assert (Hneed : n_draws - sum_nat floored <= length class_counts) by nia.
  assert (Hbase : forall i c, class_counts !! i = Some c ->
            floored !! i = Some (c * n_draws / total)).
  { intros i c Hc. unfold floored.
    change (map (fun c => c * n_draws / total) class_counts)
      with ((fun c => c * n_draws / total) <$> class_counts).
    now rewrite list_lookup_fmap, Hc. }
  destruct (Nat.ltb_spec 0 (n_draws - sum_nat floored)) as [Hpos|Hzero].
  - destruct (add_by_remainder_spec remainder floored (rev (unique_nat remainder)) g
                floored (n_draws - sum_nat floored)) as (H1 & H2 & H3).
    + unfold floored, remainder. now rewrite !length_map.
    + apply NoDup_rev_unique_nat.
    + rewrite sum_where_counts.
      * unfold remainder. now rewrite length_map.
      * apply NoDup_rev_unique_nat.
      * intros x Hx. now apply elem_of_rev_unique_nat.
    + intros i f Hf. eauto.
    + split; [|split].
      * rewrite H1. unfold remainder. now rewrite length_map.
      * rewrite H2. lia.
      * intros i c Hc. specialize (Hbase i c Hc).
        destruct (snd (add_by_remainder g (rev (unique_nat remainder)) remainder floored
                         (n_draws - sum_nat floored)) !! i) as [f|] eqn:Hf.
        -- destruct (H3 i f Hf) as (f0 & Hb & [-> | ->]);
             rewrite Hbase in Hb; injection Hb as <-; auto.
        -- exfalso. apply lookup_ge_None in Hf. apply lookup_lt_Some in Hc.
           rewrite H1 in Hf. unfold remainder in Hf. rewrite length_map in Hf. lia.
  - simpl. split; [|split].
    + unfold floored. now rewrite length_map.
    + lia.
    + intros i c Hc. left. now apply Hbase.
Qed.

(** Asking for as many draws as there are members gives every class all of
    its members. *)
Lemma approximate_mode_all (g : rng) (class_counts : list nat) :
  sum_nat class_counts <> 0 ->
  snd (approximate_mode g class_counts (sum_nat class_counts)) = class_counts.
Proof.
  intros Ht. unfold approximate_mode.
  assert (Hfl : map (fun c => c * sum_nat class_counts / sum_nat class_counts) class_counts
                = class_counts).
  { transitivity (map (fun c => c) class_counts); [|apply map_id].
    apply map_ext. intros c. now apply Nat.div_mul. }
  rewrite Hfl, Nat.sub_diag. reflexivity.
Qed.
End ApproximateMode.


(** *** Labels of the drawn positions *)

Lemma class_count_app (c : Z) (l1 l2 : labels) :
  class_count c (l1 ++ l2) = class_count c l1 + class_count c l2.
Proof. unfold class_count. now rewrite List.filter_app, length_app. Qed.

Lemma class_count_replicate (c' c : Z) (n : nat) :
  class_count c' (replicate n c) = if (c =? c')%Z then n else 0.
Proof.
  induction n as [|n IH]; simpl; [now destruct (c =? c')%Z|].
  rewrite class_count_cons, IH. now destruct (c =? c')%Z.
Qed.

Lemma class_count_Permutation (c : Z) (l1 l2 : labels) :
  Permutation l1 l2 -> class_count c l1 = class_count c l2.
Proof.
  induction 1 as [|x l1 l2 _ IH|x z l|l1 l2 l3 _ IH1 _ IH2];
    rewrite ?class_count_cons; lia.
Qed.

Lemma positions_from_label (c : Z) (y : labels) : forall a i,
  i ∈ positions_from a c y -> a <= i /\ nth (i - a) y 0%Z = c.
Proof.
  induction y as [|l y IH]; intros a i; simpl; [intros H; inversion H|].
  destruct (Z.eqb_spec l c) as [->|Hne].
  - intros H. apply elem_of_cons in H as [->|H].
    + rewrite Nat.sub_diag. auto.
    + apply IH in H as [Hle Hn]. split; [lia|].
      now replace (i - a) with (S (i - S a)) by lia.
  - intros H. apply IH in H as [Hle Hn]. split; [lia|].
    now replace (i - a) with (S (i - S a)) by lia.
Qed.

Lemma length_positions_from (c : Z) (y : labels) : forall a,
  length (positions_from a c y) = class_count c y.
Proof.
  induction y as [|l y IH]; intros a; [reflexivity|].
  rewrite class_count_cons. simpl. destruct (l =? c)%Z; simpl; now rewrite IH.
Qed.

Lemma class_indices_label (c : Z) (y : labels) (i : nat) :
  i ∈ class_indices c y -> nth i y 0%Z = c.
Proof.
  intros H. apply positions_from_label in H as [_ H]. now rewrite Nat.sub_0_r in H.
Qed.

(** Positions taken from the positions of class [c] all carry label [c]. *)
Lemma take_clip_labels (c : Z) (y : labels) (perm : list nat) :
  length perm = class_count c y ->
  safe_indexing 0%Z y (take_clip (class_indices c y) perm)
  = replicate (class_count c y) c.
Proof.
  intros Hlen. rewrite <- Hlen. unfold safe_indexing, take_clip. rewrite map_map.
  assert (Hall : forall j, j ∈ perm ->
            nth (nth (Nat.min j (length (class_indices c y) - 1)) (class_indices c y) 0) y 0%Z
            = c).
  { intros j Hj. apply class_indices_label, list_elem_of_In, nth_In.
    unfold class_indices. rewrite length_positions_from.
    assert (0 < class_count c y); [|lia].
    rewrite <- Hlen. destruct perm; [inversion Hj|simpl; lia]. }
  clear Hlen. induction perm as [|j perm IH]; [reflexivity|]. simpl.
  rewrite Hall by left. f_equal. apply IH. intros k Hk. apply Hall. now right.
Qed.

Lemma safe_indexing_app {A : Type} (d : A) (a : list A) (i1 i2 : list nat) :
  safe_indexing d a (i1 ++ i2) = safe_indexing d a i1 ++ safe_indexing d a i2.
Proof. unfold safe_indexing. apply map_app. Qed.

Lemma safe_indexing_take {A : Type} (d : A) (a : list A) (n : nat) (idx : list nat) :
  safe_indexing d a (take n idx) = take n (safe_indexing d a idx).
Proof. unfold safe_indexing. symmetry. apply firstn_map. Qed.

Lemma safe_indexing_drop {A : Type} (d : A) (a : list A) (n : nat) (idx : list nat) :
  safe_indexing d a (drop n idx) = drop n (safe_indexing d a idx).
Proof. unfold safe_indexing. symmetry. apply skipn_map. Qed.

Section DrawClasses.
Context {R : RandomState} {L : RandomStateLaws R}.

(** The train positions drawn class by class carry, in order, the label of
    each class as often as its share says; the test positions likewise. *)
Lemma draw_classes_labels (y : labels) : forall cls g train test,
  safe_indexing 0%Z y (fst (snd (draw_classes g y cls train test)))
  = safe_indexing 0%Z y train
    ++ concat (map (fun x => replicate (Nat.min (fst (snd x)) (class_count (fst x) y))
                               (fst x)) cls)
  /\ safe_indexing 0%Z y (snd (snd (draw_classes g y cls train test)))
     = safe_indexing 0%Z y test
       ++ concat (map (fun x => replicate
                                  (Nat.min (snd (snd x))
                                           (class_count (fst x) y - fst (snd x)))
                                  (fst x)) cls).
Proof.
  induction cls as [|[c [n t]] cls IH]; intros g train test.
  - simpl. now rewrite !app_nil_r.
  - simpl.
    pose proof (rng_permutation_perm g (seq 0 (class_count c y))) as Hperm.
    destruct (rng_permutation g (seq 0 (class_count c y))) as [g' perm].
    simpl in Hperm. apply Permutation_length in Hperm. rewrite length_seq in Hperm.
    destruct (IH g' (train ++ take n (take_clip (class_indices c y) perm))
                 (test ++ take t (drop n (take_clip (class_indices c y) perm))))
      as [IH1 IH2].
    rewrite IH1, IH2, !safe_indexing_app, safe_indexing_take, safe_indexing_take,
      safe_indexing_drop, (take_clip_labels c y perm) by (symmetry; exact Hperm).
    rewrite drop_replicate, !take_replicate, <- !app_assoc. auto.
Qed.
End DrawClasses.

(** Counting one class in the labels laid out class by class. *)
Lemma class_count_blocks_absent (f : Z * (nat * nat) -> nat) (c' : Z) cls :
  c' ∉ cls.*1 ->
  class_count c' (concat (map (fun x => replicate (f x) (fst x)) cls)) = 0.
Proof.
  induction cls as [|[c v] cls IH]; [reflexivity|].
  rewrite fmap_cons. intros Hnin. apply not_elem_of_cons in Hnin as [Hne Hnin].
  simpl in *. rewrite class_count_app, class_count_replicate, (IH Hnin).
  destruct (Z.eqb_spec c c'); [congruence|reflexivity].
Qed.

Lemma class_count_blocks (f : Z * (nat * nat) -> nat) (c' : Z) cls j v :
  NoDup (cls.*1) -> cls !! j = Some (c', v) ->
  class_count c' (concat (map (fun x => replicate (f x) (fst x)) cls)) = f (c', v).
Proof.
  revert j. induction cls as [|[c w] cls IH]; intros j Hnd Hj; [discriminate|].
  rewrite fmap_cons in Hnd. apply NoDup_cons in Hnd as [Hfresh Hnd]. simpl in *.
  rewrite class_count_app, class_count_replicate.
  destruct j as [|j]; simpl in Hj.
  - injection Hj as -> ->. rewrite Z.eqb_refl, class_count_blocks_absent by exact Hfresh.
    simpl. lia.
  - destruct (Z.eqb_spec c c') as [->|Hne].
    + exfalso. apply Hfresh. apply list_elem_of_lookup. exists j.
      now rewrite list_lookup_fmap, Hj.
    + now rewrite (IH j Hnd Hj).
Qed.

Lemma length_blocks (f : Z * (nat * nat) -> nat) cls :
  length (concat (map (fun x => replicate (f x) (fst x)) cls)) = sum_nat (map f cls).
Proof.
  induction cls as [|x cls IH]; [reflexivity|]. simpl.
  now rewrite length_app, length_replicate, IH.
Qed.


Lemma np_min_ge (l : list nat) (m : nat) :
  l <> [] -> (forall z, z ∈ l -> m <= z) ->
  exists least, np_min l = Ok least /\ m <= least.
Proof.
  destruct l as [|x r]; [congruence|]. intros _ Hall. simpl. eexists.
  split; [reflexivity|].
  assert (Hgen : forall r x, m <= x -> (forall z, z ∈ r -> m <= z) ->
                             m <= fold_left Nat.min r x).
  { clear. induction r as [|a r IH]; intros x Hx Hr; simpl; [exact Hx|].
    apply IH.
    - assert (m <= a) by (apply Hr; left). lia.
    - intros z Hz. apply Hr. now right. }
  apply Hgen.
  - apply Hall. left.
  - intros z Hz. apply Hall. now right.
Qed.

(** The shares of the classes, laid side by side. *)
Lemma shares_facts (y : labels) : forall (classes : list Z) (n_i : list nat),
  length n_i = length classes ->
  (forall j c v, classes !! j = Some c -> n_i !! j = Some v -> v <= class_count c y) ->
  sum_nat (map (fun x : Z * (nat * nat) => Nat.min (fst (snd x)) (class_count (fst x) y))
             (combine classes
                (combine n_i
                   (map (fun p => fst p - snd p)
                      (combine (map (fun c => class_count c y) classes) n_i)))))
  = sum_nat n_i
  /\ sum_nat (map (fun x : Z * (nat * nat) =>
                     Nat.min (snd (snd x)) (class_count (fst x) y - fst (snd x)))
                (combine classes
                   (combine n_i
                      (map (fun p => fst p - snd p)
                         (combine (map (fun c => class_count c y) classes) n_i)))))
     = sum_nat (map (fun p => fst p - snd p)
                  (combine (map (fun c => class_count c y) classes) n_i))
  /\ sum_nat (map (fun p => fst p - snd p)
                (combine (map (fun c => class_count c y) classes) n_i))
     + sum_nat n_i
     = sum_nat (map (fun c => class_count c y) classes)
  /\ (combine classes
        (combine n_i
           (map (fun p => fst p - snd p)
              (combine (map (fun c => class_count c y) classes) n_i)))).*1
     = classes
  /\ (forall j c v, classes !! j = Some c -> n_i !! j = Some v ->
        combine classes
          (combine n_i
             (map (fun p => fst p - snd p)
                (combine (map (fun c => class_count c y) classes) n_i))) !! j
        = Some (c, (v, class_count c y - v))).
Proof.
  induction classes as [|c classes IH]; intros [|v n_i] Hlen Hle; simpl in Hlen;
    try discriminate.
  - simpl. repeat split; try reflexivity. intros j c v H. discriminate.
  - injection Hlen as Hlen.
    assert (Hv : v <= class_count c y) by (apply (Hle 0); reflexivity).
    destruct (IH n_i Hlen) as (H1 & H2 & H3 & H4 & H5).
    { intros j c' v' Hc Hn. apply (Hle (S j)); assumption. }
    simpl. rewrite H1, H2.
    split; [lia|]. split; [lia|]. split; [lia|]. split; [f_equal; exact H4|].
    intros [|j] c' v' Hc Hn; simpl in *.
    + injection Hc as <-. injection Hn as <-. reflexivity.
    + now apply H5.
Qed.


Section Stratification.
Context {R : RandomState} {L : RandomStateLaws R}.

(** When every class has two members or more and both subsets have room for
    every class, the stratified split succeeds; each class gets in the train
    subset its exact share rounded down or up, and in the test subset the
    rest of its members. *)
Lemma stratified_shuffle_split_shares (g : rng) (y : labels) (n_train n_test : nat) :
  y <> [] ->
  (forall c, c ∈ y -> 2 <= class_count c y) ->
  n_train + n_test = length y -> 0 < n_test ->
  length (np_unique y) <= n_train -> length (np_unique y) <= n_test ->
  exists g' train test,
    stratified_shuffle_split g y n_train n_test = Ok (g', (train, test))
    /\ length (safe_indexing 0%Z y train) = n_train
    /\ length (safe_indexing 0%Z y test) = n_test
    /\ forall c, c ∈ y ->
         class_count c (safe_indexing 0%Z y train)
         + class_count c (safe_indexing 0%Z y test) = class_count c y
         /\ (class_count c (safe_indexing 0%Z y train)
             = class_count c y * n_train / length y
             \/ class_count c (safe_indexing 0%Z y train)
                = S (class_count c y * n_train / length y)).
Proof.
  intros Hne Hmin Hsize Htest Hktrain Hktest.
  unfold stratified_shuffle_split.
  set (classes := np_unique y) in *.
  set (counts := map (fun c => class_count c y) classes).
  assert (Hsum : sum_nat counts = length y).
  { apply sum_class_counts; [apply NoDup_np_unique|].
    intros x Hx. now apply elem_of_np_unique. }
  assert (Hn : length y <> 0) by (destruct y; [congruence|discriminate]).
  destruct (np_min_ge counts 2) as (least & -> & Hleast).
  { unfold counts, classes. destruct y as [|l y]; [congruence|].
    assert (Hl : l ∈ np_unique (l :: y)) by (apply elem_of_np_unique; left).
    destruct (np_unique (l :: y)); [inversion Hl|discriminate]. }
  { intros z Hz. apply list_elem_of_In, in_map_iff in Hz as (c & <- & Hc).
    apply Hmin, elem_of_np_unique, list_elem_of_In, Hc. }
  simpl bind.
  destruct (Nat.ltb_spec least 2); [lia|].
  destruct (Nat.ltb_spec n_train (length classes)); [lia|].
  destruct (Nat.ltb_spec n_test (length classes)); [lia|].
  pose proof (approximate_mode_spec g counts n_train ltac:(lia)) as (Hlen & Hsn & Hshare).
  rewrite Hsum in Hshare.
  destruct (approximate_mode g counts n_train) as [g1 n_i]. simpl in Hlen, Hsn, Hshare.
  assert (Hcounts : forall j c, classes !! j = Some c -> counts !! j = Some (class_count c y)).
  { intros j c Hc. unfold counts.
    change (map (fun c => class_count c y) classes)
      with ((fun c => class_count c y) <$> classes).
    now rewrite list_lookup_fmap, Hc. }
  assert (Hclass : forall j c, classes !! j = Some c -> c ∈ y).
  { intros j c Hc. apply elem_of_np_unique, list_elem_of_lookup. eauto. }
  assert (Hle : forall j c v, classes !! j = Some c -> n_i !! j = Some v ->
                              v <= class_count c y).
  { intros j c v Hc Hv. pose proof (Hmin c (Hclass j c Hc)) as H2.
    assert (Hfl : class_count c y * n_train / length y < class_count c y).
    { apply Nat.Div0.div_lt_upper_bound. nia. }
    destruct (Hshare j _ (Hcounts j c Hc)) as [Hs|Hs]; rewrite Hs in Hv;
      injection Hv as <-; lia. }
  unfold counts in Hlen. rewrite length_map in Hlen.
  destruct (shares_facts y classes n_i Hlen Hle) as (Hs1 & Hs2 & Hs3 & Hs4 & Hs5).
  fold counts in Hs1, Hs2, Hs3, Hs4, Hs5.
  set (remaining := map (fun p => fst p - snd p) (combine counts n_i)) in *.
  assert (Hrem : sum_nat remaining = n_test) by lia.
  pose proof (approximate_mode_all g1 remaining ltac:(lia)) as Hall.
  rewrite Hrem in Hall.
  destruct (approximate_mode g1 remaining n_test) as [g2 t_i]. simpl in Hall. subst t_i.
  set (cls := combine classes (combine n_i remaining)) in *.
  destruct (draw_classes_labels y cls g2 [] []) as [Htr Hte].
  destruct (draw_classes g2 y cls [] []) as [g3 [train test]]. simpl in Htr, Hte.
  pose proof (rng_permutation_perm g3 train) as Hp1.
  destruct (rng_permutation g3 train) as [g4 train']. simpl in Hp1.
  pose proof (rng_permutation_perm g4 test) as Hp2.
  destruct (rng_permutation g4 test) as [g5 test']. simpl in Hp2.
  exists g5, train', test'. split; [reflexivity|].
  assert (Hptr : Permutation (safe_indexing 0%Z y train) (safe_indexing 0%Z y train'))
    by now apply Permutation_map.
  assert (Hpte : Permutation (safe_indexing 0%Z y test) (safe_indexing 0%Z y test'))
    by now apply Permutation_map.
  split; [|split].
  - rewrite <- (Permutation_length Hptr), Htr, length_blocks, Hs1. exact Hsn.
  - rewrite <- (Permutation_length Hpte), Hte, length_blocks, Hs2. exact Hrem.
  - intros c Hc.
    rewrite <- (class_count_Permutation c _ _ Hptr), <- (class_count_Permutation c _ _ Hpte).
    apply elem_of_np_unique, list_elem_of_lookup in Hc as [j Hj]. fold classes in Hj.
    assert (Hv : exists v, n_i !! j = Some v).
    { apply lookup_lt_is_Some. rewrite Hlen. now apply lookup_lt_Some in Hj. }
    destruct Hv as [v Hv].
    pose proof (Hs5 j c v Hj Hv) as Hcls. pose proof (Hle j c v Hj Hv) as Hvle.
    rewrite Htr, Hte.
    rewrite (class_count_blocks
               (fun x => Nat.min (fst (snd x)) (class_count (fst x) y)) c cls j _
               ltac:(rewrite Hs4; apply NoDup_np_unique) Hcls).
    rewrite (class_count_blocks
               (fun x => Nat.min (snd (snd x)) (class_count (fst x) y - fst (snd x)))
               c cls j _ ltac:(rewrite Hs4; apply NoDup_np_unique) Hcls).
    simpl. split; [lia|].
    destruct (Hshare j _ (Hcounts j c Hj)) as [Hs|Hs]; rewrite Hs in Hv;
      injection Hv as <-; [left|right]; lia.
Qed.
End Stratification.

(** The test subset of [train_models] has a fifth of the samples, rounded up. *)
Lemma n_test_fifth (n : nat) :
  Z.to_nat (Qceiling ((1 # 5) * inject_Z (Z.of_nat n))) = (n + 4) / 5.
Proof.
  unfold Qceiling, Qfloor, Qmult, Qopp, inject_Z. cbn [Qnum Qden].
  change (Z.pos (5 * 1)) with 5%Z. rewrite Z.mul_1_l.
  apply Nat2Z.inj. rewrite Nat2Z.inj_div, Nat2Z.inj_add.
  change (Z.of_nat 4) with 4%Z. change (Z.of_nat 5) with 5%Z.
  pose proof (Z.div_mod (- Z.of_nat n) 5 ltac:(lia)).
  pose proof (Z.mod_pos_bound (- Z.of_nat n) 5 ltac:(lia)).
  pose proof (Z.div_mod (Z.of_nat n + 4) 5 ltac:(lia)).
  pose proof (Z.mod_pos_bound (Z.of_nat n + 4) 5 ltac:(lia)).
  rewrite Z2Nat.id by lia. lia.
Qed.

Lemma sum_nat_at_least (l : list nat) (m : nat) :
  (forall z, z ∈ l -> m <= z) -> m * length l <= sum_nat l.
Proof.
  induction l as [|x l IH]; intros H; simpl; [lia|].
  assert (m <= x) by (apply H; left).
  assert (m * length l <= sum_nat l) by (apply IH; intros z Hz; apply H; now right).
  lia.
Qed.

Lemma fixed_rng_laws : RandomStateLaws fixed_rng.
Proof.
  split.
  - intros g l. reflexivity.
  - intros g l k Hnd Hk. simpl. split; [|split].
    + rewrite length_take. lia.
    + eapply sublist_NoDup; [exact Hnd|apply sublist_take].
    + intros i Hi. apply elem_of_take in Hi as (j & Hj & _).
      apply list_elem_of_lookup. eauto.
Qed.

Lemma rotate_Permutation {A : Type} (n : nat) (l : list A) : Permutation l (rotate n l).
Proof.
  unfold rotate. rewrite <- (take_drop (n `mod` length l) l) at 1.
  apply Permutation_app_comm.
Qed.

Lemma counter_rng_laws : RandomStateLaws counter_rng.
Proof.
  split.
  - intros g l. apply rotate_Permutation.
  - intros g l k Hnd Hk. simpl. split; [|split].
    + rewrite length_take, length_rotate. lia.
    + eapply sublist_NoDup; [|apply sublist_take].
      now rewrite <- (rotate_Permutation g l).
    + intros i Hi. apply elem_of_take in Hi as (j & Hj & _).
      apply (elem_of_rotate l g), list_elem_of_lookup. eauto.
Qed.

(** C7 (as the library splits).  For every dataset with at least two classes,
    each with at least two members, whose test subset of a fifth of the
    samples (rounded up) has at least as many samples as there are classes,
    the split of [train_models] succeeds, the test subset has that size and
    the train subset the rest, and in both subsets the share of every class
    is its share in the whole dataset up to one sample. *)
Theorem stratified_split_keeps_proportions {R : RandomState} {L : RandomStateLaws R}
        (g : rng) (X : features) (y : labels) (random_state : option Z) :
  length X = length y ->
  2 <= length (np_unique y) ->
  (forall c, c ∈ y -> 2 <= class_count c y) ->
  length (np_unique y) <= (length y + 4) / 5 ->
  exists sp,
    snd (train_test_split g X y (1 # 5) random_state) = Ok sp
    /\ length (y_test sp) = (length y + 4) / 5
    /\ length (y_train sp) = length y - (length y + 4) / 5
    /\ length (X_test sp) = length (y_test sp)
    /\ length (X_train sp) = length (y_train sp)
    /\ forall c, c ∈ y ->
         within_one_sample (y_train sp) y c /\ within_one_sample (y_test sp) y c.
Proof.
  intros Hlen Hk Hmin Hroom.
  assert (Hne : y <> []) by (intros ->; simpl in Hk; lia).
  assert (Hn : 2 * length (np_unique y) <= length y).
  { rewrite <- (sum_class_counts (np_unique y) y).
    - rewrite <- (length_map (fun c => class_count c y) (np_unique y)).
      apply sum_nat_at_least. intros z Hz.
      apply list_elem_of_In, in_map_iff in Hz as (c & <- & Hc).
      apply Hmin, elem_of_np_unique, list_elem_of_In, Hc.
    - apply NoDup_np_unique.
    - intros x Hx. now apply elem_of_np_unique. }
  set (n_test := (length y + 4) / 5) in *.
  assert (Htest : 0 < n_test /\ n_test <= length y / 2).
  { unfold n_test.
    pose proof (Nat.div_mod (length y + 4) 5 ltac:(lia)).
    pose proof (Nat.mod_upper_bound (length y + 4) 5 ltac:(lia)).
    pose proof (Nat.div_mod (length y) 2 ltac:(lia)).
    pose proof (Nat.mod_upper_bound (length y) 2 ltac:(lia)). lia. }
  assert (Hhalf : length (np_unique y) <= length y - n_test).
  { pose proof (Nat.div_mod (length y) 2 ltac:(lia)).
    pose proof (Nat.mod_upper_bound (length y) 2 ltac:(lia)). lia. }
  destruct (stratified_shuffle_split_shares (check_random_state random_state g) y
              (length y - n_test) n_test Hne Hmin ltac:(lia) ltac:(lia) Hhalf Hroom)
    as (g' & train & test & Hsplit & Hltr & Hlte & Hshares).
  unfold train_test_split, validate_shuffle_split.
  rewrite Hlen, Nat.eqb_refl, n_test_fifth. fold n_test. simpl negb. cbv iota.
  change (Qle_bool (1 # 5) 0 || Qle_bool 1 (1 # 5)) with false. cbv iota.
  destruct (Nat.eqb_spec (length y - n_test) 0) as [Hz|_]; [lia|].
  rewrite Hsplit.
  eexists. split; [destruct random_state; reflexivity|]. simpl.
  split; [exact Hlte|]. split; [exact Hltr|].
  split; [unfold safe_indexing; now rewrite !length_map|].
  split; [unfold safe_indexing; now rewrite !length_map|].
  intros c Hc. destruct (Hshares c Hc) as [Hsum Hshare].
  unfold within_one_sample. rewrite Hltr, Hlte.
  set (count := class_count c y) in *. set (n := length y) in *.
  set (n_train := n - n_test) in *.
  set (a := class_count c (safe_indexing 0%Z y train)) in *.
  set (b := class_count c (safe_indexing 0%Z y test)) in *.
  pose proof (Nat.Div0.mul_div_le (count * n_train) n) as Hlo.
  pose proof (Nat.mul_succ_div_gt (count * n_train) n ltac:(lia)) as Hhi.
  assert (Hnn : n_train + n_test = n) by lia.
  assert (Ha : count * n_train / n <= a <= S (count * n_train / n)) by lia.
  clearbody a b count n n_train n_test.
  generalize dependent (count * n_train / n). intros f Hshare Hlo Hhi Ha.
  assert (Hb : b = count - a) by lia. subst b.
  assert (Hac : a <= count) by lia.
  repeat split; nia.
Qed.

Lemma stratified_split_keeps_proportions_witness :
  exists sp,
    snd (@train_test_split counter_rng 3 ten_rows ten_labels (1 # 5) None) = Ok sp
    /\ length (y_test sp) = 2
    /\ within_one_sample (y_train sp) ten_labels 1%Z
    /\ within_one_sample (y_test sp) ten_labels 1%Z.
Proof.
  destruct (@stratified_split_keeps_proportions counter_rng counter_rng_laws 3
              ten_rows ten_labels None)
    as (sp & Hsp & Hte & _ & _ & _ & Hshare).
  - reflexivity.
  - vm_compute. lia.
  - intros c Hc. vm_compute in Hc.
    repeat (apply elem_of_cons in Hc as [->|Hc]; [vm_compute; lia|]).
    inversion Hc.
  - vm_compute. lia.
  - exists sp. split; [exact Hsp|]. split; [exact Hte|].
    apply Hshare. apply (bool_decide_unpack _). vm_compute. exact I.
Defined.

(** C7, refuted as stated: four samples in two classes of two members each
    meet the conditions of the claim, yet the split raises instead of
    returning subsets, because the single test sample cannot hold both
    classes. *)
Lemma two_classes_of_two_cannot_be_split :
  length (np_unique two_by_two_labels) = 2
  /\ class_count 0 two_by_two_labels = 2
  /\ class_count 1 two_by_two_labels = 2
  /\ snd (@train_test_split fixed_rng tt two_by_two_rows two_by_two_labels
            (1 # 5) (Some 42%Z))
     = Raise (ValueError
                "The test_size should be greater or equal to the number of classes").
Proof. vm_compute. repeat split. Qed.

(** *** More on the training loop *)

Lemma keys_dict_set_prefix {V : Type} (k : string) (v : V) (d : dict V) :
  keys d `prefix_of` keys (dict_set k v d).
Proof.
  destruct (decide (k ∈ keys d)) as [Hin|Hnin].
  - now rewrite keys_dict_set_in.
  - rewrite dict_set_fresh by exact Hnin. rewrite keys_app. now apply prefix_app_r.
Qed.

Section TrainingMore.
Context {E : Estimator} {R : RandomState}.
Implicit Types (p : predictor) (sp : split).

Lemma train_loop_keeps_keys sp items : forall p,
  keys (trained_models p) `prefix_of` keys (trained_models (fst (train_loop sp items p)))
  /\ keys (model_scores p) `prefix_of` keys (model_scores (fst (train_loop sp items p))).
Proof.
  induction items as [|[name r] items IH]; intros p; simpl; [split; reflexivity|].
  destruct (train_one_cases sp p name r) as [(m & s & ->)|(m & e & ->)]; simpl.
  - destruct (IH (store_results (set_heap p r m) name r s)) as [H1 H2]. simpl in H1, H2.
    split; (etrans; [apply keys_dict_set_prefix|eassumption]).
  - split; reflexivity.
Qed.

(** X2.  Whatever its outcome, [train_models] never drops or reorders what was
    recorded before: the identifiers that [trained_models] and [model_scores]
    held are still there, in the same order, at the front. *)
Theorem train_models_keeps_recorded_identifiers (g : rng) (p : predictor)
        (X : features) (y : labels) :
  keys (trained_models p)
    `prefix_of` keys (trained_models (fst (snd (train_models g p X y))))
  /\ keys (model_scores p)
       `prefix_of` keys (model_scores (fst (snd (train_models g p X y)))).
Proof.
  unfold train_models.
  destruct (train_test_split g X y (1 # 5) (Some 42%Z)) as [g' [sp|e]]; simpl.
  - apply train_loop_keeps_keys.
  - split; reflexivity.
Qed.

(** A loop that ends without an exception has recorded every entry it went
    through. *)
Lemma train_loop_ok_records_all sp rest : forall done p j p',
  NoDup (keys (done ++ rest)) ->
  trained_models p = done ++ take j rest ->
  keys (model_scores p) = keys (done ++ take j rest) ->
  train_loop sp rest p = (p', Ok tt) ->
  trained_models p' = done ++ rest /\ keys (model_scores p') = keys (done ++ rest).
Proof.
  induction rest as [|[name r] rest IH]; intros done p j p' Hnd Ht Hs Hrun.
  - simpl in Hrun. injection Hrun as <-. rewrite take_nil in Ht, Hs. auto.
  - simpl in Hrun.
    destruct (train_one_cases sp p name r) as [(m & s & Hone)|(m & e & Hone)];
      rewrite Hone in Hrun; [|discriminate].
    replace (done ++ (name, r) :: rest) with ((done ++ [(name, r)]) ++ rest)
      by now rewrite <- app_assoc.
    apply (IH (done ++ [(name, r)]) (store_results (set_heap p r m) name r s) (pred j)).
    + now rewrite <- app_assoc.
    + simpl. rewrite Ht. now apply dict_set_next_entry.
    + simpl. rewrite <- (dict_set_next_entry done rest name r j Hnd), <- Ht.
      apply keys_dict_set_congr. now rewrite Hs, Ht.
    + exact Hrun.
Qed.

Lemma train_models_ok_registry (g g' : rng) (p p' : predictor)
      (X : features) (y : labels) :
  NoDup (keys (models p)) ->
  registry_prefix p ->
  train_models g p X y = (g', (p', Ok tt)) ->
  trained_models p' = models p
  /\ keys (model_scores p') = keys (models p)
  /\ models p' = models p.
Proof.
  intros Hnd (k & Ht & Hs). unfold train_models.
  destruct (train_test_split g X y (1 # 5) (Some 42%Z)) as [g0 [sp|e]];
    [|discriminate].
  intros [= <- Hrun].
  assert (Hm : models p' = models p).
  { pose proof (train_loop_models sp (models p) p) as H. now rewrite Hrun in H. }
  destruct (train_loop_ok_records_all sp (models p) [] p k p') as [H1 H2]; simpl; auto.
  rewrite Hs. unfold keys. now rewrite fmap_take.
Qed.

(** X1.  When [train_models] returns without an exception, every registry
    entry has been recorded: [trained_models] is the registry itself (same
    identifiers, same estimator objects, same order) and [model_scores] has a
    report under each registry identifier, in registry order. *)
Theorem train_models_success_records_registry (g g' : rng) (p p' : predictor)
        (X : features) (y : labels) :
  NoDup (keys (models p)) ->
  registry_prefix p ->
  train_models g p X y = (g', (p', Ok tt)) ->
  trained_models p' = models p
  /\ keys (model_scores p') = keys (models p)
  /\ models p' = models p.
Proof. apply train_models_ok_registry. Qed.

(** X3.  On a predictor obtained from a registry by method calls,
    [get_best_model] fails in one way only: with the [ValueError] of [max]
    when there is no report.  The lookup of the winner in [trained_models]
    never misses. *)
Theorem get_best_model_fails_only_without_reports
        (h : ref -> model) (registry : dict ref) (calls : list call) (w : world) (e : exn) :
  NoDup (keys registry) ->
  get_best_model (snd (run calls (w, new_predictor h registry))) = Raise e ->
  model_scores (snd (run calls (w, new_predictor h registry))) = []
  /\ e = ValueError "max() arg is an empty sequence".
Proof.
  intros Hnd Hraise.
  destruct (run_prefix calls w (new_predictor h registry)) as [Hm Hp].
  - exact Hnd.
  - exists 0. split; reflexivity.
  - destruct (model_scores (snd (run calls (w, new_predictor h registry)))) eqn:Hms.
    + split; [reflexivity|]. unfold get_best_model in Hraise. rewrite Hms in Hraise.
      simpl in Hraise. now injection Hraise as <-.
    + exfalso.
      destruct (get_best_model_prefix (snd (run calls (w, new_predictor h registry))))
        as (i & best & r & s_best & Hok & _).
      * now rewrite Hm.
      * exact Hp.
      * rewrite Hms. discriminate.
      * rewrite Hok in Hraise. discriminate.
Qed.
End TrainingMore.

Lemma train_models_success_records_registry_witness :
  trained_models trained_toy = @models toy_estimator (@__init__ toy_estimator)
  /\ keys (model_scores trained_toy)
     = ["random_forest"; "svm"; "neural_network"; "gradient_boosting"].
Proof.
  destruct (@train_models_success_records_registry toy_estimator fixed_rng tt tt
              (@__init__ toy_estimator) trained_toy ten_rows ten_labels)
    as (H1 & H2 & _).
  - apply (bool_decide_unpack _). vm_compute. exact I.
  - exists 0. split; reflexivity.
  - reflexivity.
  - split; [exact H1|exact H2].
Defined.

Lemma get_best_model_fails_only_without_reports_witness :
  model_scores (snd (@run toy_estimator fixed_rng [GenerateReport]
                       (toy_world, @__init__ toy_estimator))) = [].
Proof.
  refine (proj1 (@get_best_model_fails_only_without_reports toy_estimator fixed_rng
                   (@heap toy_estimator (@__init__ toy_estimator))
                   (@models toy_estimator (@__init__ toy_estimator))
                   [GenerateReport] toy_world
                   (ValueError "max() arg is an empty sequence") _ eq_refl)).
  apply (bool_decide_unpack _). vm_compute. exact I.
Defined.

(** *** The two result dictionaries, side by side *)

(** C10.  [trained_models] and [model_scores] hold the same identifiers in the
    same order, that of the registry, at every point a program can reach.
    Both are empty in a new predictor.  One turn of the training loop either
    returns, and has then assigned the turn's identifier in both (the
    estimator object in one, a report in the other), or raises, and has then
    touched neither; it does return when its calls into the estimator and the
    metrics return.  A call of [train_models] that returns has so recorded
    every registry entry in both, in registry order.  The three other methods
    leave the predictor as it is. *)
Theorem trained_models_and_scores_aligned {E : Estimator} {R : RandomState}
        (h : ref -> model) (registry : dict ref) (calls : list call) (w : world) :
  NoDup (keys registry) ->
  (trained_models (new_predictor h registry) = []
   /\ model_scores (new_predictor h registry) = [])
  /\ (keys (trained_models (snd (run calls (w, new_predictor h registry))))
      = keys (model_scores (snd (run calls (w, new_predictor h registry))))
      /\ exists k,
           trained_models (snd (run calls (w, new_predictor h registry)))
           = take k registry
           /\ keys (model_scores (snd (run calls (w, new_predictor h registry))))
              = take k (keys registry))
  /\ (forall sp p name r,
        (exists p1 s,
            train_one sp p name r = (p1, Ok tt)
            /\ trained_models p1 = dict_set name r (trained_models p)
            /\ model_scores p1 = dict_set name s (model_scores p))
        \/ (exists p1 e,
               train_one sp p name r = (p1, Raise e)
               /\ trained_models p1 = trained_models p
               /\ model_scores p1 = model_scores p))
  /\ (forall sp p name r m y_pred cv_scores,
        fit (heap p r) (X_train sp) (y_train sp) = (m, None) ->
        predict m (X_test sp) = Ok y_pred ->
        y_test sp <> [] ->
        length (y_test sp) = length y_pred ->
        cross_val_score m (X_train sp) (y_train sp) 5 = Ok cv_scores ->
        exists p1, train_one sp p name r = (p1, Ok tt))
  /\ (forall g X y g' p',
        train_models g (snd (run calls (w, new_predictor h registry))) X y
        = (g', (p', Ok tt)) ->
        trained_models p' = registry /\ keys (model_scores p') = keys registry)
  /\ (forall p output_dir,
        snd (step GetBestModel (w, p)) = p
        /\ snd (step (SaveModels output_dir) (w, p)) = p
        /\ snd (step GenerateReport (w, p)) = p).
Proof.
  intros Hnd.
  destruct (run_prefix calls w (new_predictor h registry) Hnd) as [Hm Hpre].
  { exists 0. split; reflexivity. }
  simpl in Hm.
  split; [split; reflexivity|]. split; [|split; [|split; [|split]]].
  - split; [apply run_same_keys; reflexivity|].
    destruct Hpre as (k & Ht & Hs). exists k. now rewrite Ht, Hs, Hm.
  - intros sp p name r.
    destruct (train_one_cases sp p name r) as [(m & s & Hone)|(m & e & Hone)].
    + left. exists (store_results (set_heap p r m) name r s), s. now rewrite Hone.
    + right. exists (set_heap p r m), e. now rewrite Hone.
  - intros sp p name r m y_pred cv_scores Hfit Hpred Hne Hlen Hcv.
    destruct (metrics_bounded _ _ Hne Hlen)
      as (a & pr & re & f & Ha & Hp & Hr & Hf & _).
    unfold train_one. rewrite Hfit, Hpred. simpl.
    rewrite Ha, Hp, Hr, Hf, Hcv. simpl. eexists. reflexivity.
  - intros g X y g' p' Htrain.
    destruct (train_models_ok_registry _ _ _ _ _ _ ltac:(now rewrite Hm) Hpre Htrain)
      as (Ht & Hs & _).
    now rewrite Ht, Hs, Hm.
  - intros p output_dir. simpl. repeat split.
    now destruct (save_models (recursion_room w) (disk w) p output_dir).
Qed.

Lemma trained_models_and_scores_aligned_witness :
  keys (trained_models trained_toy) = keys (model_scores trained_toy)
  /\ trained_models trained_toy = @models toy_estimator (@__init__ toy_estimator).
Proof.
  destruct (@trained_models_and_scores_aligned toy_estimator fixed_rng
              (@heap toy_estimator (@__init__ toy_estimator))
              (@models toy_estimator (@__init__ toy_estimator))
              [] toy_world)
    as (_ & _ & _ & _ & Hall & _).
  - apply (bool_decide_unpack _). vm_compute. exact I.
  - destruct (Hall tt ten_rows ten_labels tt trained_toy eq_refl) as [Ht Hs].
    split; [|exact Ht]. now rewrite Ht, Hs.
Defined.

(** *** More on the metrics *)

Lemma tp_sum_cons (c t q : Z) (y_true y_pred : labels) :
  tp_sum c (t :: y_true) (q :: y_pred)
  = (if (t =? c)%Z && (q =? c)%Z then 1 else 0) + tp_sum c y_true y_pred.
Proof. unfold tp_sum. simpl. now destruct ((t =? c)%Z && (q =? c)%Z). Qed.

Lemma combine_map_map {A B C : Type} (f : A -> B) (g : A -> C) (l : list A) :
  combine (map f l) (map g l) = map (fun x => (f x, g x)) l.
Proof. induction l as [|x l IH]; simpl; [reflexivity|]. now rewrite IH. Qed.

Lemma sum_Q_map_eq {A : Type} (f : A -> Q) (g : A -> nat) (l : list A) :
  (forall x, x ∈ l -> f x == inject_Z (Z.of_nat (g x)))%Q ->
  (sum_Q (map f l) == inject_Z (Z.of_nat (sum_nat (map g l))))%Q.
Proof.
  induction l as [|x l IH]; intros H; simpl; [reflexivity|].
  rewrite Nat2Z.inj_add, inject_Z_plus, (H x) by left.
  rewrite IH; [reflexivity|]. intros z Hz. apply H. now right.
Qed.

Lemma ratio_Qdiv (a b : nat) :
  b <> 0 -> (inject_Z (Z.of_nat a) / inject_Z (Z.of_nat b) == ratio a b)%Q.
Proof.
  intros Hb. unfold ratio. destruct (Nat.eqb_spec b 0) as [->|_]; [contradiction|].
  rewrite <- (Zpos_of_nat b Hb). symmetry. apply Qmake_Qdiv.
Qed.

Lemma weight_times_ratio (a b : nat) :
  a <= b -> (inject_Z (Z.of_nat b) * ratio a b == inject_Z (Z.of_nat a))%Q.
Proof.
  intros Hab. unfold ratio. destruct (Nat.eqb_spec b 0) as [->|Hb].
  - replace a with 0 by lia. reflexivity.
  - unfold Qeq, Qmult, inject_Z. simpl. rewrite Pos.mul_1_l, Zpos_of_nat by exact Hb. lia.
Qed.

(** A weighted score, once its per-class terms add up to a count. *)
Lemma weighted_score_value per_class (count : Z -> nat) (y_true y_pred : labels) :
  y_true <> [] -> length y_true = length y_pred ->
  (forall c, inject_Z (Z.of_nat (true_sum c y_true)) * per_class y_true y_pred c
             == inject_Z (Z.of_nat (count c)))%Q ->
  exists v, weighted_score per_class y_true y_pred = Ok v
            /\ (v == ratio (sum_nat (map count (np_unique (y_true ++ y_pred))))
                       (length y_true))%Q.
Proof.
  intros Hne Hlen Hterm. unfold weighted_score.
  rewrite (check_targets_ok _ _ Hne Hlen). simpl.
  eexists. split; [reflexivity|]. unfold weighted_average.
  set (vals := np_unique (y_true ++ y_pred)).
  assert (Hsum : sum_nat (map (fun c => true_sum c y_true) vals) = length y_true).
  { apply sum_class_counts; [apply NoDup_np_unique|].
    intros x Hx. apply elem_of_np_unique, elem_of_app. now left. }
  assert (Hn : length y_true <> 0) by (destruct y_true; [congruence|discriminate]).
  rewrite Hsum. destruct (Nat.eqb_spec (length y_true) 0) as [|_]; [contradiction|].
  rewrite combine_map_map, map_map. simpl.
  rewrite (sum_Q_map_eq _ count); [now apply ratio_Qdiv|].
  intros c _. apply Hterm.
Qed.

Lemma tp_sum_same (c : Z) (y : labels) : tp_sum c y y = class_count c y.
Proof.
  induction y as [|l y IH]; [reflexivity|].
  rewrite tp_sum_cons, class_count_cons, IH. now destruct (l =? c)%Z.
Qed.

Lemma ratio_same (n : nat) : n <> 0 -> (ratio n n == 1)%Q.
Proof. intros Hn. now apply ratio_one. Qed.

(** X5.  Predictions that are all correct score 1.0 on all four metrics. *)
Theorem perfect_predictions_score_one (y : labels) :
  y <> [] ->
  exists a p r f,
    accuracy_score y y = Ok (Fin a)
    /\ precision_score_weighted y y = Ok p
    /\ recall_score_weighted y y = Ok r
    /\ f1_score_weighted y y = Ok f
    /\ (a == 1)%Q /\ (p == 1)%Q /\ (r == 1)%Q /\ (f == 1)%Q.
Proof.
  intros Hne.
  assert (Hn : length y <> 0) by (destruct y; [congruence|discriminate]).
  assert (Hcover : forall x, x ∈ y -> x ∈ np_unique (y ++ y)).
  { intros x Hx. apply elem_of_np_unique, elem_of_app. now left. }
  assert (Hall : sum_nat (map (fun c => class_count c y) (np_unique (y ++ y))) = length y).
  { apply sum_class_counts; [apply NoDup_np_unique|exact Hcover]. }
  assert (Hterm : forall per_class : labels -> labels -> Z -> Q,
            (forall c, class_count c y <> 0 -> (per_class y y c == 1)%Q) ->
            exists v, weighted_score per_class y y = Ok v /\ (v == 1)%Q).
  { intros per_class Hone.
    destruct (weighted_score_value per_class (fun c => class_count c y) y y Hne eq_refl)
      as (v & Hv & Hval).
    - intros c. unfold true_sum. destruct (Nat.eq_dec (class_count c y) 0) as [Hz|Hnz].
      + rewrite Hz. simpl. apply Qmult_0_l.
      + rewrite (Hone c Hnz). apply Qmult_1_r.
    - exists v. split; [exact Hv|]. rewrite Hval, Hall. now apply ratio_same. }
  destruct (Hterm class_precision) as (p & Hp & Hp1).
  { intros c Hc. unfold class_precision, pred_sum. rewrite tp_sum_same.
    now apply ratio_same. }
  destruct (Hterm class_recall) as (r & Hr & Hr1).
  { intros c Hc. unfold class_recall, true_sum. rewrite tp_sum_same.
    now apply ratio_same. }
  destruct (Hterm class_f1) as (f & Hf & Hf1).
  { intros c Hc. unfold class_f1, true_sum, pred_sum. rewrite tp_sum_same.
    replace (2 * class_count c y) with (class_count c y + class_count c y) by lia.
    apply ratio_same. lia. }
  exists (ratio (matches y y) (length y)), p, r, f.
  split; [now apply accuracy_score_value|].
  repeat (split; [assumption|]).
  split; [|auto]. apply ratio_one; [exact Hn|]. now apply matches_all.
Qed.

Lemma perfect_predictions_score_one_witness :
  exists f, f1_score_weighted [0; 1; 1]%Z [0; 1; 1]%Z = Ok f /\ (f == 1)%Q.
Proof.
  destruct (perfect_predictions_score_one [0; 1; 1]%Z)
    as (a & p & r & f & _ & _ & _ & Hf & _ & _ & _ & Hf1).
  - discriminate.
  - exists f. split; [exact Hf|exact Hf1].
Defined.

(** *** The split as a partition of the samples *)

Lemma concat_map_app_perm {A B : Type} (f g : A -> list B) (l : list A) :
  Permutation (concat (map (fun c => f c ++ g c) l))
              (concat (map f l) ++ concat (map g l)).
Proof.
  induction l as [|x l IH]; simpl; [constructor|].
  rewrite IH, <- !app_assoc. apply Permutation_app_head, Permutation_app_swap_app.
Qed.

Lemma indicator_concat (x : Z) (a : nat) (vals : list Z) :
  NoDup vals -> x ∈ vals ->
  concat (map (fun c => if (x =? c)%Z then [a] else []) vals) = [a].
Proof.
  intros Hnd Hin.
  assert (Hnone : forall l, x ∉ l ->
            concat (map (fun c => if (x =? c)%Z then [a] else []) l) = []).
  { induction l as [|v l IH]; simpl; [reflexivity|]. intros Hnin.
    apply not_elem_of_cons in Hnin as [Hne Hnin]. rewrite (IH Hnin).
    destruct (Z.eqb_spec x v); [contradiction|reflexivity]. }
  induction vals as [|v vals IH]; [inversion Hin|]. simpl.
  apply NoDup_cons in Hnd as [Hfresh Hnd].
  destruct (Z.eqb_spec x v) as [->|Hne].
  - now rewrite Hnone.
  - apply elem_of_cons in Hin as [->|Hin]; [contradiction|]. now rewrite IH.
Qed.

(** The positions of the classes, put together, are all the positions. *)
Lemma positions_partition (vals : list Z) : forall (y : labels) (a : nat),
  NoDup vals -> (forall x, x ∈ y -> x ∈ vals) ->
  Permutation (concat (map (fun c => positions_from a c y) vals)) (seq a (length y)).
Proof.
  induction y as [|l y IH]; intros a Hnd Hcover.
  - simpl. induction vals; simpl; [constructor|].
    apply NoDup_cons in Hnd as [_ Hnd]. now apply IHvals.
  - assert (Hstep : map (fun c => positions_from a c (l :: y)) vals
                    = map (fun c => (if (l =? c)%Z then [a] else [])
                                    ++ positions_from (S a) c y) vals).
    { apply map_ext. intros c. simpl. now destruct (l =? c)%Z. }
    rewrite Hstep, concat_map_app_perm, indicator_concat;
      [|exact Hnd|apply Hcover; left].
    simpl. constructor. apply IH; [exact Hnd|]. intros x Hx. apply Hcover. now right.
Qed.

Lemma map_nth_seq {A : Type} (d : A) (l : list A) :
  map (fun j => nth j l d) (seq 0 (length l)) = l.
Proof.
  induction l as [|x l IH]; [reflexivity|].
  simpl. f_equal. rewrite <- seq_shift, map_map. exact IH.
Qed.

(** Clipping changes nothing for a permutation of the valid positions. *)
Lemma take_clip_perm (idx perm : list nat) :
  Permutation (seq 0 (length idx)) perm -> Permutation (take_clip idx perm) idx.
Proof.
  intros Hperm. unfold take_clip. rewrite <- Hperm.
  assert (Heq : map (fun j => nth (Nat.min j (length idx - 1)) idx 0) (seq 0 (length idx))
                = map (fun j => nth j idx 0) (seq 0 (length idx))).
  { apply map_ext_in. intros j Hj. apply in_seq in Hj.
    now replace (Nat.min j (length idx - 1)) with j by lia. }
  now rewrite Heq, map_nth_seq.
Qed.

Section Partition.
Context {R : RandomState} {L : RandomStateLaws R}.

Lemma draw_classes_indices (y : labels) : forall cls g train test,
  (forall c n t, (c, (n, t)) ∈ cls -> n + t = class_count c y) ->
  Permutation
    (fst (snd (draw_classes g y cls train test))
     ++ snd (snd (draw_classes g y cls train test)))
    (train ++ test ++ concat (map (fun x => class_indices (fst x) y) cls)).
Proof.
  induction cls as [|[c [n t]] cls IH]; intros g train test Hshare.
  - simpl. now rewrite app_nil_r.
  - simpl.
    pose proof (rng_permutation_perm g (seq 0 (class_count c y))) as Hperm.
    destruct (rng_permutation g (seq 0 (class_count c y))) as [g' perm].
    simpl in Hperm.
    assert (Hidx : length (class_indices c y) = class_count c y)
      by apply length_positions_from.
    rewrite <- Hidx in Hperm. apply take_clip_perm in Hperm.
    set (pi := take_clip (class_indices c y) perm) in *.
    assert (Hnt : n + t = class_count c y) by (apply Hshare; left).
    assert (Hlen : length pi = class_count c y).
    { rewrite <- Hidx. now apply Permutation_length. }
    rewrite IH by (intros c' n' t' Hin; apply Hshare; now right).
    rewrite (take_ge (drop n pi)) by (rewrite length_drop; lia).
    assert (Hpi : Permutation (class_indices c y) (take n pi ++ drop n pi)).
    { rewrite take_drop. symmetry. exact Hperm. }
    rewrite Hpi, <- !app_assoc.
    apply Permutation_app_head, Permutation_app_swap_app.
Qed.

(** What a split that went through tells about the dataset. *)
Lemma stratified_shuffle_split_ok_inv g y n_train n_test out :
  stratified_shuffle_split g y n_train n_test = Ok out ->
  y <> []
  /\ (forall c, c ∈ y -> 2 <= class_count c y)
  /\ length (np_unique y) <= n_train
  /\ length (np_unique y) <= n_test.
Proof.
  unfold stratified_shuffle_split.
  destruct (np_min _) as [least|e] eqn:Hmin; simpl; [|discriminate].
  destruct (Nat.ltb_spec least 2); [discriminate|].
  destruct (Nat.ltb_spec n_train (length (np_unique y))); [discriminate|].
  destruct (Nat.ltb_spec n_test (length (np_unique y))); [discriminate|].
  intros _. split; [|split; [|split]]; try assumption.
  - intros ->. simpl in Hmin. discriminate.
  - intros c Hc. transitivity least; [assumption|].
    apply (np_min_le _ _ _ Hmin). apply list_elem_of_In, in_map_iff.
    exists c. split; [reflexivity|]. now apply list_elem_of_In, elem_of_np_unique.
Qed.

Lemma stratified_shuffle_split_partition g y n_train n_test g' train' test' :
  n_train + n_test = length y ->
  stratified_shuffle_split g y n_train n_test = Ok (g', (train', test')) ->
  Permutation (train' ++ test') (seq 0 (length y))
  /\ length train' = n_train /\ length test' = n_test.
Proof.
  intros Hsize Hok.
  destruct (stratified_shuffle_split_ok_inv _ _ _ _ _ Hok) as (Hne & Hmin & Hktrain & Hktest).
  assert (Hk : 0 < length (np_unique y)).
  { destruct y as [|l y]; [congruence|].
    assert (Hl : l ∈ np_unique (l :: y)) by (apply elem_of_np_unique; left).
    destruct (np_unique (l :: y)); [inversion Hl|simpl; lia]. }
  split.
  2:{ destruct (stratified_shuffle_split_shares g y n_train n_test Hne Hmin Hsize
                  ltac:(lia) Hktrain Hktest)
        as (g0 & train0 & test0 & Hok0 & Hl1 & Hl2 & _).
      rewrite Hok in Hok0. injection Hok0 as <- <- <-.
      unfold safe_indexing in Hl1, Hl2. rewrite length_map in Hl1, Hl2. auto. }
  revert Hok. unfold stratified_shuffle_split.
  set (classes := np_unique y) in *.
  set (counts := map (fun c => class_count c y) classes).
  assert (Hsum : sum_nat counts = length y).
  { apply sum_class_counts; [apply NoDup_np_unique|].
    intros x Hx. now apply elem_of_np_unique. }
  assert (Hn : length y <> 0) by (destruct y; [congruence|discriminate]).
  destruct (np_min counts) as [least|e]; simpl; [|discriminate].
  destruct (Nat.ltb least 2); [discriminate|].
  destruct (Nat.ltb n_train (length classes)); [discriminate|].
  destruct (Nat.ltb n_test (length classes)); [discriminate|].
  pose proof (approximate_mode_spec g counts n_train ltac:(lia)) as (Hlen & Hsn & Hshare).
  rewrite Hsum in Hshare.
  destruct (approximate_mode g counts n_train) as [g1 n_i]. simpl in Hlen, Hsn, Hshare.
  assert (Hcounts : forall j c, classes !! j = Some c -> counts !! j = Some (class_count c y)).
  { intros j c Hc. unfold counts.
    change (map (fun c => class_count c y) classes)
      with ((fun c => class_count c y) <$> classes).
    now rewrite list_lookup_fmap, Hc. }
  assert (Hle : forall j c v, classes !! j = Some c -> n_i !! j = Some v ->
                              v <= class_count c y).
  { intros j c v Hc Hv.
    assert (Hcy : c ∈ y) by (apply elem_of_np_unique, list_elem_of_lookup; eauto).
    pose proof (Hmin c Hcy) as H2.
    assert (Hfl : class_count c y * n_train / length y < class_count c y).
    { apply Nat.Div0.div_lt_upper_bound. nia. }
    destruct (Hshare j _ (Hcounts j c Hc)) as [Hs|Hs]; rewrite Hs in Hv;
      injection Hv as <-; lia. }
  unfold counts in Hlen. rewrite length_map in Hlen.
  destruct (shares_facts y classes n_i Hlen Hle) as (Hs1 & Hs2 & Hs3 & Hs4 & Hs5).
  fold counts in Hs1, Hs2, Hs3, Hs4, Hs5.
  set (remaining := map (fun p => fst p - snd p) (combine counts n_i)) in *.
  assert (Hrem : sum_nat remaining = n_test) by lia.
  pose proof (approximate_mode_all g1 remaining ltac:(lia)) as Hall.
  rewrite Hrem in Hall.
  destruct (approximate_mode g1 remaining n_test) as [g2 t_i]. simpl in Hall. subst t_i.
  set (cls := combine classes (combine n_i remaining)) in *.
  pose proof (draw_classes_indices y cls g2 [] []) as Hdraw.
  destruct (draw_classes g2 y cls [] []) as [g3 [train test]]. simpl in Hdraw.
  pose proof (rng_permutation_perm g3 train) as Hp1.
  destruct (rng_permutation g3 train) as [g4 train1]. simpl in Hp1.
  pose proof (rng_permutation_perm g4 test) as Hp2.
  destruct (rng_permutation g4 test) as [g5 test1]. simpl in Hp2.
  intros [= <- <- <-].
  rewrite <- Hp1, <- Hp2, Hdraw.
  - replace (map (fun x : Z * (nat * nat) => class_indices (fst x) y) cls)
      with (map (fun c => class_indices c y) classes).
    + apply positions_partition; [apply NoDup_np_unique|].
      intros x Hx. now apply elem_of_np_unique.
    + rewrite <- Hs4 at 1.
      change (cls.*1) with (map fst cls). now rewrite map_map.
  - intros c n t Hin. apply list_elem_of_lookup in Hin as [j Hj].
    assert (Hc : classes !! j = Some c).
    { rewrite <- Hs4. now rewrite list_lookup_fmap, Hj. }
    assert (Hv : exists v, n_i !! j = Some v).
    { apply lookup_lt_is_Some. rewrite Hlen. now apply lookup_lt_Some in Hc. }
    destruct Hv as [v Hv]. rewrite (Hs5 j c v Hc Hv) in Hj.
    injection Hj as <- <-. specialize (Hle j c v Hc Hv). lia.
Qed.

Lemma map_pair_nth_seq (X : features) (y : labels) :
  length X = length y ->
  map (fun i => (nth i X [], nth i y 0%Z)) (seq 0 (length y)) = combine X y.
Proof.
  intros Hlen.
  transitivity (map (fun i => nth i (combine X y) ([], 0%Z))
                    (seq 0 (length (combine X y)))); [|apply map_nth_seq].
  rewrite length_combine, Hlen, Nat.min_id.
  apply map_ext. intros i. symmetry. now apply combine_nth.
Qed.

Lemma train_test_split_ok_facts (g g' : rng) (X : features) (y : labels)
        (test_size : Q) (random_state : option Z) (sp : split) :
  train_test_split g X y test_size random_state = (g', Ok sp) ->
  Permutation (combine (X_train sp) (y_train sp) ++ combine (X_test sp) (y_test sp))
              (combine X y)
  /\ length (y_test sp)
     = Z.to_nat (Qceiling (test_size * inject_Z (Z.of_nat (length y))))
  /\ length (y_train sp) + length (y_test sp) = length y
  /\ y_train sp <> [] /\ y_test sp <> []
  /\ length (X_train sp) = length (y_train sp)
  /\ length (X_test sp) = length (y_test sp).
Proof.
  unfold train_test_split, validate_shuffle_split.
  destruct (Nat.eqb_spec (length X) (length y)) as [Hlen|]; simpl; [|discriminate].
  destruct (_ || _); [discriminate|]. rewrite Hlen.
  set (n_test := Z.to_nat (Qceiling (test_size * inject_Z (Z.of_nat (length y))))).
  destruct (Nat.eqb_spec (length y - n_test) 0) as [|Htrain]; [discriminate|].
  destruct (stratified_shuffle_split _ _ _ _) as [[g0 [train test]]|e] eqn:Hsplit;
    [|discriminate].
  intros [= _ <-]. simpl.
  destruct (stratified_shuffle_split_ok_inv _ _ _ _ _ Hsplit) as (Hne & _ & Hk1 & Hk2).
  assert (Hk : 0 < length (np_unique y)).
  { destruct y as [|l y]; [congruence|].
    assert (Hl : l ∈ np_unique (l :: y)) by (apply elem_of_np_unique; left).
    destruct (np_unique (l :: y)); [inversion Hl|simpl; lia]. }
  destruct (stratified_shuffle_split_partition _ y (length y - n_test) n_test _ _ _
              ltac:(lia) Hsplit) as (Hperm & Hl1 & Hl2).
  unfold safe_indexing. rewrite !length_map, !combine_map_map, <- map_app.
  split.
  { rewrite Hperm. now rewrite map_pair_nth_seq. }
  rewrite Hl1, Hl2. split; [reflexivity|]. split; [lia|].
  split; [destruct train; simpl in *; [lia|discriminate]|].
  split; [destruct test; simpl in *; [lia|discriminate]|]. auto.
Qed.

(** X6.  A split that succeeds uses every sample exactly once: the rows of the
    train and test subsets, each with its label, are together a rearrangement
    of the rows of the dataset with their labels; both subsets are non-empty,
    and the test subset has the size the test fraction asks for, rounded up. *)
Theorem split_uses_every_sample_once (g g' : rng) (X : features) (y : labels)
        (test_size : Q) (random_state : option Z) (sp : split) :
  train_test_split g X y test_size random_state = (g', Ok sp) ->
  Permutation (combine (X_train sp) (y_train sp) ++ combine (X_test sp) (y_test sp))
              (combine X y)
  /\ length (y_test sp)
     = Z.to_nat (Qceiling (test_size * inject_Z (Z.of_nat (length y))))
  /\ length (y_train sp) + length (y_test sp) = length y
  /\ y_train sp <> [] /\ y_test sp <> []
  /\ length (X_train sp) = length (y_train sp)
  /\ length (X_test sp) = length (y_test sp).
Proof. apply train_test_split_ok_facts. Qed.
End Partition.

Lemma split_uses_every_sample_once_witness :
  exists sp,
    snd (@train_test_split counter_rng 3 ten_rows ten_labels (1 # 5) None) = Ok sp
    /\ Permutation (combine (X_train sp) (y_train sp) ++ combine (X_test sp) (y_test sp))
                   (combine ten_rows ten_labels).
Proof.
  destruct (@train_test_split counter_rng 3 ten_rows ten_labels (1 # 5) None)
    as [g' [sp|e]] eqn:Hsplit; [|vm_compute in Hsplit; discriminate].
  exists sp. split; [reflexivity|].
  exact (proj1 (@split_uses_every_sample_once counter_rng counter_rng_laws 3 g'
                  ten_rows ten_labels (1 # 5) None sp Hsplit)).
Defined.

(** *** The metrics of a holdout set *)

(** C4.  The true labels the metrics are computed on are the test part of a
    split that succeeded, and such a part is never empty.  For every such
    holdout set and every sequence of as many predicted labels, the four
    metrics are computed, each lies in [0,1], and accuracy is 1 exactly when
    every prediction is the true label.  (On no sample at all the library
    raises [ValueError]; [train_models] never gets there.) *)
Theorem holdout_metrics_bounded {R : RandomState} {L : RandomStateLaws R}
        (g g' : rng) (X : features) (y : labels) (test_size : Q)
        (random_state : option Z) (sp : split) (y_pred : labels) :
  train_test_split g X y test_size random_state = (g', Ok sp) ->
  length (y_test sp) = length y_pred ->
  exists a p r f,
    accuracy_score (y_test sp) y_pred = Ok (Fin a)
    /\ precision_score_weighted (y_test sp) y_pred = Ok p
    /\ recall_score_weighted (y_test sp) y_pred = Ok r
    /\ f1_score_weighted (y_test sp) y_pred = Ok f
    /\ (0 <= a /\ a <= 1)%Q /\ (0 <= p /\ p <= 1)%Q
    /\ (0 <= r /\ r <= 1)%Q /\ (0 <= f /\ f <= 1)%Q
    /\ ((a == 1)%Q <-> y_pred = y_test sp).
Proof.
  intros Hsplit Hlen. apply metrics_bounded; [|exact Hlen].
  now destruct (train_test_split_ok_facts _ _ _ _ _ _ _ Hsplit) as (_ & _ & _ & _ & H & _).
Qed.

Lemma holdout_metrics_bounded_witness :
  accuracy_score (y_test ten_split) [0; 0]%Z = Ok (Fin (1 # 2))
  /\ exists p, precision_score_weighted (y_test ten_split) [0; 0]%Z = Ok p /\ (p <= 1)%Q.
Proof.
  destruct (@holdout_metrics_bounded fixed_rng fixed_rng_laws tt tt
              ten_rows ten_labels (1 # 5) (Some 42%Z) ten_split [0; 0]%Z)
    as (a & p & r & f & Ha & Hp & _ & _ & _ & Hpb & _).
  - reflexivity.
  - reflexivity.
  - split; [reflexivity|]. exists p. split; [exact Hp|apply Hpb].
Defined.

(** With no sample at all nothing is computed. *)
Example no_sample_no_metric :
  (exists e, accuracy_score [] [] = Raise e /\ exn_class e = "ValueError")
  /\ (exists e, f1_score_weighted [] [] = Raise e /\ exn_class e = "ValueError").
Proof. split; eexists; split; reflexivity. Qed.

(** *** What the recorded reports hold *)

Lemma weighted_score_ok_length per_class (y_true y_pred : labels) (v : Q) :
  weighted_score per_class y_true y_pred = Ok v -> length y_true = length y_pred.
Proof.
  unfold weighted_score.
  destruct (check_targets y_true y_pred) as [[]|e] eqn:Hc; [|discriminate].
  intros _. now apply check_targets_inv.
Qed.

Lemma dict_set_Forall {V : Type} (P : V -> Prop) (k : string) (v : V) (d : dict V) :
  Forall (fun kv => P (snd kv)) d -> P v ->
  Forall (fun kv => P (snd kv)) (dict_set k v d).
Proof.
  intros Hd Hv. induction d as [|[k' v'] d IH]; simpl.
  - now constructor.
  - apply Forall_cons in Hd as [Hhd Hd].
    destruct (String.eqb k' k); constructor; auto.
Qed.

Section Reports.
Context {E : Estimator} {R : RandomState} {L : RandomStateLaws R}.
Implicit Types (p : predictor) (sp : split).

Lemma train_one_report sp p name r :
  y_test sp <> [] ->
  Forall (fun kv => report_in_range (snd kv)) (model_scores p) ->
  Forall (fun kv => report_in_range (snd kv))
         (model_scores (fst (train_one sp p name r))).
Proof.
  intros Hne Hp. unfold train_one. destruct (fit _ _ _) as [m [e|]]; [exact Hp|].
  destruct (predict m (X_test sp)) as [y_pred|e]; [|exact Hp]. simpl.
  destruct (accuracy_score (y_test sp) y_pred) as [acc|e] eqn:Hacc; [|exact Hp]. simpl.
  destruct (precision_score_weighted (y_test sp) y_pred) as [pr|e] eqn:Hpr;
    [|exact Hp]. simpl.
  destruct (recall_score_weighted (y_test sp) y_pred) as [re|e] eqn:Hre;
    [|exact Hp]. simpl.
  destruct (f1_score_weighted (y_test sp) y_pred) as [f|e] eqn:Hf; [|exact Hp]. simpl.
  destruct (cross_val_score m (X_train sp) (y_train sp) 5) as [cv|e]; [|exact Hp]. simpl.
  apply dict_set_Forall; [exact Hp|].
  pose proof (weighted_score_ok_length _ _ _ _ Hpr) as Hlen.
  destruct (metrics_bounded _ _ Hne Hlen)
    as (a & p' & r' & f' & Ha & Hp' & Hr' & Hf' & Hab & Hpb & Hrb & Hfb & _).
  rewrite Hacc in Ha. injection Ha as ->.
  rewrite Hpr in Hp'. injection Hp' as ->.
  rewrite Hre in Hr'. injection Hr' as ->.
  rewrite Hf in Hf'. injection Hf' as ->.
  exists a. simpl. auto.
Qed.

Lemma train_loop_reports sp items : forall p,
  y_test sp <> [] ->
  Forall (fun kv => report_in_range (snd kv)) (model_scores p) ->
  Forall (fun kv => report_in_range (snd kv))
         (model_scores (fst (train_loop sp items p))).
Proof.
  induction items as [|[name r] items IH]; intros p Hne Hp; simpl; [exact Hp|].
  pose proof (train_one_report sp p name r Hne Hp) as Hone.
  destruct (train_one sp p name r) as [p1 [[]|e]]; simpl in *; [now apply IH|exact Hone].
Qed.

Lemma train_models_reports g p X y :
  Forall (fun kv => report_in_range (snd kv)) (model_scores p) ->
  Forall (fun kv => report_in_range (snd kv))
         (model_scores (fst (snd (train_models g p X y)))).
Proof.
  intros Hp. unfold train_models.
  destruct (train_test_split g X y (1 # 5) (Some 42%Z)) as [g' [sp|e]] eqn:Hsplit;
    simpl; [|exact Hp].
  apply train_loop_reports; [|exact Hp].
  now destruct (train_test_split_ok_facts _ _ _ _ _ _ _ Hsplit) as (_ & _ & _ & _ & H & _).
Qed.

Lemma run_reports calls : forall (w : world) p,
  Forall (fun kv => report_in_range (snd kv)) (model_scores p) ->
  Forall (fun kv => report_in_range (snd kv)) (model_scores (snd (run calls (w, p)))).
Proof.
  induction calls as [|c calls IH]; intros w p Hp; [exact Hp|].
  rewrite run_cons.
  assert (H : Forall (fun kv => report_in_range (snd kv))
                     (model_scores (snd (step c (w, p))))).
  { destruct c as [X y| |out|]; simpl; try exact Hp.
    - pose proof (train_models_reports (np_random w) p X y Hp) as H.
      destruct (train_models (np_random w) p X y) as [g [p' res]]. exact H.
    - now destruct (save_models (recursion_room w) (disk w) p out). }
  destruct (step c (w, p)) as [w' p']. now apply IH.
Qed.

(** X7.  Every report a predictor ever holds is in range: its accuracy is a
    number of [0,1] (never not-a-number), and its precision, recall and F1 lie
    in [0,1]. *)
Theorem recorded_reports_in_range
        (h : ref -> model) (registry : dict ref) (calls : list call) (w : world)
        (name : string) (s : scores) :
  (name, s) ∈ model_scores (snd (run calls (w, new_predictor h registry))) ->
  report_in_range s.
Proof.
  intros Hin.
  pose proof (run_reports calls w (new_predictor h registry) ltac:(constructor)) as H.
  rewrite Forall_forall in H. apply (H (name, s) Hin).
Qed.
End Reports.

Lemma recorded_reports_in_range_witness :
  exists s, dict_get "svm" (model_scores trained_toy) = Some s /\ report_in_range s.
Proof.
  destruct (dict_get "svm" (model_scores trained_toy)) as [s|] eqn:Hs;
    [|vm_compute in Hs; discriminate].
  exists s. split; [reflexivity|].
  apply (@recorded_reports_in_range toy_estimator fixed_rng fixed_rng_laws
           (@heap toy_estimator (@__init__ toy_estimator))
           (@models toy_estimator (@__init__ toy_estimator))
           [TrainModels ten_rows ten_labels] toy_world "svm" s).
  vm_compute in Hs. injection Hs as <-.
  apply (list_elem_of_lookup_2 _ 1). vm_compute. reflexivity.
Defined.

(** *** Numbers of [0,1] in the report *)

Lemma round_half_even_thousand (q : Q) :
  (0 <= q)%Q -> (q <= 1)%Q -> (0 <= round_half_even (Qabs q * 1000) <= 1000)%Z.
Proof.
  intros H0 H1.
  assert (Ha : (0 <= Qabs q /\ Qabs q <= 1)%Q).
  { split; [apply Qabs_nonneg|]. apply Qabs_Qle_condition. split; lra. }
  destruct Ha as [Ha0 Ha1]. generalize dependent (Qabs q). intros a Ha0 Ha1.
  split.
  - apply round_half_even_nonneg. apply Qmult_le_0_compat; [exact Ha0|discriminate].
  - pose proof (round_half_even_error (a * 1000)) as He.
    apply Qabs_Qle_condition in He as [_ He].
    assert (Hlt : (inject_Z (round_half_even (a * 1000)) < inject_Z 1001)%Q).
    { change (inject_Z 1001) with 1001%Q. lra. }
    rewrite <- Zlt_Qlt in Hlt. lia.
Qed.

Lemma format_3f_unit_interval (q : Q) :
  (0 <= q)%Q -> (q <= 1)%Q -> unit_interval_text (format_3f (Fin q)).
Proof.
  intros H0 H1. pose proof (round_half_even_thousand q H0 H1) as Ht.
  unfold format_3f. set (t := round_half_even (Qabs q * 1000)) in *. clearbody t.
  destruct (Qlt_le_dec q 0) as [Hneg|_]; [lra|].
  destruct (Z.eq_dec t 1000%Z) as [-> | Hne].
  - left. reflexivity.
  - right. exists (t / 100 mod 10)%Z, (t / 10 mod 10)%Z, (t mod 10)%Z.
    repeat split; try (apply Z.mod_pos_bound; lia).
    replace (t / 1000)%Z with 0%Z by (symmetry; apply Z.div_small; lia).
    reflexivity.
Qed.

Section ReportText.
Context {E : Estimator} {R : RandomState} {L : RandomStateLaws R}.

(** X8.  In every report a predictor ever holds, accuracy, precision, recall
    and F1 are printed as ["1.000"] or as ["0."] and three digits: never
    ["nan"], never a sign, always five characters. *)
Theorem report_numbers_printed_in_unit_interval
        (h : ref -> model) (registry : dict ref) (calls : list call) (w : world)
        (name : string) (s : scores) :
  (name, s) ∈ model_scores (snd (run calls (w, new_predictor h registry))) ->
  unit_interval_text (format_3f (accuracy s))
  /\ unit_interval_text (format_3f (Fin (precision s)))
  /\ unit_interval_text (format_3f (Fin (recall s)))
  /\ unit_interval_text (format_3f (Fin (f1 s))).
Proof.
  intros Hin.
  pose proof (run_reports calls w (new_predictor h registry) ltac:(constructor)) as H.
  rewrite Forall_forall in H.
  destruct (H (name, s) Hin) as (a & Ha & [Ha0 Ha1] & [Hp0 Hp1] & [Hr0 Hr1] & [Hf0 Hf1]).
  simpl in Ha. rewrite Ha.
  repeat split; apply format_3f_unit_interval; assumption.
Qed.
End ReportText.

Lemma report_numbers_printed_in_unit_interval_witness :
  exists s, dict_get "svm" (model_scores trained_toy) = Some s
            /\ unit_interval_text (format_3f (accuracy s))
            /\ unit_interval_text (format_3f (Fin (f1 s))).
Proof.
  destruct (dict_get "svm" (model_scores trained_toy)) as [s|] eqn:Hs;
    [|vm_compute in Hs; discriminate].
  exists s. split; [reflexivity|].
  destruct (@report_numbers_printed_in_unit_interval toy_estimator fixed_rng
              fixed_rng_laws
              (@heap toy_estimator (@__init__ toy_estimator))
              (@models toy_estimator (@__init__ toy_estimator))
              [TrainModels ten_rows ten_labels] toy_world "svm" s)
    as (Ha & _ & _ & Hf); [|now split].
  vm_compute in Hs. injection Hs as <-.
  apply (list_elem_of_lookup_2 _ 1). vm_compute. reflexivity.
Defined.

(** *** The estimator objects: what training fits *)

Section Objects.
Context {E : Estimator} {R : RandomState}.
Implicit Types (p : predictor) (sp : split) (r : ref).

Lemma train_one_heap sp p name r :
  heap (fst (train_one sp p name r))
  = heap (set_heap p r (fst (fit (heap p r) (X_train sp) (y_train sp)))).
Proof.
  unfold train_one. destruct (fit _ _ _) as [m [e|]]; [reflexivity|].
  match goal with |- context [match ?o with Ok _ => _ | Raise _ => _ end] =>
    destruct o as [s|e] end; reflexivity.
Qed.

Lemma train_loop_heap_frame sp items r : forall p,
  r ∉ items.*2 ->
  heap (fst (train_loop sp items p)) r = heap p r.
Proof.
  induction items as [|[name r0] items IH]; intros p Hr; [reflexivity|].
  simpl in Hr. apply not_elem_of_cons in Hr as [Hne Hr]. simpl.
  pose proof (train_one_heap sp p name r0) as Hone.
  destruct (train_one sp p name r0) as [p1 [[]|e]]; simpl in *.
  - rewrite IH by exact Hr. rewrite Hone. simpl.
    destruct (Nat.eqb_spec r r0); [contradiction|reflexivity].
  - rewrite Hone. simpl. destruct (Nat.eqb_spec r r0); [contradiction|reflexivity].
Qed.

Lemma train_loop_heap_fitted sp items : forall p p' name r,
  NoDup (items.*2) ->
  train_loop sp items p = (p', Ok tt) ->
  (name, r) ∈ items ->
  heap p' r = fst (fit (heap p r) (X_train sp) (y_train sp)).
Proof.
  induction items as [|[n0 r0] items IH]; intros p p' name r Hnd Hrun Hin.
  - inversion Hin.
  - simpl in Hnd. apply NoDup_cons in Hnd as [Hfresh Hnd]. simpl in Hrun.
    pose proof (train_one_heap sp p n0 r0) as Hone.
    destruct (train_one sp p n0 r0) as [p1 [[]|e]]; [|discriminate]. simpl in Hone.
    apply elem_of_cons in Hin as [Heq|Hin].
    + injection Heq as -> ->.
      pose proof (train_loop_heap_frame sp items r0 p1 Hfresh) as Hfr.
      rewrite Hrun in Hfr. simpl in Hfr. rewrite Hfr, Hone. simpl.
      now rewrite Nat.eqb_refl.
    + rewrite (IH p1 p' name r Hnd Hrun Hin), Hone. simpl.
      destruct (Nat.eqb_spec r r0) as [->|Hne]; [|reflexivity].
      exfalso. apply Hfresh. apply (list_elem_of_fmap_2 snd) in Hin. exact Hin.
Qed.

(** X11.  [train_models] touches no estimator object outside the registry:
    whatever happens during training, an object that is not registered is
    afterwards as it was before. *)
Theorem train_models_leaves_unregistered_objects
        (g : rng) (p : predictor) (X : features) (y : labels) (r : ref) :
  r ∉ (models p).*2 ->
  heap (fst (snd (train_models g p X y))) r = heap p r.
Proof.
  intros Hr. unfold train_models.
  destruct (train_test_split g X y (1 # 5) (Some 42%Z)) as [g' [sp|e]]; simpl;
    [|reflexivity].
  now apply train_loop_heap_frame.
Qed.

End Objects.

(** *** Path names *)

Lemma append_cons (c : ascii) (a b : string) : String c a +:+ b = String c (a +:+ b).
Proof. reflexivity. Qed.

Lemma append_nil_l (b : string) : "" +:+ b = b.
Proof. reflexivity. Qed.

Lemma length_append (a b : string) :
  String.length (a +:+ b) = String.length a + String.length b.
Proof. induction a as [|c a IH]; [reflexivity|]. rewrite append_cons. simpl. now rewrite IH. Qed.

Lemma append_eq_nil (a b : string) : a +:+ b = "" -> a = "" /\ b = "".
Proof. destruct a; [auto|discriminate]. Qed.

Lemma has_nul_append (a b : string) : has_nul (a +:+ b) = has_nul a || has_nul b.
Proof.
  induction a as [|c a IH]; [reflexivity|]. rewrite append_cons. simpl.
  now rewrite IH, orb_assoc.
Qed.

Lemma absolute_append (a b : string) : a <> "" -> absolute (a +:+ b) = absolute a.
Proof. destruct a; [congruence|reflexivity]. Qed.

Lemma trailing_slash_append (a b : string) :
  b <> "" -> trailing_slash (a +:+ b) = trailing_slash b.
Proof.
  intros Hb. induction a as [|c a IH]; [reflexivity|]. rewrite append_cons.
  simpl. destruct (a +:+ b) eqn:Hab; [|exact IH].
  apply append_eq_nil in Hab as [_ ?]. contradiction.
Qed.

Lemma pieces_nonempty (s : string) : pieces s <> [].
Proof.
  induction s as [|c s IH]; simpl; [discriminate|].
  destruct (is_slash c); [discriminate|]. now destruct (pieces s).
Qed.

Lemma pieces_slash_free (s : string) : slash_free s = true -> pieces s = [s].
Proof.
  induction s as [|c s IH]; simpl; [reflexivity|].
  intros [Hc Hs]%andb_prop. destruct (is_slash c); [discriminate|].
  now rewrite (IH Hs).
Qed.

Lemma pieces_append_slash (a b : string) :
  pieces (a +:+ String "/" b) = pieces a ++ pieces b.
Proof.
  induction a as [|c a IH].
  - reflexivity.
  - rewrite append_cons. simpl. rewrite IH. destruct (is_slash c); [reflexivity|].
    pose proof (pieces_nonempty a). now destruct (pieces a).
Qed.

Lemma names_slash_free (s : string) :
  slash_free s = true -> s <> "" -> names s = [s].
Proof.
  intros Hs Hne. unfold names. rewrite (pieces_slash_free s Hs). simpl.
  destruct (String.eqb_spec s ""); [contradiction|reflexivity].
Qed.

Lemma names_nil : names "" = [].
Proof. reflexivity. Qed.

Lemma names_append_slash (a b : string) :
  names (a +:+ String "/" b) = names a ++ names b.
Proof. unfold names. now rewrite pieces_append_slash, List.filter_app. Qed.

Lemma slash_free_append (a b : string) :
  slash_free (a +:+ b) = slash_free a && slash_free b.
Proof.
  induction a as [|c a IH]; [reflexivity|]. rewrite append_cons. simpl.
  now rewrite IH, andb_assoc.
Qed.

(** *** Splitting a path as [os.makedirs] does *)

Lemma is_slash_eq (c : ascii) : is_slash c = true -> c = "/"%char.
Proof. apply Ascii.eqb_eq. Qed.

Lemma names_all_slash (z : string) : all_slash z = true -> names z = [].
Proof.
  induction z as [|c z IH]; [reflexivity|]. simpl.
  intros [Hc Hz]%andb_prop. apply is_slash_eq in Hc as ->.
  change (String "/" z) with ("" +:+ String "/" z). rewrite names_append_slash.
  now rewrite IH.
Qed.

Lemma names_all_slash_l (z b : string) :
  all_slash z = true -> names (z +:+ b) = names b.
Proof.
  induction z as [|c z IH]; [reflexivity|]. simpl.
  intros [Hc Hz]%andb_prop. apply is_slash_eq in Hc as ->.
  rewrite append_cons. change (String "/" (z +:+ b)) with ("" +:+ String "/" (z +:+ b)).
  rewrite names_append_slash. now rewrite IH.
Qed.

Lemma names_all_slash_r (a z : string) :
  all_slash z = true -> names (a +:+ z) = names a.
Proof.
  destruct z as [|c z]; [now rewrite string_app_nil_r|]. simpl.
  intros [Hc Hz]%andb_prop. apply is_slash_eq in Hc as ->.
  rewrite names_append_slash, (names_all_slash z Hz). apply app_nil_r.
Qed.

Lemma trailing_slash_all_slash (z : string) :
  all_slash z = true -> z <> "" -> trailing_slash z = true.
Proof.
  induction z as [|c z IH]; [congruence|]. simpl.
  intros [Hc Hz]%andb_prop _. destruct z as [|d z]; [exact Hc|].
  apply IH; [exact Hz|discriminate].
Qed.

Lemma rsplit_spec (p : string) :
  p = fst (rsplit p) +:+ snd (rsplit p)
  /\ slash_free (snd (rsplit p)) = true
  /\ (fst (rsplit p) = "" \/ exists h, fst (rsplit p) = h +:+ "/").
Proof.
  induction p as [|c p (Heq & Hfree & Hhead)]; [simpl; auto|].
  simpl. destruct (rsplit p) as [h t]. simpl in *.
  destruct (String.eqb_spec h "") as [->|Hne].
  - rewrite append_nil_l in Heq. subst p. destruct (is_slash c) eqn:Hc.
    + apply is_slash_eq in Hc as ->. simpl. split; [reflexivity|].
      split; [exact Hfree|]. right. now exists "".
    + simpl. rewrite Hc, Hfree. auto.
  - simpl. split; [now rewrite Heq at 1|]. split; [exact Hfree|]. right.
    destruct Hhead as [|[h' ->]]; [contradiction|]. now exists (String c h').
Qed.

Lemma rstrip_slash_spec (s : string) :
  exists z, all_slash z = true /\ s = rstrip_slash s +:+ z.
Proof.
  induction s as [|c s (z & Hz & Heq)]; [now exists ""|].
  simpl. destruct (rstrip_slash s) as [|d r] eqn:Hr.
  - rewrite append_nil_l in Heq. subst z. destruct (is_slash c) eqn:Hc.
    + exists (String c s). simpl. now rewrite Hc, Hz.
    + now exists s.
  - exists z. split; [exact Hz|]. now rewrite Heq at 1.
Qed.

Lemma rstrip_slash_no_trailing (s : string) :
  trailing_slash (rstrip_slash s) = false.
Proof.
  induction s as [|c s IH]; [reflexivity|]. simpl.
  destruct (rstrip_slash s) as [|d r] eqn:Hr.
  - destruct (is_slash c) eqn:Hc; [reflexivity|]. simpl. exact Hc.
  - exact IH.
Qed.

Lemma rstrip_slash_nil (s : string) : rstrip_slash s = "" -> all_slash s = true.
Proof.
  intros Hs. destruct (rstrip_slash_spec s) as (z & Hz & Heq).
  rewrite Hs, append_nil_l in Heq. now subst z.
Qed.

Lemma names_cases (t : string) :
  slash_free t = true -> names t = if String.eqb t "" then [] else [t].
Proof.
  intros Ht. destruct (String.eqb_spec t "") as [->|Hne]; [reflexivity|].
  now apply names_slash_free.
Qed.

(** [posixpath.split]: the head is the start of the path, the tail its last
    name, if the path does not end in a slash. *)
Lemma posixpath_split_spec (p : string) :
  let '(head, tail) := posixpath_split p in
  slash_free tail = true
  /\ names p = names head ++ names tail
  /\ (exists z, p = head +:+ z)
  /\ (all_slash head = true \/ trailing_slash head = false)
  /\ (tail = "" -> p = "" \/ trailing_slash p = true).
Proof.
  unfold posixpath_split. destruct (rsplit_spec p) as (Heq & Hfree & Hhead).
  destruct (rsplit p) as [raw tail]. simpl in *.
  assert (Hnames : names p = names raw ++ names tail).
  { destruct Hhead as [->|[h ->]].
    - rewrite append_nil_l in Heq. now subst p.
    - rewrite Heq, string_app_assoc. change ("/" +:+ tail) with (String "/" tail).
      rewrite names_append_slash.
      change (h +:+ "/") with (h +:+ String "/" ""). rewrite names_append_slash.
      simpl. now rewrite app_nil_r. }
  assert (Htail : tail = "" -> p = "" \/ trailing_slash p = true).
  { intros ->. rewrite string_app_nil_r in Heq. subst raw.
    destruct Hhead as [->|[h ->]]; [now left|right].
    now rewrite trailing_slash_append by discriminate. }
  destruct (rstrip_slash_spec raw) as (z & Hz & Hraw).
  destruct (String.eqb_spec raw "") as [->|Hne]; simpl.
  - split; [exact Hfree|]. split; [exact Hnames|]. split; [now exists p|].
    split; [now left|exact Htail].
  - destruct (String.eqb_spec (rstrip_slash raw) "") as [Hs|Hs]; simpl.
    + split; [exact Hfree|]. split; [exact Hnames|].
      split; [exists tail; exact Heq|]. split; [|exact Htail].
      left. now apply rstrip_slash_nil.
    + split; [exact Hfree|]. split.
      { rewrite Hnames. f_equal. rewrite Hraw at 1. now apply names_all_slash_r. }
      split.
      { exists (z +:+ tail). rewrite <- string_app_assoc, <- Hraw. exact Heq. }
      split; [right; apply rstrip_slash_no_trailing|exact Htail].
Qed.

Lemma leaf_split_spec (name : string) :
  let '(head, tail) := leaf_split name in
  slash_free tail = true
  /\ (exists z, name = head +:+ z)
  /\ (tail = "" -> names name = [])
  /\ (tail <> "" -> names name = names head ++ [tail]).
Proof.
  unfold leaf_split. pose proof (posixpath_split_spec name) as H1.
  destruct (posixpath_split name) as [head1 tail1].
  destruct H1 as (Hfree1 & Hnames1 & [z1 Hpre1] & Hhead1 & Htail1).
  destruct (String.eqb_spec tail1 "") as [->|Hne1].
  - pose proof (posixpath_split_spec head1) as H2.
    destruct (posixpath_split head1) as [head tail].
    destruct H2 as (Hfree & Hnames & [z Hpre] & _ & Htail).
    simpl in Hnames1. rewrite app_nil_r in Hnames1.
    split; [exact Hfree|]. split.
    { exists (z +:+ z1). now rewrite <- string_app_assoc, <- Hpre. }
    split.
    + intros Ht. rewrite Hnames1. destruct (Htail Ht) as [->|Htr]; [reflexivity|].
      destruct Hhead1 as [Hall|Hno]; [now apply names_all_slash|congruence].
    + intros Ht. rewrite Hnames1, Hnames, (names_cases tail Hfree).
      now destruct (String.eqb_spec tail "").
  - split; [exact Hfree1|]. split; [now exists z1|]. split; [contradiction|].
    intros _. rewrite Hnames1, (names_cases tail1 Hfree1).
    now destruct (String.eqb_spec tail1 "").
Qed.

(** *** Walking and what a path leads to *)

Lemma walk_app fs p loc ns1 : forall ns2 loc0,
  loc0 = loc ->
  walk fs p loc0 (ns1 ++ ns2)
  = try! l := walk fs p loc0 ns1 in walk fs p l ns2.
Proof.
  revert loc. induction ns1 as [|n ns1 IH]; intros loc ns2 loc0 ->; [reflexivity|].
  simpl. destruct (Nat.ltb _ _); [reflexivity|].
  destruct (String.eqb n "."); [now apply (IH loc)|].
  destruct (String.eqb n ".."); [now apply (IH (List.removelast loc))|].
  destruct (node_at fs (loc ++ [n])) as [[|c]|]; try reflexivity.
  now apply (IH (loc ++ [n])).
Qed.

(** The path handed to [walk] only serves the message of an exception. *)
Lemma walk_path fs p p' ns : forall loc d,
  walk fs p loc ns = Ok d -> walk fs p' loc ns = Ok d.
Proof.
  induction ns as [|n ns IH]; intros loc d; simpl; [auto|].
  destruct (Nat.ltb _ _); [discriminate|].
  destruct (String.eqb n "."); [apply IH|].
  destruct (String.eqb n ".."); [apply IH|].
  destruct (node_at fs (loc ++ [n])) as [[|c]|]; try discriminate. apply IH.
Qed.

Lemma walk_mono fs fs' p ns : forall loc d,
  dirs_kept fs fs' -> walk fs p loc ns = Ok d -> walk fs' p loc ns = Ok d.
Proof.
  induction ns as [|n ns IH]; intros loc d Hk; simpl; [auto|].
  destruct (Nat.ltb _ _); [discriminate|].
  destruct (String.eqb n "."); [now apply IH|].
  destruct (String.eqb n ".."); [now apply IH|].
  destruct (node_at fs (loc ++ [n])) as [[|c]|] eqn:Hn; try discriminate.
  rewrite (proj2 Hk _ Hn). now apply IH.
Qed.

Lemma dirs_kept_refl fs : dirs_kept fs fs.
Proof. split; auto. Qed.

Lemma dirs_kept_trans fs1 fs2 fs3 :
  dirs_kept fs1 fs2 -> dirs_kept fs2 fs3 -> dirs_kept fs1 fs3.
Proof. intros [H1 H2] [H3 H4]. split; [congruence|auto]. Qed.

Lemma node_at_snoc fs (loc : list string) (n : string) :
  node_at fs (loc ++ [n]) = tree fs !! (loc ++ [n]).
Proof. unfold node_at. now destruct loc. Qed.

Lemma node_at_insert fs (k : list string) (v : node) (loc : list string) :
  k <> [] ->
  node_at {| cwd := cwd fs; tree := <[ k := v ]> (tree fs) |} loc
  = if decide (loc = k) then Some v else node_at fs loc.
Proof.
  intros Hk. unfold node_at. simpl. destruct loc as [|n loc].
  - destruct (decide ([] = k)); [congruence|reflexivity].
  - destruct (decide (n :: loc = k)) as [<-|Hne].
    + apply lookup_insert_eq.
    + now apply lookup_insert_ne.
Qed.

(** Putting a directory or a file where no directory was keeps every
    directory. *)
Lemma dirs_kept_insert fs (k : list string) (v : node) :
  k <> [] -> node_at fs k <> Some Dir ->
  dirs_kept fs {| cwd := cwd fs; tree := <[ k := v ]> (tree fs) |}.
Proof.
  intros Hk Hno. split; [reflexivity|]. intros loc Hloc.
  rewrite node_at_insert by exact Hk. destruct (decide (loc = k)) as [->|]; [|exact Hloc].
  contradiction.
Qed.

Lemma dirs_kept_insert_file fs (k : list string) (c : string) :
  k <> [] -> node_at fs k <> Some Dir ->
  dirs_kept {| cwd := cwd fs; tree := <[ k := File c ]> (tree fs) |} fs.
Proof.
  intros Hk Hno. split; [reflexivity|]. intros loc.
  rewrite node_at_insert by exact Hk. destruct (decide (loc = k)); [discriminate|auto].
Qed.

Lemma check_path_ok (p : string) :
  check_path p = Ok tt
  <-> has_nul p = false /\ p <> "" /\ String.length p < PATH_MAX.
Proof.
  unfold check_path. destruct (has_nul p); [split; [discriminate|intros [? _]; discriminate]|].
  destruct (String.eqb_spec p "") as [->|Hne].
  { split; [discriminate|]. intros (_ & H & _). congruence. }
  destruct (Nat.leb_spec PATH_MAX (String.length p)).
  - split; [discriminate|]. intros (_ & _ & H'). lia.
  - split; auto.
Qed.

Lemma check_path_prefix (a z : string) :
  check_path (a +:+ z) = Ok tt -> a <> "" -> check_path a = Ok tt.
Proof.
  rewrite !check_path_ok, has_nul_append, length_append.
  intros (Hn & _ & Hl) Ha. apply orb_false_elim in Hn as [Hn _].
  repeat split; [exact Hn|exact Ha|lia].
Qed.

(** [namei] on a path with at least one name. *)
Lemma namei_snoc fs (p : string) (opening : bool) (init : list string) (final : string) :
  names p = init ++ [final] ->
  namei fs p opening
  = try! _ := check_path p in
    try! loc := walk fs p (if absolute p then [] else cwd fs) init in
    if opening && trailing_slash p then Raise (IsADirectoryError p)
    else if Nat.ltb NAME_MAX (String.length final) then
      Raise (OSError "File name too long")
    else if String.eqb final "." then Ok (Reached loc)
    else if String.eqb final ".." then Ok (Reached (List.removelast loc))
    else Ok (Entry (loc ++ [final])).
Proof.
  intros Hn. unfold namei. rewrite Hn.
  destruct (init ++ [final]) as [|x l] eqn:E.
  { now destruct init. }
  rewrite <- E, removelast_last, last_last. reflexivity.
Qed.

Lemma names_cases_rev (p : string) :
  names p = [] \/ exists init final, names p = init ++ [final].
Proof.
  destruct (names p) as [|x l] using rev_ind; [now left|right]. now exists l, x.
Qed.

Lemma namei_mono fs fs' (p : string) (opening : bool) (t : target) :
  dirs_kept fs fs' -> namei fs p opening = Ok t -> namei fs' p opening = Ok t.
Proof.
  intros Hk. destruct (names_cases_rev p) as [Hn|(init & final & Hn)].
  - unfold namei. rewrite Hn, (proj1 Hk). auto.
  - rewrite !(namei_snoc _ p opening init final Hn), (proj1 Hk).
    destruct (check_path p) as [[]|e]; [|discriminate]. simpl.
    destruct (walk fs p _ init) as [loc|e] eqn:Hw; [|discriminate].
    now rewrite (walk_mono fs fs' _ _ _ _ Hk Hw).
Qed.

(** A path all of whose names can be walked is a directory. *)
Lemma stat_of_walk fs (p p' : string) (d : list string) :
  check_path p = Ok tt ->
  walk fs p' (if absolute p then [] else cwd fs) (names p) = Ok d ->
  stat fs p = Ok Dir.
Proof.
  intros Hc Hw. unfold stat.
  destruct (names_cases_rev p) as [Hn|(init & final & Hn)].
  - unfold namei. now rewrite Hc, Hn.
  - rewrite (namei_snoc _ p false init final Hn), Hc. simpl.
    rewrite Hn, (walk_app fs p' _ init [final] _ eq_refl) in Hw.
    destruct (walk fs p' _ init) as [loc|e] eqn:Hi; [|discriminate].
    rewrite (walk_path fs p' p _ _ _ Hi). simpl in *.
    destruct (Nat.ltb _ _); [discriminate|].
    destruct (String.eqb final "."); [reflexivity|].
    destruct (String.eqb final ".."); [reflexivity|].
    simpl. now destruct (node_at fs (loc ++ [final])) as [[|c]|].
Qed.

(** Once the path of a call has been resolved, the head that [makedirs] would
    descend into is a directory. *)
Lemma leaf_split_head_exists fs (name : string) (opening : bool) (t : target) :
  namei fs name opening = Ok t ->
  fst (leaf_split name) <> "" -> snd (leaf_split name) <> "" ->
  stat fs (fst (leaf_split name)) = Ok Dir.
Proof.
  pose proof (leaf_split_spec name) as Hspec.
  destruct (leaf_split name) as [head tail]. simpl.
  destruct Hspec as (_ & [z Hpre] & _ & Hnames).
  intros Hnamei Hhead Htail. specialize (Hnames Htail).
  rewrite (namei_snoc _ name opening _ _ Hnames) in Hnamei.
  destruct (check_path name) as [[]|e] eqn:Hc; [|discriminate]. simpl in Hnamei.
  destruct (walk fs name _ (names head)) as [loc|e] eqn:Hw; [|discriminate].
  assert (Habs : absolute name = absolute head).
  { rewrite Hpre. now apply absolute_append. }
  rewrite Habs in Hw. apply (stat_of_walk fs head name loc); [|exact Hw].
  rewrite Hpre in Hc. now apply check_path_prefix in Hc.
Qed.

(** *** [os.makedirs] *)

Lemma makedirs_S (room : nat) fs (name : string) (exist_ok : bool) :
  makedirs (S room) fs name exist_ok
  = let '(head, tail) := leaf_split name in
    if negb (String.eqb head "") && negb (String.eqb tail "")
       && negb (path_exists fs head)
    then
      let '(fs1, made) := makedirs room fs head exist_ok in
      match made with
      | Raise e =>
          if String.eqb (exn_class e) "FileExistsError" then
            if String.eqb tail "." then (fs1, Ok tt)
            else mkdir_or_accept fs1 name exist_ok
          else (fs1, Raise e)
      | Ok _ =>
          if String.eqb tail "." then (fs1, Ok tt)
          else mkdir_or_accept fs1 name exist_ok
      end
    else mkdir_or_accept fs name exist_ok.
Proof. reflexivity. Qed.

(** With the path resolved, [makedirs] does not descend. *)
Lemma makedirs_resolved (room : nat) fs (name : string) (opening exist_ok : bool)
      (t : target) :
  namei fs name opening = Ok t ->
  makedirs (S room) fs name exist_ok = mkdir_or_accept fs name exist_ok.
Proof.
  intros Hnamei. rewrite makedirs_S.
  pose proof (leaf_split_head_exists fs name opening t Hnamei) as Hhead.
  destruct (leaf_split name) as [head tail]. simpl in Hhead.
  destruct (String.eqb_spec head "") as [|Hh]; [reflexivity|].
  destruct (String.eqb_spec tail "") as [|Ht]; [reflexivity|].
  unfold path_exists. now rewrite (Hhead Hh Ht).
Qed.

Lemma stat_ok_namei fs (p : string) (n : node) :
  stat fs p = Ok n -> exists t, namei fs p false = Ok t.
Proof.
  unfold stat. destruct (namei fs p false) as [t|e]; [eauto|discriminate].
Qed.

Lemma stat_ok_mkdir fs (p : string) (n : node) :
  stat fs p = Ok n -> mkdir fs p = Raise (FileExistsError p).
Proof.
  unfold stat, mkdir. destruct (namei fs p false) as [[loc|loc]|e]; simpl;
    [reflexivity| |discriminate].
  now destruct (node_at fs loc).
Qed.

(** [makedirs(exist_ok=True)] on an existing directory returns and changes
    nothing. *)
Lemma makedirs_existing (room : nat) fs (name : string) :
  isdir fs name = true -> makedirs (S room) fs name true = (fs, Ok tt).
Proof.
  unfold isdir. intros Hdir.
  destruct (stat fs name) as [[|c]|e] eqn:Hstat; try discriminate.
  destruct (stat_ok_namei _ _ _ Hstat) as [t Ht].
  rewrite (makedirs_resolved room fs name false true t Ht).
  unfold mkdir_or_accept, isdir. now rewrite (stat_ok_mkdir _ _ _ Hstat), Hstat.
Qed.

(** A regular file in the way: [FileExistsError], and nothing changes. *)
Lemma makedirs_file_in_the_way (room : nat) fs (name content : string) (exist_ok : bool) :
  stat fs name = Ok (File content) ->
  makedirs (S room) fs name exist_ok = (fs, Raise (FileExistsError name)).
Proof.
  intros Hstat. destruct (stat_ok_namei _ _ _ Hstat) as [t Ht].
  rewrite (makedirs_resolved room fs name false exist_ok t Ht).
  unfold mkdir_or_accept, isdir. rewrite (stat_ok_mkdir _ _ _ Hstat), Hstat.
  now rewrite andb_false_r.
Qed.

Lemma makedirs_empty_path (room : nat) fs (exist_ok : bool) :
  makedirs (S room) fs "" exist_ok = (fs, Raise (FileNotFoundError "")).
Proof. rewrite makedirs_S. cbn. now rewrite andb_false_r. Qed.

Lemma grown_refl fs : grown fs fs.
Proof. split; auto. Qed.

Lemma grown_trans fs1 fs2 fs3 : grown fs1 fs2 -> grown fs2 fs3 -> grown fs1 fs3.
Proof.
  intros [H1 H2] [H3 H4]. split; [congruence|]. intros loc.
  destruct (H2 loc) as [E2|[E2 E2']], (H4 loc) as [E4|[E4 E4']].
  - left. congruence.
  - right. split; congruence.
  - right. split; congruence.
  - congruence.
Qed.

Lemma mkdir_ok_inv fs fs' (p : string) :
  mkdir fs p = Ok fs' ->
  exists loc, namei fs p false = Ok (Entry loc) /\ tree fs !! loc = None
              /\ loc <> []
              /\ fs' = {| cwd := cwd fs; tree := <[ loc := Dir ]> (tree fs) |}.
Proof.
  unfold mkdir. destruct (namei fs p false) as [[loc|loc]|e] eqn:Hn; simpl;
    try discriminate.
  assert (Hloc : loc <> []).
  { revert Hn. destruct (names_cases_rev p) as [Hp|(init & final & Hp)].
    - unfold namei. rewrite Hp. destruct (check_path p); discriminate.
    - rewrite (namei_snoc _ _ _ _ _ Hp). destruct (check_path p); [|discriminate].
      simpl. destruct (walk _ _ _ _); [|discriminate]. simpl.
      repeat (match goal with |- context [if ?b then _ else _] => destruct b end;
              try discriminate).
      intros [= <-]. now destruct a0. }
  destruct (node_at fs loc) eqn:Hnode; [discriminate|].
  intros [= <-]. exists loc. unfold node_at in Hnode.
  destruct loc; [congruence|]. auto.
Qed.

Lemma mkdir_grown fs fs' (p : string) : mkdir fs p = Ok fs' -> grown fs fs'.
Proof.
  intros (loc & _ & Hnone & _ & ->)%mkdir_ok_inv. split; [reflexivity|].
  intros k. simpl. destruct (decide (k = loc)) as [->|Hne].
  - right. split; [exact Hnone|apply lookup_insert_eq].
  - left. now apply lookup_insert_ne.
Qed.

Lemma mkdir_or_accept_grown fs fs' (name : string) (exist_ok : bool) (r : result unit) :
  mkdir_or_accept fs name exist_ok = (fs', r) -> grown fs fs'.
Proof.
  unfold mkdir_or_accept. destruct (mkdir fs name) as [fs1|e] eqn:Hm.
  - intros [= <- _]. now apply (mkdir_grown _ _ name).
  - destruct (_ && _); intros [= <- _]; apply grown_refl.
Qed.

(** Whatever its outcome, [makedirs] only adds directories. *)
Lemma makedirs_grown (room : nat) : forall fs fs' (name : string) (exist_ok : bool)
                                         (r : result unit),
  makedirs room fs name exist_ok = (fs', r) -> grown fs fs'.
Proof.
  induction room as [|room IH]; intros fs fs' name exist_ok r.
  - simpl. intros [= <- _]. apply grown_refl.
  - rewrite makedirs_S. destruct (leaf_split name) as [head tail].
    destruct (_ && _); [|apply mkdir_or_accept_grown].
    destruct (makedirs room fs head exist_ok) as [fs1 made] eqn:Hrec.
    apply IH in Hrec. intros H.
    assert (Hlast : (fs1, Ok tt) = (fs', r) \/ (fs1, made) = (fs', r)
                    \/ mkdir_or_accept fs1 name exist_ok = (fs', r)).
    { destruct made as [[]|e].
      - destruct (String.eqb tail "."); auto.
      - destruct (String.eqb (exn_class e) "FileExistsError"); [|auto].
        destruct (String.eqb tail "."); auto. }
    destruct Hlast as [[= <- _]|[[= <- _]|Hlast]]; try exact Hrec.
    eapply grown_trans; [exact Hrec|]. now apply mkdir_or_accept_grown in Hlast.
Qed.

Lemma grown_dirs_kept fs fs' : grown fs fs' -> dirs_kept fs fs'.
Proof.
  intros [Hc Ht]. split; [exact Hc|]. intros [|n loc]; [auto|]. simpl.
  destruct (Ht (n :: loc)) as [->|[E _]]; [auto|]. rewrite E. discriminate.
Qed.

Lemma mkdir_ok_isdir fs fs' (p : string) : mkdir fs p = Ok fs' -> isdir fs' p = true.
Proof.
  intros Hm. pose proof (mkdir_grown _ _ _ Hm) as Hg.
  apply mkdir_ok_inv in Hm as (loc & Hn & _ & Hloc & ->).
  unfold isdir, stat.
  rewrite (namei_mono _ _ _ _ _ (grown_dirs_kept _ _ Hg) Hn). simpl.
  rewrite node_at_insert by exact Hloc. now rewrite decide_True.
Qed.

Lemma mkdir_or_accept_ok_isdir fs fs' (name : string) (exist_ok : bool) :
  mkdir_or_accept fs name exist_ok = (fs', Ok tt) -> isdir fs' name = true.
Proof.
  unfold mkdir_or_accept. destruct (mkdir fs name) as [fs1|e] eqn:Hm.
  - intros [= <-]. exact (mkdir_ok_isdir _ _ _ Hm).
  - destruct (isdir fs name) eqn:Hd; [|now rewrite andb_false_r].
    destruct (_ && _); [|discriminate]. now intros [= <-].
Qed.

(** When [makedirs] returns, the directory is there, unless the path ends in
    the name [.]. *)
Lemma makedirs_ok_isdir (room : nat) fs fs' (name : string) (exist_ok : bool) :
  makedirs room fs name exist_ok = (fs', Ok tt) ->
  List.last (names name) "" <> "." ->
  isdir fs' name = true.
Proof.
  destruct room as [|room]; [discriminate|]. rewrite makedirs_S.
  pose proof (leaf_split_spec name) as Hspec.
  destruct (leaf_split name) as [head tail].
  destruct Hspec as (_ & _ & _ & Hnames).
  intros H Hlast.
  assert (Htail : String.eqb tail "." = false).
  { destruct (String.eqb_spec tail ".") as [->|]; [|reflexivity].
    rewrite Hnames, last_last in Hlast by discriminate. congruence. }
  rewrite Htail in H.
  destruct (_ && _); [|exact (mkdir_or_accept_ok_isdir _ _ _ _ H)].
  destruct (makedirs room fs head exist_ok) as [fs1 [[]|e]].
  - exact (mkdir_or_accept_ok_isdir _ _ _ _ H).
  - destruct (String.eqb (exn_class e) "FileExistsError"); [|discriminate].
    exact (mkdir_or_accept_ok_isdir _ _ _ _ H).
Qed.

(** *** The path of an artifact *)

Lemma eqb_length_neq (a b : string) :
  String.length a <> String.length b -> String.eqb a b = false.
Proof. intros H. destruct (String.eqb_spec a b) as [->|]; [congruence|reflexivity]. Qed.

Lemma artifact_file_name (name : string) :
  slash_free name = true ->
  names (name +:+ "_model.pkl") = [name +:+ "_model.pkl"]
  /\ String.eqb (name +:+ "_model.pkl") "." = false
  /\ String.eqb (name +:+ "_model.pkl") ".." = false.
Proof.
  intros Hname. split; [|split].
  - apply names_slash_free.
    + now rewrite slash_free_append, Hname.
    + intros [_ H]%append_eq_nil. discriminate.
  - apply eqb_length_neq. rewrite length_append. simpl. lia.
  - apply eqb_length_neq. rewrite length_append. simpl. lia.
Qed.

Lemma artifact_path_facts (output_dir name : string) :
  slash_free name = true -> output_dir <> "" ->
  names (artifact_path output_dir name) = names output_dir ++ [name +:+ "_model.pkl"]
  /\ absolute (artifact_path output_dir name) = absolute output_dir
  /\ trailing_slash (artifact_path output_dir name) = false.
Proof.
  intros Hname Hout. unfold artifact_path. split; [|split].
  - change ("/" +:+ name +:+ "_model.pkl") with (String "/" (name +:+ "_model.pkl")).
    rewrite names_append_slash. f_equal. now apply artifact_file_name.
  - now apply absolute_append.
  - rewrite <- !string_app_assoc. now rewrite trailing_slash_append by discriminate.
Qed.

(** What the path of an artifact leads to: the entry under the file name in
    the directory [output_dir]. *)
Lemma namei_artifact fs (output_dir name : string) (opening : bool) :
  slash_free name = true -> output_dir <> "" ->
  namei fs (artifact_path output_dir name) opening
  = try! _ := check_path (artifact_path output_dir name) in
    try! loc := walk fs (artifact_path output_dir name)
                     (if absolute output_dir then [] else cwd fs) (names output_dir) in
    if Nat.ltb NAME_MAX (String.length (name +:+ "_model.pkl")) then
      Raise (OSError "File name too long")
    else Ok (Entry (loc ++ [name +:+ "_model.pkl"])).
Proof.
  intros Hname Hout.
  destruct (artifact_path_facts output_dir name Hname Hout) as (Hn & Ha & Ht).
  destruct (artifact_file_name name Hname) as (_ & Hdot & Hdots).
  rewrite (namei_snoc fs _ opening _ _ Hn), Ha, Ht, andb_false_r, Hdot, Hdots.
  reflexivity.
Qed.

(** Where the artifacts of [output_dir] go, and what makes a write there
    possible. *)
Lemma open_wb_artifact_inv fs fs' (output_dir name content : string) :
  slash_free name = true -> output_dir <> "" ->
  open_wb fs (artifact_path output_dir name) content = Ok fs' ->
  exists d,
    walk fs (artifact_path output_dir name)
         (if absolute output_dir then [] else cwd fs) (names output_dir) = Ok d
    /\ check_path (artifact_path output_dir name) = Ok tt
    /\ Nat.ltb NAME_MAX (String.length (name +:+ "_model.pkl")) = false
    /\ node_at fs (d ++ [name +:+ "_model.pkl"]) <> Some Dir
    /\ fs' = {| cwd := cwd fs;
                tree := <[ d ++ [name +:+ "_model.pkl"] := File content ]> (tree fs) |}.
Proof.
  intros Hname Hout. unfold open_wb. rewrite (namei_artifact fs _ _ true Hname Hout).
  destruct (check_path _) as [[]|e]; [|discriminate]. simpl.
  destruct (walk fs _ _ _) as [d|e]; [|discriminate]. simpl.
  destruct (Nat.ltb _ _); [discriminate|]. simpl.
  intros H. exists d. repeat split; try reflexivity.
  - intros Hd. now rewrite Hd in H.
  - destruct (node_at fs _) as [[|c]|]; [discriminate|now injection H..].
Qed.

Lemma open_wb_artifact_ok fs (output_dir name content : string) (d : list string) :
  slash_free name = true -> output_dir <> "" ->
  walk fs (artifact_path output_dir name)
       (if absolute output_dir then [] else cwd fs) (names output_dir) = Ok d ->
  check_path (artifact_path output_dir name) = Ok tt ->
  Nat.ltb NAME_MAX (String.length (name +:+ "_model.pkl")) = false ->
  node_at fs (d ++ [name +:+ "_model.pkl"]) <> Some Dir ->
  open_wb fs (artifact_path output_dir name) content
  = Ok {| cwd := cwd fs;
          tree := <[ d ++ [name +:+ "_model.pkl"] := File content ]> (tree fs) |}.
Proof.
  intros Hname Hout Hw Hc Hl Hnode. unfold open_wb.
  rewrite (namei_artifact fs _ _ true Hname Hout), Hc. simpl. rewrite Hw. simpl.
  rewrite Hl. simpl. destruct (node_at fs _) as [[|c]|]; [contradiction|reflexivity..].
Qed.

Lemma read_artifact fs (output_dir name content : string) (d : list string) :
  slash_free name = true -> output_dir <> "" ->
  walk fs (artifact_path output_dir name)
       (if absolute output_dir then [] else cwd fs) (names output_dir) = Ok d ->
  check_path (artifact_path output_dir name) = Ok tt ->
  Nat.ltb NAME_MAX (String.length (name +:+ "_model.pkl")) = false ->
  node_at fs (d ++ [name +:+ "_model.pkl"]) = Some (File content) ->
  read_file fs (artifact_path output_dir name) = Some content.
Proof.
  intros Hname Hout Hw Hc Hl Hnode. unfold read_file, stat.
  rewrite (namei_artifact fs _ _ false Hname Hout), Hc. simpl. rewrite Hw. simpl.
  rewrite Hl. simpl. rewrite Hnode.
  now destruct (artifact_path_facts output_dir name Hname Hout) as (_ & _ & ->).
Qed.

(** The directory of the artifacts is a directory. *)
Lemma isdir_of_artifact_walk fs (output_dir name : string) (d : list string) :
  output_dir <> "" ->
  walk fs (artifact_path output_dir name)
       (if absolute output_dir then [] else cwd fs) (names output_dir) = Ok d ->
  check_path (artifact_path output_dir name) = Ok tt ->
  isdir fs output_dir = true.
Proof.
  intros Hout Hw Hc. unfold isdir.
  rewrite (stat_of_walk fs output_dir (artifact_path output_dir name) d);
    [reflexivity| |exact Hw].
  unfold artifact_path in Hc. now apply check_path_prefix in Hc.
Qed.

Lemma makedirs_ok_nonempty (room : nat) fs fs' (output_dir : string) (exist_ok : bool) :
  makedirs room fs output_dir exist_ok = (fs', Ok tt) -> output_dir <> "".
Proof.
  intros H ->. destruct room; [discriminate|].
  rewrite makedirs_empty_path in H. discriminate.
Qed.

(** *** [save_models]: where the artifacts go *)

Lemma list_ascii_of_string_app (s t : string) :
  list_ascii_of_string (s +:+ t) = list_ascii_of_string s ++ list_ascii_of_string t.
Proof. induction s as [|a s IH]; simpl; [reflexivity|]. now rewrite <- IH. Qed.

Lemma string_app_inv_tail (s1 s2 t : string) : s1 +:+ t = s2 +:+ t -> s1 = s2.
Proof.
  intros H. apply (f_equal list_ascii_of_string) in H.
  rewrite !list_ascii_of_string_app in H. apply app_inv_tail in H.
  rewrite <- (string_of_list_ascii_of_string s1), <- (string_of_list_ascii_of_string s2).
  now rewrite H.
Qed.

Lemma artifact_loc_inj (d : list string) (name1 name2 : string) :
  artifact_loc d name1 = artifact_loc d name2 -> name1 = name2.
Proof.
  unfold artifact_loc, artifact_file. intros H. apply app_inv_head in H.
  injection H as H. now apply string_app_inv_tail in H.
Qed.

Lemma artifact_loc_not_root (d : list string) (name : string) : artifact_loc d name <> [].
Proof. unfold artifact_loc. now destruct d. Qed.

Lemma namei_opening fs (p : string) (t : target) :
  namei fs p true = Ok t -> namei fs p false = Ok t.
Proof.
  destruct (names_cases_rev p) as [Hn|(init & final & Hn)].
  - unfold namei. now rewrite Hn.
  - rewrite !(namei_snoc _ _ _ _ _ Hn). destruct (check_path p); [|discriminate].
    simpl. destruct (walk _ _ _ _); [|discriminate]. simpl.
    now destruct (trailing_slash p).
Qed.

Lemma namei_entry_not_root fs (p : string) (opening : bool) (loc : list string) :
  namei fs p opening = Ok (Entry loc) -> loc <> [].
Proof.
  destruct (names_cases_rev p) as [Hn|(init & final & Hn)].
  - unfold namei. rewrite Hn. destruct (check_path p); discriminate.
  - rewrite (namei_snoc _ _ _ _ _ Hn). destruct (check_path p); [|discriminate].
    simpl. destruct (walk _ _ _ _) as [l|]; [|discriminate]. simpl.
    repeat (match goal with |- context [if ?b then _ else _] => destruct b end;
            try discriminate).
    intros [= <-]. now destruct l.
Qed.

Lemma open_wb_ok_inv fs fs' (p content : string) :
  open_wb fs p content = Ok fs' ->
  exists loc, namei fs p true = Ok (Entry loc) /\ loc <> []
              /\ node_at fs loc <> Some Dir
              /\ fs' = {| cwd := cwd fs; tree := <[ loc := File content ]> (tree fs) |}.
Proof.
  unfold open_wb. destruct (namei fs p true) as [[loc|loc]|e] eqn:Hn; simpl;
    try discriminate.
  intros H. exists loc. split; [reflexivity|].
  split; [exact (namei_entry_not_root _ _ _ _ Hn)|]. split.
  - intros Hd. now rewrite Hd in H.
  - destruct (node_at fs loc) as [[|c]|]; [discriminate|now injection H..].
Qed.

Section Saving.
Context {E : Estimator}.
Implicit Types (fs : filesystem) (p : predictor) (items : dict ref).

Lemma leads_to_artifact fs (output_dir name : string) (d : list string) :
  walk fs (artifact_path output_dir name)
       (if absolute output_dir then [] else cwd fs) (names output_dir) = Ok d
  <-> leads_to fs output_dir d.
Proof. unfold leads_to. split; apply walk_path. Qed.

Lemma leads_to_kept fs fs' (path : string) (d : list string) :
  dirs_kept fs fs' -> leads_to fs path d -> leads_to fs' path d.
Proof.
  unfold leads_to. intros Hk Hw. rewrite (proj1 Hk). now apply (walk_mono fs fs').
Qed.

(** A save loop that returns, the artifacts being plain file names in the
    directory at [d]: each identifier's file holds its estimator, and nothing
    else has changed. *)
Lemma save_loop_ok_at h (output_dir : string) (d : list string) items : forall fs fs1,
  output_dir <> "" ->
  Forall (fun name => slash_free name = true) (keys items) ->
  NoDup (keys items) ->
  leads_to fs output_dir d ->
  save_loop h output_dir items fs = (fs1, Ok tt) ->
  dirs_kept fs fs1 /\ dirs_kept fs1 fs
  /\ (forall name r, (name, r) ∈ items ->
        tree fs1 !! artifact_loc d name = Some (File (pickle (h r)))
        /\ check_path (artifact_path output_dir name) = Ok tt
        /\ Nat.ltb NAME_MAX (String.length (artifact_file name)) = false
        /\ node_at fs (artifact_loc d name) <> Some Dir)
  /\ (forall loc, (forall name, name ∈ keys items -> loc <> artifact_loc d name) ->
        tree fs1 !! loc = tree fs !! loc).
Proof.
  induction items as [|[n r0] items IH]; intros fs fs1 Hout Hfree Hnd Hd; simpl.
  - intros [= <-]. split; [apply dirs_kept_refl|]. split; [apply dirs_kept_refl|].
    split; [intros name r Hin; inversion Hin|auto].
  - apply Forall_cons in Hfree as [Hn Hfree]. apply NoDup_cons in Hnd as [Hfresh Hnd].
    unfold joblib_dump.
    destruct (open_wb fs (artifact_path output_dir n) (pickle (h r0))) as [fs'|e] eqn:Hw;
      [|discriminate].
    destruct (open_wb_artifact_inv _ _ _ _ _ Hn Hout Hw) as (d' & Hd' & Hc & Hl & Hnode & ->).
    apply leads_to_artifact in Hd'. unfold leads_to in Hd, Hd'. rewrite Hd in Hd'.
    injection Hd' as <-. fold (artifact_file n) in *. fold (artifact_loc d n) in *.
    set (fs' := {| cwd := cwd fs;
                   tree := <[ artifact_loc d n := File (pickle (h r0)) ]> (tree fs) |}).
    assert (Hk : dirs_kept fs fs').
    { apply dirs_kept_insert; [apply artifact_loc_not_root|exact Hnode]. }
    assert (Hk' : dirs_kept fs' fs).
    { apply dirs_kept_insert_file; [apply artifact_loc_not_root|exact Hnode]. }
    intros Hrest.
    destruct (IH fs' fs1 Hout Hfree Hnd (leads_to_kept _ _ _ _ Hk Hd) Hrest)
      as (Hk1 & Hk1' & Hitems & Hframe).
    split; [now apply (dirs_kept_trans fs fs' fs1)|].
    split; [now apply (dirs_kept_trans fs1 fs' fs)|]. split.
    + intros name r [[= -> ->]|Hin]%elem_of_cons.
      * rewrite Hframe.
        -- simpl. rewrite lookup_insert_eq. auto.
        -- intros name Hname Heq. apply artifact_loc_inj in Heq as ->. contradiction.
      * destruct (Hitems name r Hin) as (H1 & H2 & H3 & H4).
        repeat split; try assumption.
        intros Hdir. apply H4. now apply (proj2 Hk).
    + intros loc Hloc. rewrite Hframe.
      * simpl. apply lookup_insert_ne. intros Heq. apply (Hloc n); [left|auto].
      * intros name Hname. apply Hloc. now right.
Qed.

(** A save loop that returns and wrote at least one artifact found its
    directory. *)
Lemma save_loop_ok_dir h (output_dir name : string) (r : ref) items fs fs1 :
  output_dir <> "" -> slash_free name = true ->
  save_loop h output_dir ((name, r) :: items) fs = (fs1, Ok tt) ->
  exists d, leads_to fs output_dir d.
Proof.
  intros Hout Hn. simpl. unfold joblib_dump.
  destruct (open_wb fs _ _) as [fs'|e] eqn:Hw; [|discriminate]. intros _.
  destruct (open_wb_artifact_inv _ _ _ _ _ Hn Hout Hw) as (d & Hd & _).
  exists d. now apply leads_to_artifact in Hd.
Qed.

(** Saving again where every artifact is already a file. *)
Lemma save_loop_again h (output_dir : string) (d : list string) items : forall fs,
  output_dir <> "" ->
  Forall (fun name => slash_free name = true) (keys items) ->
  leads_to fs output_dir d ->
  (forall name, name ∈ keys items ->
     check_path (artifact_path output_dir name) = Ok tt
     /\ Nat.ltb NAME_MAX (String.length (artifact_file name)) = false
     /\ exists content, tree fs !! artifact_loc d name = Some (File content)) ->
  exists fs2, save_loop h output_dir items fs = (fs2, Ok tt)
              /\ dom (tree fs2) = dom (tree fs).
Proof.
  induction items as [|[n r0] items IH]; intros fs Hout Hfree Hd Hfiles; simpl.
  - now exists fs.
  - apply Forall_cons in Hfree as [Hn Hfree].
    destruct (Hfiles n ltac:(left)) as (Hc & Hl & content & Hfile).
    assert (Hnode : node_at fs (artifact_loc d n) <> Some Dir).
    { unfold artifact_loc. rewrite node_at_snoc. fold (artifact_loc d n).
      rewrite Hfile. discriminate. }
    unfold joblib_dump.
    rewrite (open_wb_artifact_ok fs output_dir n _ d Hn Hout
               (proj2 (leads_to_artifact _ _ _ _) Hd) Hc Hl Hnode).
    fold (artifact_file n). fold (artifact_loc d n).
    set (fs' := {| cwd := cwd fs;
                   tree := <[ artifact_loc d n := File (pickle (h r0)) ]> (tree fs) |}).
    destruct (IH fs' Hout Hfree) as (fs2 & Hsave & Hdom).
    + apply (leads_to_kept fs); [|exact Hd].
      apply dirs_kept_insert; [apply artifact_loc_not_root|exact Hnode].
    + intros name Hname. destruct (Hfiles name ltac:(now right)) as (H1 & H2 & c & H3).
      split; [exact H1|]. split; [exact H2|]. simpl.
      destruct (decide (artifact_loc d name = artifact_loc d n)) as [->|Hne].
      * rewrite lookup_insert_eq. eauto.
      * rewrite lookup_insert_ne by congruence. eauto.
    + exists fs2. split; [exact Hsave|]. rewrite Hdom. simpl.
      rewrite dom_insert_L. apply elem_of_dom_2 in Hfile. set_solver.
Qed.

(** Reading an artifact back. *)
Lemma read_saved fs (output_dir name content : string) (d : list string) :
  output_dir <> "" -> slash_free name = true ->
  leads_to fs output_dir d ->
  check_path (artifact_path output_dir name) = Ok tt ->
  Nat.ltb NAME_MAX (String.length (artifact_file name)) = false ->
  tree fs !! artifact_loc d name = Some (File content) ->
  read_file fs (artifact_path output_dir name) = Some content
  /\ namei fs (artifact_path output_dir name) false = Ok (Entry (artifact_loc d name)).
Proof.
  intros Hout Hn Hd Hc Hl Hfile. split.
  - apply (read_artifact fs output_dir name content d Hn Hout); try assumption.
    + now apply leads_to_artifact.
    + unfold artifact_loc in Hfile. now rewrite node_at_snoc.
  - rewrite (namei_artifact fs _ _ false Hn Hout), Hc. simpl.
    rewrite (proj2 (leads_to_artifact _ _ _ _) Hd). simpl.
    unfold artifact_file in Hl. now rewrite Hl.
Qed.

(** What a [save_models] that returns has done, for identifiers without a
    slash: the directory is there, and each identifier's artifact holds its
    estimator. *)
Lemma save_models_ok_artifacts (room : nat) fs fs1 p (output_dir : string) :
  NoDup (keys (trained_models p)) ->
  Forall (fun name => slash_free name = true) (keys (trained_models p)) ->
  trained_models p <> [] ->
  save_models room fs p output_dir = (fs1, Ok tt) ->
  exists fs0 d,
    makedirs room fs output_dir true = (fs0, Ok tt)
    /\ output_dir <> ""
    /\ leads_to fs0 output_dir d /\ leads_to fs1 output_dir d
    /\ isdir fs1 output_dir = true
    /\ dirs_kept fs0 fs1 /\ dirs_kept fs1 fs0
    /\ (forall name r, (name, r) ∈ trained_models p ->
          tree fs1 !! artifact_loc d name = Some (File (pickle (heap p r)))
          /\ read_file fs1 (artifact_path output_dir name) = Some (pickle (heap p r))
          /\ namei fs1 (artifact_path output_dir name) false
             = Ok (Entry (artifact_loc d name))
          /\ check_path (artifact_path output_dir name) = Ok tt
          /\ Nat.ltb NAME_MAX (String.length (artifact_file name)) = false)
    /\ (forall loc,
          (forall name, name ∈ keys (trained_models p) -> loc <> artifact_loc d name) ->
          tree fs1 !! loc = tree fs0 !! loc).
Proof.
  intros Hnd Hfree Hne. unfold save_models.
  destruct (makedirs room fs output_dir true) as [fs0 [[]|e]] eqn:Hmk; [|discriminate].
  intros Hsave. pose proof (makedirs_ok_nonempty _ _ _ _ _ Hmk) as Hout.
  destruct (trained_models p) as [|[n r0] items] eqn:Hitems; [congruence|].
  pose proof Hfree as Hn0. simpl in Hn0. apply Forall_cons in Hn0 as [Hn0 _].
  destruct (save_loop_ok_dir _ _ _ _ _ _ _ Hout Hn0 Hsave) as [d Hd].
  destruct (save_loop_ok_at _ _ d _ _ _ Hout Hfree Hnd Hd Hsave)
    as (Hk & Hk' & Hall & Hframe).
  pose proof (leads_to_kept _ _ _ _ Hk Hd) as Hd1.
  exists fs0, d. split; [reflexivity|]. split; [exact Hout|].
  split; [exact Hd|]. split; [exact Hd1|]. split.
  { destruct (Hall n r0 ltac:(left)) as (_ & Hc & _).
    apply (isdir_of_artifact_walk fs1 output_dir n d Hout); [|exact Hc].
    now apply leads_to_artifact. }
  split; [exact Hk|]. split; [exact Hk'|]. split; [|exact Hframe].
  intros name r Hin. destruct (Hall name r Hin) as (Hfile & Hc & Hl & _).
  assert (Hname : slash_free name = true).
  { rewrite Forall_forall in Hfree. apply Hfree. now apply (elem_of_keys name r). }
  destruct (read_saved fs1 output_dir name _ d Hout Hname Hd1 Hc Hl Hfile) as [Hr Hn].
  auto.
Qed.


(** What [save_models] does to the disk, whatever its outcome. *)
Lemma save_loop_frame h (output_dir : string) items : forall fs fs' (res : result unit),
  save_loop h output_dir items fs = (fs', res) ->
  dirs_kept fs fs'
  /\ forall loc,
       tree fs' !! loc = tree fs !! loc
       \/ (node_at fs loc <> Some Dir
           /\ exists name r,
                (name, r) ∈ items
                /\ namei fs' (artifact_path output_dir name) false = Ok (Entry loc)
                /\ tree fs' !! loc = Some (File (pickle (h r)))).
Proof.
  induction items as [|[n r0] items IH]; intros fs fs' res; simpl.
  - intros [= <- _]. split; [apply dirs_kept_refl|auto].
  - unfold joblib_dump.
    destruct (open_wb fs (artifact_path output_dir n) (pickle (h r0))) as [fs1|e] eqn:Hw.
    + apply open_wb_ok_inv in Hw as (loc0 & Hn & Hloc0 & Hnode & ->).
      set (fs1 := {| cwd := cwd fs; tree := <[ loc0 := File (pickle (h r0)) ]> (tree fs) |}).
      intros Hrest. destruct (IH fs1 fs' res Hrest) as [Hk1 Hframe].
      assert (Hk : dirs_kept fs fs1) by now apply dirs_kept_insert.
      split; [now apply (dirs_kept_trans fs fs1 fs')|].
      intros loc. destruct (Hframe loc) as [Heq|(Hno & name & r & Hin & Hname & Hfile)].
      * destruct (decide (loc = loc0)) as [->|Hne].
        -- right. split; [exact Hnode|]. exists n, r0. split; [left|]. split.
           ++ apply (namei_mono fs fs'); [now apply (dirs_kept_trans fs fs1 fs')|].
              now apply namei_opening.
           ++ rewrite Heq. simpl. apply lookup_insert_eq.
        -- left. rewrite Heq. simpl. now apply lookup_insert_ne.
      * right. split.
        -- intros Hdir. apply Hno. now apply (proj2 Hk).
        -- exists name, r. split; [now right|auto].
    + intros [= <- _]. split; [apply dirs_kept_refl|auto].
Qed.

Lemma save_models_frame (room : nat) fs fs' p (output_dir : string) (res : result unit) :
  save_models room fs p output_dir = (fs', res) ->
  cwd fs' = cwd fs
  /\ (forall loc, tree fs !! loc = Some Dir -> tree fs' !! loc = Some Dir)
  /\ forall loc,
       tree fs' !! loc = tree fs !! loc
       \/ (tree fs !! loc = None /\ tree fs' !! loc = Some Dir)
       \/ (tree fs !! loc <> Some Dir
           /\ exists name r,
                (name, r) ∈ trained_models p
                /\ namei fs' (artifact_path output_dir name) false = Ok (Entry loc)
                /\ tree fs' !! loc = Some (File (pickle (heap p r)))).
Proof.
  unfold save_models.
  destruct (makedirs room fs output_dir true) as [fs0 made] eqn:Hmk.
  pose proof (makedirs_grown _ _ _ _ _ _ Hmk) as Hg.
  intros H.
  assert (Hframe : dirs_kept fs0 fs'
                   /\ forall loc,
                        tree fs' !! loc = tree fs0 !! loc
                        \/ (node_at fs0 loc <> Some Dir
                            /\ exists name r,
                                 (name, r) ∈ trained_models p
                                 /\ namei fs' (artifact_path output_dir name) false
                                    = Ok (Entry loc)
                                 /\ tree fs' !! loc = Some (File (pickle (heap p r))))).
  { destruct made as [[]|e].
    - exact (save_loop_frame _ _ _ _ _ _ H).
    - injection H as <- _. split; [apply dirs_kept_refl|auto]. }
  destruct Hframe as [Hk Hf]. destruct Hg as [Hc Hg].
  assert (Hall : forall loc,
            tree fs' !! loc = tree fs !! loc
            \/ (tree fs !! loc = None /\ tree fs' !! loc = Some Dir)
            \/ (tree fs !! loc <> Some Dir
                /\ exists name r,
                     (name, r) ∈ trained_models p
                     /\ namei fs' (artifact_path output_dir name) false = Ok (Entry loc)
                     /\ tree fs' !! loc = Some (File (pickle (heap p r))))).
  { intros loc. destruct (Hf loc) as [Heq|(Hno & Hwritten)].
    - rewrite Heq. destruct (Hg loc) as [|]; auto.
    - right. right. split; [|exact Hwritten].
      intros Hdir. apply Hno. destruct loc as [|n loc]; [reflexivity|]. simpl.
      destruct (Hg (n :: loc)) as [->|[Hnone _]]; [exact Hdir|congruence]. }
  split; [now rewrite (proj1 Hk)|]. split; [|exact Hall].
  intros loc Hdir. destruct (Hall loc) as [->|[[Hnone _]|[Hno _]]];
    [exact Hdir|congruence|contradiction].
Qed.
(** X9.  A regular file where [output_dir] leads, or an empty [output_dir]:
    [save_models] raises [FileExistsError] in the first case and
    [FileNotFoundError] in the second, and the disk is as it was; no artifact
    is written. *)
Theorem save_models_refuses_file_and_empty_path
        (room : nat) fs p (output_dir : string) :
  (forall content, stat fs output_dir = Ok (File content) ->
     save_models (S room) fs p output_dir = (fs, Raise (FileExistsError output_dir)))
  /\ save_models (S room) fs p "" = (fs, Raise (FileNotFoundError "")).
Proof.
  split.
  - intros content Hstat. unfold save_models.
    now rewrite (makedirs_file_in_the_way room fs output_dir content true Hstat).
  - unfold save_models. now rewrite makedirs_empty_path.
Qed.

End Saving.




(** *** Training, then saving *)

Section Composition.
Context {E : Estimator} {R : RandomState}.
Implicit Types (p : predictor) (sp : split) (r : ref).


(** *** [main] *)

Lemma init_registry_distinct :
  NoDup (keys (models __init__)) /\ NoDup ((models __init__).*2)
  /\ registry_prefix __init__
  /\ Forall (fun name => slash_free name = true) (keys (models __init__)).
Proof.
  split; [|split; [|split]].
  - apply (bool_decide_unpack _). vm_compute. exact I.
  - apply (bool_decide_unpack _). vm_compute. exact I.
  - exists 0. split; reflexivity.
  - repeat constructor.
Qed.

Context {D : DataGenerator R}.

Lemma main_cases (w : world) :
  let g := fst main_data in
  let X := fst (snd main_data) in
  let y := snd (snd main_data) in
  (exists g' p' e,
      train_models g __init__ X y = (g', (p', Raise e))
      /\ main w = ({| np_random := g'; disk := disk w;
                      recursion_room := recursion_room w |}, [], Raise e))
  \/ (exists g' p' best,
        train_models g __init__ X y = (g', (p', Ok tt))
        /\ get_best_model p' = Ok best
        /\ ((exists fs, save_models (recursion_room w) (disk w) p' "models" = (fs, Ok tt)
                        /\ main w = ({| np_random := g'; disk := fs;
                                        recursion_room := recursion_room w |},
                                     [generate_report p'], Ok p'))
            \/ (exists fs e,
                   save_models (recursion_room w) (disk w) p' "models" = (fs, Raise e)
                   /\ main w = ({| np_random := g'; disk := fs;
                                   recursion_room := recursion_room w |},
                                [], Raise e)))).
Proof.
  intros g X y. unfold main. subst g X y.
  destruct main_data as [g [X y]]. simpl.
  destruct (train_models g __init__ X y) as [g' [p' [[]|e]]] eqn:Htrain.
  - right. destruct init_registry_distinct as (Hnd & _ & Hpre & _).
    destruct (train_models_ok_registry g g' __init__ p' X y Hnd Hpre Htrain)
      as (Ht & Hs & Hm).
    destruct (get_best_model_prefix p') as (i & best & r & s_best & Hbest & _).
    + now rewrite Hm.
    + exists 4. rewrite Hm, Ht, Hs. split; reflexivity.
    + intros Hnil. rewrite Hnil in Hs. discriminate.
    + exists g', p', (best, r). split; [reflexivity|]. split; [exact Hbest|].
      rewrite Hbest.
      destruct (save_models (recursion_room w) (disk w) p' "models") as [fs [[]|e]].
      * left. now exists fs.
      * right. now exists fs, e.
  - left. now exists g', p', e.
Qed.


End Composition.


(** *** Running the composed properties *)

Lemma train_models_leaves_unregistered_objects_witness :
  @heap toy_estimator
    (fst (snd (@train_models toy_estimator fixed_rng tt toy_predictor
                 ten_rows ten_labels))) 5
  = toy_heap 5.
Proof.
  apply (@train_models_leaves_unregistered_objects toy_estimator fixed_rng
           tt toy_predictor ten_rows ten_labels 5).
  apply (bool_decide_unpack _). vm_compute. exact I.
Defined.




(** *** Preprocessing: validation and descriptors *)

Lemma combine_app_same {A B : Type} (l1 l2 : list A) : forall k1 k2 : list B,
  length l1 = length k1 ->
  combine (l1 ++ l2) (k1 ++ k2) = combine l1 k1 ++ combine l2 k2.
Proof.
  induction l1 as [|a l1 IH]; intros [|b k1] k2 Hlen; try discriminate; simpl.
  - reflexivity.
  - f_equal. apply IH. now injection Hlen.
Qed.

Lemma enumerate_snoc {A : Type} (l : list A) (x : A) :
  enumerate (l ++ [x]) = enumerate l ++ [(length l, x)].
Proof.
  unfold enumerate. rewrite length_app. simpl.
  rewrite seq_app. simpl.
  rewrite combine_app_same by now rewrite length_seq. reflexivity.
Qed.

Lemma StronglySorted_snoc {A : Type} (Rel : A -> A -> Prop) (l : list A) (x : A) :
  StronglySorted Rel l -> Forall (fun y => Rel y x) l -> StronglySorted Rel (l ++ [x]).
Proof.
  induction 1 as [|a l Hs IH Ha]; intros Hall; simpl.
  - constructor; constructor.
  - apply Forall_cons in Hall as [Hax Hall]. constructor; [now apply IH|].
    apply Forall_app. split; [exact Ha|]. now constructor.
Qed.

Section ProcessorFacts.
Context {K : RDKit}.

Lemma validate_smiles_snoc (l : list string) (x : string) :
  validate_smiles (l ++ [x])
  = match MolFromSmiles x with
    | Some _ => (fst (validate_smiles l) ++ [x], snd (validate_smiles l) ++ [length l])
    | None => validate_smiles l
    end.
Proof.
  unfold validate_smiles. rewrite enumerate_snoc, fold_left_app. simpl.
  destruct (fold_left _ (enumerate l) ([], [])) as [vs vi]. simpl.
  now destruct (MolFromSmiles x).
Qed.

Lemma calculate_descriptors_snoc (l : list string) (x : string) :
  calculate_descriptors (l ++ [x])
  = match MolFromSmiles x with
    | Some mol =>
        calculate_descriptors l
        ++ [[MolWt mol; MolLogP mol; inject_Z (NumHDonors mol);
             inject_Z (NumHAcceptors mol); TPSA mol;
             inject_Z (NumRotatableBonds mol); inject_Z (NumAromaticRings mol)]]
    | None => calculate_descriptors l
    end.
Proof. unfold calculate_descriptors. now rewrite fold_left_app. Qed.

Lemma validate_smiles_invariant (l : list string) :
  fst (validate_smiles l) = List.filter parses l
  /\ Forall2 (fun i s => l !! i = Some s) (snd (validate_smiles l))
             (fst (validate_smiles l))
  /\ StronglySorted lt (snd (validate_smiles l))
  /\ (forall i s, l !! i = Some s -> parses s = true -> i ∈ snd (validate_smiles l)).
Proof.
  induction l as [|x l (Hvs & Hvi & Hsorted & Hall)] using rev_ind.
  - repeat split; try constructor. intros i s Hi. inversion Hi.
  - assert (Hold : Forall2 (fun i s => (l ++ [x]) !! i = Some s)
                     (snd (validate_smiles l)) (fst (validate_smiles l))).
    { eapply Forall2_impl; [exact Hvi|]. intros i s Hi. simpl.
      now apply lookup_app_l_Some. }
    assert (Hlt : Forall (fun i => i < length l) (snd (validate_smiles l))).
    { clear -Hvi. induction Hvi as [|i s vi vs Hi _ IH]; constructor; [|exact IH].
      now apply lookup_lt_Some in Hi. }
    rewrite validate_smiles_snoc, List.filter_app. simpl. unfold parses at 2.
    destruct (MolFromSmiles x) as [m|] eqn:Hx; simpl.
    + split; [now rewrite Hvs|]. split; [|split].
      * apply Forall2_app; [exact Hold|]. constructor; [|constructor].
        now rewrite list_lookup_middle.
      * now apply StronglySorted_snoc.
      * intros i s Hi Hs. apply elem_of_app.
        destruct (Nat.lt_ge_cases i (length l)) as [Hlt'|Hge].
        -- left. rewrite lookup_app_l in Hi by exact Hlt'. now apply (Hall i s).
        -- right. apply lookup_lt_Some in Hi. rewrite length_app in Hi. simpl in Hi.
           replace i with (length l) by lia. left.
    + split; [now rewrite Hvs, app_nil_r|]. split; [exact Hold|].
      split; [exact Hsorted|].
      intros i s Hi Hs.
      destruct (Nat.lt_ge_cases i (length l)) as [Hlt'|Hge].
      * rewrite lookup_app_l in Hi by exact Hlt'. now apply (Hall i s).
      * exfalso. pose proof (lookup_lt_Some _ _ _ Hi) as Hb.
        rewrite length_app in Hb. simpl in Hb.
        replace i with (length l) in Hi by lia.
        rewrite list_lookup_middle in Hi by reflexivity. injection Hi as <-.
        unfold parses in Hs. rewrite Hx in Hs. discriminate.
Qed.

(** X15.  [validate_smiles] keeps exactly the strings that parse, in their
    order; [valid_indices] lists their positions in the input, strictly
    increasing, entry by entry beside [valid_smiles]; no position of a string
    that parses is left out. *)
Theorem validate_smiles_keeps_exactly_the_parsable (smiles_list : list string) :
  fst (validate_smiles smiles_list) = List.filter parses smiles_list
  /\ Forall2 (fun i s => smiles_list !! i = Some s)
             (snd (validate_smiles smiles_list)) (fst (validate_smiles smiles_list))
  /\ StronglySorted lt (snd (validate_smiles smiles_list))
  /\ (forall i s, smiles_list !! i = Some s -> parses s = true ->
        i ∈ snd (validate_smiles smiles_list)).
Proof. apply validate_smiles_invariant. Qed.

Lemma calculate_descriptors_rows (l : list string) :
  length (calculate_descriptors l) = length (List.filter parses l)
  /\ Forall (fun row => length row = length descriptor_names) (calculate_descriptors l)
  /\ calculate_descriptors (List.filter parses l) = calculate_descriptors l.
Proof.
  induction l as [|x l (Hlen & Hrows & Hsame)] using rev_ind.
  - repeat split. constructor.
  - rewrite List.filter_app. cbn [List.filter].
    destruct (MolFromSmiles x) as [m|] eqn:Hx.
    + assert (Hp : parses x = true) by (unfold parses; now rewrite Hx).
      rewrite Hp, !calculate_descriptors_snoc, Hx, Hsame, !length_app, Hlen.
      split; [reflexivity|]. split; [|reflexivity].
      apply Forall_app. split; [exact Hrows|]. constructor; [reflexivity|constructor].
    + assert (Hp : parses x = false) by (unfold parses; now rewrite Hx).
      rewrite Hp, calculate_descriptors_snoc, Hx, !app_nil_r. auto.
Qed.

(** X16.  [calculate_descriptors] gives one row per string that parses and
    silently none for the others, every row with one value per descriptor
    name (seven).  After [validate_smiles] no row is lost: the descriptors of
    the validated strings are those of the whole input, one row for each
    validated string. *)
Theorem descriptors_one_row_per_valid_smiles (smiles_list : list string) :
  length (calculate_descriptors smiles_list)
  = length (fst (validate_smiles smiles_list))
  /\ length (calculate_descriptors smiles_list) <= length smiles_list
  /\ Forall (fun row => length row = length descriptor_names /\ length row = 7)
            (calculate_descriptors smiles_list)
  /\ calculate_descriptors (fst (validate_smiles smiles_list))
     = calculate_descriptors smiles_list.
Proof.
  destruct (calculate_descriptors_rows smiles_list) as (Hlen & Hrows & Hsame).
  destruct (validate_smiles_invariant smiles_list) as (Hvs & _).
  rewrite Hvs. split; [exact Hlen|]. split; [|split; [|exact Hsame]].
  - rewrite Hlen. apply List.filter_length_le.
  - eapply Forall_impl; [exact Hrows|]. intros row Hr. simpl in *. now split.
Qed.
End ProcessorFacts.
